(** * OpenAPI spec MCP server: cache, acquisition and request validation

    A shallow embedding of
      - [src/tools/validate-request.ts] (ValidateRequestTool),
      - [src/tools/base-tool.ts]        (BaseTool.validateArgs),
      - [src/core/cache-manager.ts]     (CacheManager),
      - [src/core/openapi-client.ts]    (OpenAPIClient),
    together with the properties the specification states about them.

    Conventions.
    - A JavaScript object parsed from JSON is modelled by its own
      properties: a finite map ([gmap string _]) or, where [Object.keys]
      order is observable, an association list in key order.  What such an
      object inherits from [Object.prototype] is part of the model wherever
      the code uses [in] or reads a property under a computed name.
    - A document is a value of the interface types of [src/types/openapi.ts]:
      its objects have the own properties the interfaces declare.
    - An optional field [f?: T] is an [option T]; [undefined] is [None].
    - A function that may throw returns an [Outcome].
    - JavaScript numbers that come from JSON are finite, so they are modelled
      as exact rationals ([Qc]); comparison, [Number.isInteger] and [%] agree
      with IEEE arithmetic on them.
    - A string is its sequence of code units, each below 256 (Latin-1);
      [toLowerCase] and [trim] are those of JavaScript on such strings. *)

From Stdlib Require Import ZArith QArith Qcanon String Ascii List Bool Lia.
From Stdlib Require Import DecimalString Sorted.
From stdpp Require Import base tactics option list numbers strings.
From stdpp Require Import gmap fin_maps.

Import ListNotations.
Set Warnings "-register-all".
Local Open Scope string_scope.
Local Open Scope Z_scope.
Local Open Scope list_scope.

(* ===================================================================== *)
(** ** Exceptions *)
(* ===================================================================== *)

(** The values the code throws: error objects by constructor name, the
    rejection of an [axios] request with the status of [error.response]
    when there is one, and [undefined]. *)
Inductive JsError : Type :=
  | Error (message : string)
  | TypeError (message : string)
  | SyntaxError (message : string)
  | AxiosError (response_status : option Z) (message : string)
  | Undefined.

(** [`${error}`]: the name of the error, a colon and its message.  An
    axios error made from a failed connection keeps the name of the
    underlying error, [Error]; one made from a rejected status is named
    [AxiosError]. *)
Definition error_toString (e : JsError) : string :=
  match e with
  | Error m => "Error: " +:+ m
  | TypeError m => "TypeError: " +:+ m
  | SyntaxError m => "SyntaxError: " +:+ m
  | AxiosError None m => "Error: " +:+ m
  | AxiosError (Some _) m => "AxiosError: " +:+ m
  | Undefined => "undefined"
  end.

(** Result of a call that either returns or throws. *)
Inductive Outcome (A : Type) : Type :=
  | Ok (a : A)
  | Throw (e : JsError).
Arguments Ok {A} a.
Arguments Throw {A} e.

Definition bind {A B : Type} (c : Outcome A) (k : A -> Outcome B) : Outcome B :=
  match c with
  | Ok a => k a
  | Throw e => Throw e
  end.

Notation "x <- c ;; k" := (bind c (fun x => k))
  (at level 100, c at next level, right associativity).

Definition returns {A : Type} (c : Outcome A) : Prop := exists a, c = Ok a.

(* ===================================================================== *)
(** ** JavaScript values and strings *)
(* ===================================================================== *)

(** The values the tool handles: those that reach it as JSON, and the two
    kinds of value that reading a property of a parsed object can yield
    besides: a built-in function ([JFun], by the place it is found at,
    such as [Object.prototype.toString]) and [Object.prototype] itself
    ([JProto]).  An object parsed from JSON ([JObj]) is given by its own
    properties and inherits from [Object.prototype]. *)
Inductive JsValue : Type :=
  | JNull
  | JBool (b : bool)
  | JNum (q : Qc)
  | JStr (s : string)
  | JArr (items : list JsValue)
  | JObj (props : list (string * JsValue))
  | JFun (place : string)
  | JProto.

(** What the host runtime supplies and the repository does not define:
    number printing, the regular-expression engine and the built-in
    objects.  [RegExp_new p] is [None] when [new RegExp(p)] throws a
    SyntaxError, otherwise the [test] method of the compiled expression.
    [Array_prototype_names] are the property names of [Array.prototype],
    which depend on the version of the runtime.  [Function_get f k] is the
    read [f[k]] of a built-in function [f]: the value, [None] for
    [undefined], or the TypeError of the accessors [caller] and
    [arguments]. *)
Record Host : Type := mkHost {
  Number_toString : Qc -> string;
  RegExp_new : string -> option (string -> bool);
  Array_prototype_names : list string;
  Function_get : string -> string -> Outcome (option JsValue);
}.

Definition Qc_of_nat (n : nat) : Qc := Q2Qc (inject_Z (Z.of_nat n)).
Definition Qc_of_Z (z : Z) : Qc := Q2Qc (inject_Z z).

(** [Number.isInteger] on a finite number. *)
Definition Number_isInteger (q : Qc) : bool := Pos.eqb (Qden (this q)) 1.

(** [a % b !== 0].  A zero divisor gives NaN, which differs from 0. *)
Definition rem_nonzero (a b : Qc) : bool :=
  if bool_decide (b = Qc_of_Z 0) then true
  else negb (Number_isInteger (a / b)%Qc).

(** [Array.isArray(v) ? 'array' : typeof v] *)
Definition actualType (v : JsValue) : string :=
  match v with
  | JNull => "object"
  | JBool _ => "boolean"
  | JNum _ => "number"
  | JStr _ => "string"
  | JArr _ => "array"
  | JObj _ => "object"
  | JFun _ => "function"
  | JProto => "object"
  end.

Definition typeof (v : JsValue) : string :=
  match v with
  | JArr _ => "object"
  | _ => actualType v
  end.

Definition isArray (v : JsValue) : bool :=
  match v with JArr _ => true | _ => false end.

(** SameValueZero, as used by [Array.prototype.includes] and [Set].
    Arrays and objects compare by identity; a value parsed from the request
    is never the same object as one held elsewhere.  The built-in objects
    exist once. *)
Definition sameValueZero (a b : JsValue) : bool :=
  match a, b with
  | JNull, JNull => true
  | JBool x, JBool y => Bool.eqb x y
  | JNum x, JNum y => bool_decide (x = y)
  | JStr x, JStr y => String.eqb x y
  | JFun x, JFun y => String.eqb x y
  | JProto, JProto => true
  | _, _ => false
  end.

Definition includes (l : list JsValue) (v : JsValue) : bool :=
  existsb (sameValueZero v) l.

(** [new Set(arr).size]: elements are added left to right, an element is
    dropped when an equal one is already present. *)
Fixpoint Set_size_from (seen : list JsValue) (l : list JsValue) : nat :=
  match l with
  | [] => length seen
  | x :: rest =>
      if includes seen x then Set_size_from seen rest
      else Set_size_from (seen ++ [x]) rest
  end.
Definition Set_size (l : list JsValue) : nat := Set_size_from [] l.

Fixpoint join (sep : string) (l : list string) : string :=
  match l with
  | [] => EmptyString
  | [x] => x
  | x :: rest => x +:+ sep +:+ join sep rest
  end.

Section WithHost.
Context (host : Host).

(** The string each element contributes to [Array.prototype.join]:
    [null] prints as the empty string, a nested array joins with a comma. *)
Fixpoint join_item (v : JsValue) : string :=
  match v with
  | JNull => EmptyString
  | JBool true => "true"
  | JBool false => "false"
  | JNum q => Number_toString host q
  | JStr s => s
  | JArr l => join "," (map join_item l)
  | JObj _ => "[object Object]"
  | JFun place => "function " +:+ place +:+ "() { [native code] }"
  | JProto => "[object Object]"
  end.

Definition join_values (sep : string) (l : list JsValue) : string :=
  join sep (map join_item l).

End WithHost.

(** [k] is an own property of the object with the properties [props]. *)
Definition has_key {A} (k : string) (props : list (string * A)) : bool :=
  existsb (fun kv => String.eqb (fst kv) k) props.

(** The own property [k] of the object with the properties [props]. *)
Fixpoint get_key {A} (k : string) (props : list (string * A)) : option A :=
  match props with
  | [] => None
  | (k', v) :: rest => if String.eqb k' k then Some v else get_key k rest
  end.

(** The property names of [Object.prototype] (ECMAScript, with Annex B):
    every object parsed from JSON and every object literal inherits
    them. *)
Definition Object_prototype_names : list string :=
  ["constructor"; "__defineGetter__"; "__defineSetter__"; "hasOwnProperty";
   "__lookupGetter__"; "__lookupSetter__"; "isPrototypeOf";
   "propertyIsEnumerable"; "toString"; "valueOf"; "__proto__";
   "toLocaleString"].

(** [names.includes(name)] *)
Definition includes_name (names : list string) (name : string) : bool :=
  existsb (String.eqb name) names.

(** [k in obj], and [obj[k]], for what an object inherits from
    [Object.prototype] when it has no own property [k]: the accessor
    [__proto__] yields the prototype itself, every other name is a
    method. *)
Definition inherited (k : string) : bool :=
  includes_name Object_prototype_names k.

(** A read that reaches [Object.prototype]: the accessor [__proto__]
    yields the prototype of the object that is read, [receiver_proto];
    every other name is a method. *)
Definition Object_prototype_get (receiver_proto : JsValue) (k : string)
  : option JsValue :=
  if String.eqb k "__proto__" then Some receiver_proto
  else if inherited k then Some (JFun ("Object.prototype." +:+ k))
  else None.

Definition inherited_value (k : string) : option JsValue :=
  Object_prototype_get JProto k.

(** [if (v)] *)
Definition truthy (v : JsValue) : bool :=
  match v with
  | JNull => false
  | JBool b => b
  | JNum q => negb (bool_decide (q = Q2Qc 0))
  | JStr s => negb (String.eqb s EmptyString)
  | _ => true
  end.

(** Truthiness of optional fields. *)
Definition truthy_bool (b : option bool) : bool :=
  match b with Some true => true | _ => false end.
Definition truthy_string (s : option string) : bool :=
  match s with
  | Some EmptyString => false
  | Some _ => true
  | None => false
  end.

(** The lower-case mapping of the code units below 256: the letters [A]
    to [Z], and the accented capitals U+00C0 to U+00DE other than the
    multiplication sign U+00D7. *)
Definition lower_ascii (c : ascii) : ascii :=
  let n := nat_of_ascii c in
  if (Nat.leb 65 n && Nat.leb n 90)
     || (Nat.leb 192 n && Nat.leb n 222 && negb (Nat.eqb n 215))
  then ascii_of_nat (n + 32) else c.

Fixpoint toLowerCase (s : string) : string :=
  match s with
  | EmptyString => EmptyString
  | String c rest => String (lower_ascii c) (toLowerCase rest)
  end.

(* ===================================================================== *)
(** ** Schemas (src/types/openapi.ts) *)
(* ===================================================================== *)

(** The [Schema] interface.  Fields that only document the schema (format,
    title, description, default, example, xml, ...) are left out; every
    field that constrains a value is kept, including the sub-schema fields
    [items], [properties], [allOf], [oneOf], [anyOf], [not]. *)
Inductive Schema : Type := mkSchema {
  s_ref : option string;
  s_type : option string;
  s_multipleOf : option Qc;
  s_maximum : option Qc;
  s_exclusiveMaximum : option bool;
  s_minimum : option Qc;
  s_exclusiveMinimum : option bool;
  s_maxLength : option Qc;
  s_minLength : option Qc;
  s_pattern : option string;
  s_maxItems : option Qc;
  s_minItems : option Qc;
  s_uniqueItems : option bool;
  s_maxProperties : option Qc;
  s_minProperties : option Qc;
  s_required : option (list string);
  s_enum : option (list JsValue);
  s_allOf : option (list Schema);
  s_oneOf : option (list Schema);
  s_anyOf : option (list Schema);
  s_not : option Schema;
  s_items : option Schema;
  s_properties : option (list (string * Schema));
}.

(** The schema with no field set, [{}]. *)
Definition emptySchema : Schema :=
  mkSchema None None None None None None None None None None None None
           None None None None None None None None None None None.

Definition with_items (it : option Schema) (s : Schema) : Schema :=
  mkSchema (s_ref s) (s_type s) (s_multipleOf s) (s_maximum s)
    (s_exclusiveMaximum s) (s_minimum s) (s_exclusiveMinimum s)
    (s_maxLength s) (s_minLength s) (s_pattern s) (s_maxItems s)
    (s_minItems s) (s_uniqueItems s) (s_maxProperties s) (s_minProperties s)
    (s_required s) (s_enum s) (s_allOf s) (s_oneOf s) (s_anyOf s) (s_not s)
    it (s_properties s).

Definition with_properties (ps : option (list (string * Schema))) (s : Schema)
  : Schema :=
  mkSchema (s_ref s) (s_type s) (s_multipleOf s) (s_maximum s)
    (s_exclusiveMaximum s) (s_minimum s) (s_exclusiveMinimum s)
    (s_maxLength s) (s_minLength s) (s_pattern s) (s_maxItems s)
    (s_minItems s) (s_uniqueItems s) (s_maxProperties s) (s_minProperties s)
    (s_required s) (s_enum s) (s_allOf s) (s_oneOf s) (s_anyOf s) (s_not s)
    (s_items s) ps.

(* ===================================================================== *)
(** ** ValidateRequestTool.validateAgainstSchema
       (src/tools/validate-request.ts, lines 307-398) *)
(* ===================================================================== *)

Definition type_is (schema : Schema) (t : string) : bool :=
  match s_type schema with
  | Some t' => String.eqb t' t
  | None => false
  end.

(** [if (c) errors.push(m)] *)
Definition push_if (c : bool) (m : string) : list string :=
  if c then [m] else [].

(** [if (bound !== undefined && test(bound)) errors.push(msg(bound))] *)
Definition check_bound (bound : option Qc) (test : Qc -> bool)
    (msg : Qc -> string) : list string :=
  match bound with
  | Some b => push_if (test b) (msg b)
  | None => []
  end.

Definition Qc_ltb (a b : Qc) : bool := bool_decide (a < b)%Qc.
Definition Qc_leb (a b : Qc) : bool := bool_decide (a <= b)%Qc.

Section Validation.
Context (host : Host).

Definition show (q : Qc) : string := Number_toString host q.

(** Lines 310-316: basic type validation. *)
Definition check_type (value : JsValue) (schema : Schema) : list string :=
  if truthy_string (s_type schema) then
    match s_type schema with
    | Some t =>
        push_if (negb (String.eqb t (actualType value)))
          ("Expected type '" +:+ t +:+ "' but got '" +:+ actualType value
           +:+ "'")
    | None => []
    end
  else [].

(** Lines 326-331: the pattern check; [new RegExp] may throw. *)
Definition check_pattern (str : string) (schema : Schema)
  : Outcome (list string) :=
  if truthy_string (s_pattern schema) then
    match s_pattern schema with
    | Some p =>
        match RegExp_new host p with
        | Some test =>
            Ok (push_if (negb (test str))
                  ("String does not match pattern: " +:+ p))
        | None =>
            Throw (SyntaxError ("Invalid regular expression: /" +:+ p +:+ "/"))
        end
    | None => Ok []
    end
  else Ok [].

(** Lines 319-332: string validations. *)
Definition check_string (value : JsValue) (schema : Schema)
  : Outcome (list string) :=
  match value with
  | JStr str =>
      if type_is schema "string" then
        let len := Qc_of_nat (String.length str) in
        let e_min := check_bound (s_minLength schema) (fun m => Qc_ltb len m)
          (fun m => "String length is less than minimum " +:+ show m) in
        let e_max := check_bound (s_maxLength schema) (fun m => Qc_ltb m len)
          (fun m => "String length exceeds maximum " +:+ show m) in
        e_pat <- check_pattern str schema ;;
        Ok (e_min ++ e_max ++ e_pat)
      else Ok []
  | _ => Ok []
  end.

(** Lines 335-356: number validations. *)
Definition check_number (value : JsValue) (schema : Schema) : list string :=
  match value with
  | JNum v =>
      if type_is schema "number" || type_is schema "integer" then
        let e_int :=
          push_if (type_is schema "integer" && negb (Number_isInteger v))
            "Expected integer but got decimal number" in
        let e_min :=
          match s_minimum schema with
          | Some m =>
              if truthy_bool (s_exclusiveMinimum schema) then
                push_if (Qc_leb v m) ("Value must be greater than " +:+ show m)
              else
                push_if (Qc_ltb v m)
                  ("Value must be greater than or equal to " +:+ show m)
          | None => []
          end in
        let e_max :=
          match s_maximum schema with
          | Some m =>
              if truthy_bool (s_exclusiveMaximum schema) then
                push_if (Qc_leb m v) ("Value must be less than " +:+ show m)
              else
                push_if (Qc_ltb m v)
                  ("Value must be less than or equal to " +:+ show m)
          | None => []
          end in
        let e_mul :=
          check_bound (s_multipleOf schema) (fun m => rem_nonzero v m)
            (fun m => "Value must be a multiple of " +:+ show m) in
        e_int ++ e_min ++ e_max ++ e_mul
      else []
  | _ => []
  end.

(** Lines 359-369: array validations. *)
Definition check_array (value : JsValue) (schema : Schema) : list string :=
  match value with
  | JArr items =>
      if type_is schema "array" then
        let len := Qc_of_nat (length items) in
        let e_min := check_bound (s_minItems schema) (fun m => Qc_ltb len m)
          (fun m => "Array has fewer items than minimum " +:+ show m) in
        let e_max := check_bound (s_maxItems schema) (fun m => Qc_ltb m len)
          (fun m => "Array has more items than maximum " +:+ show m) in
        let e_uniq := push_if
          (truthy_bool (s_uniqueItems schema)
           && negb (Nat.eqb (Set_size items) (length items)))
          "Array items must be unique" in
        e_min ++ e_max ++ e_uniq
      else []
  | _ => []
  end.

(** Lines 372-374: enum validation.  Any array, even an empty one, is
    truthy. *)
Definition check_enum (value : JsValue) (schema : Schema) : list string :=
  match s_enum schema with
  | Some allowed =>
      push_if (negb (includes allowed value))
        ("Value must be one of: " +:+ join_values host ", " allowed)
  | None => []
  end.

(** [k in value] for an object that is not an array: an own property, or
    one inherited from [Object.prototype]. *)
Definition has_property (k : string) (value : JsValue) : bool :=
  match value with
  | JObj props => has_key k props || inherited k
  | JProto => inherited k
  | _ => false
  end.

(** [Object.keys(value)] for an object that is not an array; the
    properties of [Object.prototype] are not enumerable. *)
Definition Object_keys (value : JsValue) : list string :=
  match value with
  | JObj props => map fst props
  | _ => []
  end.

(** Lines 379-385: the loop over [schema.required]. *)
Definition check_required (value : JsValue) (required : list string)
  : list string :=
  flat_map (fun requiredProp =>
              push_if (negb (has_property requiredProp value))
                ("Missing required property: " +:+ requiredProp))
           required.

(** Lines 377-395: object validations.  The guard
    [typeof value === 'object' && !Array.isArray(value)] also lets
    [null] through, on which [in] and [Object.keys] throw a TypeError. *)
Definition check_object (value : JsValue) (schema : Schema)
  : Outcome (list string) :=
  if type_is schema "object" then
    match value with
    | JObj _ | JProto =>
        let e_req :=
          match s_required schema with
          | Some required => check_required value required
          | None => []
          end in
        let propCount := Qc_of_nat (length (Object_keys value)) in
        let e_min := check_bound (s_minProperties schema)
          (fun m => Qc_ltb propCount m)
          (fun m => "Object has fewer properties than minimum " +:+ show m) in
        let e_max := check_bound (s_maxProperties schema)
          (fun m => Qc_ltb m propCount)
          (fun m => "Object has more properties than maximum " +:+ show m) in
        Ok (e_req ++ e_min ++ e_max)
    | JNull =>
        match s_required schema with
        | Some (requiredProp :: _) =>
            Throw (TypeError ("Cannot use 'in' operator to search for '"
                              +:+ requiredProp +:+ "' in null"))
        | _ => Throw (TypeError "Cannot convert undefined or null to object")
        end
    | _ => Ok []
    end
  else Ok [].

Definition validateAgainstSchema (value : JsValue) (schema : Schema)
    (_fieldName : string) : Outcome (list string) :=
  let e_type := check_type value schema in
  e_string <- check_string value schema ;;
  let e_number := check_number value schema in
  let e_array := check_array value schema in
  let e_enum := check_enum value schema in
  e_object <- check_object value schema ;;
  Ok (e_type ++ e_string ++ e_number ++ e_array ++ e_enum ++ e_object).

End Validation.

(* ===================================================================== *)
(** ** The document (src/types/openapi.ts) *)
(* ===================================================================== *)

Inductive ParameterIn : Type := InQuery | InHeader | InPath | InCookie.

Definition ParameterIn_eqb (a b : ParameterIn) : bool :=
  match a, b with
  | InQuery, InQuery | InHeader, InHeader
  | InPath, InPath | InCookie, InCookie => true
  | _, _ => false
  end.

(** The [Parameter] interface ([Parameter] is reserved in Rocq). *)
Record ParameterObject : Type := mkParameter {
  p_name : string;
  p_in : ParameterIn;
  p_required : option bool;
  p_deprecated : option bool;
  p_allowEmptyValue : option bool;
  p_schema : option Schema;
}.

Record MediaType : Type := mkMediaType {
  mt_schema : option Schema;
}.

Record RequestBody : Type := mkRequestBody {
  rb_content : option (gmap string MediaType);
  rb_required : option bool;
}.

Record Operation : Type := mkOperation {
  op_parameters : option (list ParameterObject);
  op_requestBody : option RequestBody;
  op_deprecated : option bool;
}.

Record PathItem : Type := mkPathItem {
  pi_ref : option string;
  pi_summary : option string;
  pi_description : option string;
  pi_get : option Operation;
  pi_put : option Operation;
  pi_post : option Operation;
  pi_delete : option Operation;
  pi_options : option Operation;
  pi_head : option Operation;
  pi_patch : option Operation;
  pi_trace : option Operation;
  pi_servers : option (list string);
  pi_parameters : option (list ParameterObject);
}.

Record Info : Type := mkInfo {
  info_title : string;
  info_version : string;
}.

(** A document as parsed: [validateSpec] tests [openapi], [swagger], [info]
    and [paths] for presence, so they are optional here. *)
Record OpenAPISpec : Type := mkOpenAPISpec {
  openapi : option string;
  swagger : option string;
  info : option Info;
  paths : option (gmap string PathItem);
  schemas : gmap string Schema;
}.

(** A value that is not an [Operation] read through the [Operation]
    interface: none of the fields the tool reads is defined. *)
Definition notAnOperation : Operation := mkOperation None None None.

(** A value that is not a [PathItem] read through the [PathItem]
    interface. *)
Definition notAPathItem : PathItem :=
  mkPathItem None None None None None None None None None None None None None.

(** [pathItem[key] as Operation | undefined], with the falsy results
    ([undefined], the empty string) as [None].  Keys that name another
    field of the path item, or a property that the path item inherits from
    [Object.prototype], yield a value without operation fields. *)
Definition pathItem_get (pathItem : PathItem) (key : string)
  : option Operation :=
  let as_string (f : option string) :=
    if truthy_string f then Some notAnOperation else None in
  if String.eqb key "get" then pi_get pathItem
  else if String.eqb key "put" then pi_put pathItem
  else if String.eqb key "post" then pi_post pathItem
  else if String.eqb key "delete" then pi_delete pathItem
  else if String.eqb key "options" then pi_options pathItem
  else if String.eqb key "head" then pi_head pathItem
  else if String.eqb key "patch" then pi_patch pathItem
  else if String.eqb key "trace" then pi_trace pathItem
  else if String.eqb key "$ref" then as_string (pi_ref pathItem)
  else if String.eqb key "summary" then as_string (pi_summary pathItem)
  else if String.eqb key "description" then as_string (pi_description pathItem)
  else if String.eqb key "servers" then
    match pi_servers pathItem with
    | Some _ => Some notAnOperation
    | None => None
    end
  else if String.eqb key "parameters" then
    match pi_parameters pathItem with
    | Some _ => Some notAnOperation
    | None => None
    end
  else if inherited key then Some notAnOperation
  else None.

(* ===================================================================== *)
(** ** ValidateRequestTool (src/tools/validate-request.ts) *)
(* ===================================================================== *)

Record ValidateRequestArgs : Type := mkArgs {
  a_path : option string;
  a_method : option string;
  a_params : option (gmap string JsValue);
  a_headers : option (list (string * JsValue));
  a_body : option JsValue;
}.

Record ValidationError : Type := mkValidationError {
  location : string;
  field : string;
  message : string;
}.

Record ValidationResult : Type := mkResult {
  valid : bool;
  errors : list ValidationError;
  warnings : list string;
}.

(** [result.errors.push(e)] *)
Definition push_error (e : ValidationError) (result : ValidationResult)
  : ValidationResult :=
  mkResult (valid result) (errors result ++ [e]) (warnings result).

(** [validationErrors.forEach(error => result.errors.push({...}))] *)
Definition push_errors (loc fld : string) (msgs : list string)
    (result : ValidationResult) : ValidationResult :=
  mkResult (valid result)
           (errors result ++ map (mkValidationError loc fld) msgs)
           (warnings result).

(** [result.warnings.push(w)] *)
Definition push_warning (w : string) (result : ValidationResult)
  : ValidationResult :=
  mkResult (valid result) (errors result) (warnings result ++ [w]).

Definition when {A} (c : bool) (f : A -> A) (a : A) : A :=
  if c then f a else a.

(** [for (const x of xs) body(x)] over a state that a throw abandons. *)
Fixpoint for_each {A S} (body : A -> S -> Outcome S) (xs : list A) (st : S)
  : Outcome S :=
  match xs with
  | [] => Ok st
  | x :: rest => st' <- body x st ;; for_each body rest st'
  end.

(** BaseTool.validateArgs (src/tools/base-tool.ts); [args] is an object,
    and [field in args] also holds for what it inherits. *)
Definition has_field (args : ValidateRequestArgs) (fld : string) : bool :=
  if String.eqb fld "path" then bool_decide (is_Some (a_path args))
  else if String.eqb fld "method" then bool_decide (is_Some (a_method args))
  else if String.eqb fld "params" then bool_decide (is_Some (a_params args))
  else if String.eqb fld "headers" then bool_decide (is_Some (a_headers args))
  else if String.eqb fld "body" then bool_decide (is_Some (a_body args))
  else inherited fld.

Definition validateArgs (args : ValidateRequestArgs) (required : list string)
  : Outcome unit :=
  for_each (fun fld (_ : unit) =>
              if has_field args fld then Ok tt
              else Throw (Error ("Missing required field: " +:+ fld)))
           required tt.

(** JavaScript [String.prototype.split] on a one-character separator. *)
Fixpoint split (sep : ascii) (s : string) : list string :=
  match s with
  | EmptyString => [EmptyString]
  | String c rest =>
      if Ascii.eqb c sep then EmptyString :: split sep rest
      else match split sep rest with
           | h :: t => String c h :: t
           | [] => [String c EmptyString]
           end
  end.

(** [s.substring(n)] *)
Fixpoint substring_from (n : nat) (s : string) : string :=
  match n, s with
  | O, _ => s
  | S n', String _ rest => substring_from n' rest
  | S _, EmptyString => EmptyString
  end.

(** [providedParams[name]] for an object parsed from JSON: its own
    property, or what it inherits from [Object.prototype]. *)
Definition get_param (name : string) (providedParams : gmap string JsValue)
  : option JsValue :=
  match providedParams !! name with
  | Some value => Some value
  | None => inherited_value name
  end.

(** [name in providedParams] *)
Definition in_params (name : string) (providedParams : gmap string JsValue)
  : bool := bool_decide (is_Some (get_param name providedParams)).

(** An object literal that the code fills by assignment: its own
    properties and its prototype, which is [Object.prototype] ([JProto])
    until an assignment replaces it, and [None] once it is [null]. *)
Record JsObject : Type := mkObject {
  o_own : gmap string JsValue;
  o_proto : option JsValue;
}.

(** [{}] *)
Definition emptyObject : JsObject := mkObject ∅ (Some JProto).

(** The position that the string [k] names in an array of [n] elements. *)
Definition index_of (k : string) (n : nat) : option nat :=
  List.find
    (fun i => String.eqb k (DecimalString.NilZero.string_of_uint (Nat.to_uint i)))
    (seq 0 n).

(** An object on the prototype chain holds a data property [__proto__] of
    its own, which hides the accessor of [Object.prototype]. *)
Definition own_proto_property (p : JsValue) : bool :=
  match p with
  | JObj props => has_key "__proto__" props
  | _ => false
  end.

(** [o[k] = v] on an object literal.  The name [__proto__] reaches the
    setter of [Object.prototype] unless a data property of that name is
    found first: the setter replaces the prototype by an object or by
    [null] and ignores every other value. *)
Definition object_set (k : string) (v : JsValue) (o : JsObject) : JsObject :=
  if String.eqb k "__proto__"
     && negb (bool_decide (is_Some (o_own o !! k)))
     && match o_proto o with
        | Some p => negb (own_proto_property p)
        | None => false
        end
  then
    match v with
    | JObj _ | JArr _ | JFun _ | JProto => mkObject (o_own o) (Some v)
    | JNull => mkObject (o_own o) None
    | _ => o
    end
  else mkObject (<[k := v]> (o_own o)) (o_proto o).

Section Objects.
Context (host : Host).

(** The read of [k] that finds no own property on the object read and goes
    on to its prototype [v]: the own properties of [v], then what [v]
    inherits.  [receiver_proto] is the prototype of the object read. *)
Definition chain_get (receiver_proto : JsValue) (k : string) (v : JsValue)
  : Outcome (option JsValue) :=
  match v with
  | JObj props =>
      match get_key k props with
      | Some x => Ok (Some x)
      | None => Ok (Object_prototype_get receiver_proto k)
      end
  | JArr items =>
      match index_of k (length items) with
      | Some i => Ok (nth_error items i)
      | None =>
          if String.eqb k "length" then
            Ok (Some (JNum (Qc_of_nat (length items))))
          else if includes_name (Array_prototype_names host) k then
            Ok (Some (JFun ("Array.prototype." +:+ k)))
          else Ok (Object_prototype_get receiver_proto k)
      end
  | JFun f =>
      if String.eqb k "__proto__" then Ok (Some receiver_proto)
      else Function_get host f k
  | JProto => Ok (Object_prototype_get receiver_proto k)
  | _ => Ok None
  end.

(** [o[k]] *)
Definition object_get (k : string) (o : JsObject) : Outcome (option JsValue) :=
  match o_own o !! k with
  | Some v => Ok (Some v)
  | None =>
      match o_proto o with
      | Some p => chain_get p k p
      | None => Ok None
      end
  end.

(** [k in o].  No property of these objects holds [undefined], so the
    read decides it; a read that throws is the read of an accessor, which
    is a property. *)
Definition object_has (k : string) (o : JsObject) : bool :=
  match object_get k o with
  | Ok None => false
  | _ => true
  end.

End Objects.

Section Tool.
Context (host : Host).
(** The property walk [current = current[segment]] of [resolveRef] over the
    document tree, read back [as Schema]; [None] when a segment is missing
    or the value reached is falsy. *)
Context (walk : OpenAPISpec -> list string -> option Schema).

(** The part shared by the three parameter loops: validate the provided
    value against the parameter's schema and note a deprecation. *)
Definition check_provided (loc : string) (deprecation : string)
    (param : ParameterObject) (value : JsValue) (result : ValidationResult)
  : Outcome ValidationResult :=
  result1 <-
    match p_schema param with
    | Some schema =>
        validationErrors <-
          validateAgainstSchema host value schema (p_name param) ;;
        Ok (push_errors loc (p_name param) validationErrors result)
    | None => Ok result
    end ;;
  Ok (when (truthy_bool (p_deprecated param)) (push_warning deprecation)
        result1).

(** Lines 132-163, one iteration. *)
Definition validatePathParameter (providedParams : gmap string JsValue)
    (param : ParameterObject) (result : ValidationResult)
  : Outcome ValidationResult :=
  let name := p_name param in
  let result1 :=
    when (negb (bool_decide (p_required param = Some false))
          && negb (in_params name providedParams))
      (push_error (mkValidationError "path" name
         ("Required path parameter '" +:+ name +:+ "' is missing")))
      result in
  match get_param name providedParams with
  | Some value =>
      check_provided "path"
        ("Path parameter '" +:+ name +:+ "' is deprecated")
        param value result1
  | None => Ok result1
  end.

Definition validatePathParameters (parameters : list ParameterObject)
    (providedParams : gmap string JsValue) (_path : string)
    (result : ValidationResult) : Outcome ValidationResult :=
  for_each (validatePathParameter providedParams) parameters result.

(** Lines 171-209, one iteration. *)
Definition validateQueryParameter (providedParams : gmap string JsValue)
    (param : ParameterObject) (result : ValidationResult)
  : Outcome ValidationResult :=
  let name := p_name param in
  let result1 :=
    when (truthy_bool (p_required param)
          && negb (in_params name providedParams))
      (push_error (mkValidationError "query" name
         ("Required query parameter '" +:+ name +:+ "' is missing")))
      result in
  match get_param name providedParams with
  | Some value =>
      result2 <- check_provided "query"
        ("Query parameter '" +:+ name +:+ "' is deprecated")
        param value result1 ;;
      Ok (when (negb (truthy_bool (p_allowEmptyValue param))
                && match value with JStr EmptyString => true | _ => false end)
            (push_error (mkValidationError "query" name
               ("Query parameter '" +:+ name +:+ "' cannot be empty")))
            result2)
  | None => Ok result1
  end.

Definition validateQueryParameters (parameters : list ParameterObject)
    (providedParams : gmap string JsValue) (result : ValidationResult)
  : Outcome ValidationResult :=
  for_each (validateQueryParameter providedParams) parameters result.

(** Lines 219-222: the [reduce] that rebuilds the headers under lower-cased
    keys, visiting [Object.keys(providedHeaders)] in order:
    [acc[key.toLowerCase()] = providedHeaders[key]] on the accumulator
    [{}]. *)
Definition lower_step (providedHeaders : list (string * JsValue))
    (acc : JsObject) (key : string) : JsObject :=
  match get_key key providedHeaders with
  | Some v => object_set (toLowerCase key) v acc
  | None => acc
  end.

Definition providedHeadersLower (providedHeaders : list (string * JsValue))
  : JsObject :=
  fold_left (lower_step providedHeaders) (map fst providedHeaders) emptyObject.

(** Lines 217-252, one iteration. *)
Definition validateHeaderParameter (providedHeaders : list (string * JsValue))
    (param : ParameterObject) (result : ValidationResult)
  : Outcome ValidationResult :=
  let headerName := toLowerCase (p_name param) in
  let lowered := providedHeadersLower providedHeaders in
  let result1 :=
    when (truthy_bool (p_required param)
          && negb (object_has host headerName lowered))
      (push_error (mkValidationError "header" (p_name param)
         ("Required header '" +:+ p_name param +:+ "' is missing")))
      result in
  read <- object_get host headerName lowered ;;
  match read with
  | Some value =>
      check_provided "header"
        ("Header '" +:+ p_name param +:+ "' is deprecated")
        param value result1
  | None => Ok result1
  end.

Definition validateHeaderParameters (parameters : list ParameterObject)
    (providedHeaders : list (string * JsValue)) (result : ValidationResult)
  : Outcome ValidationResult :=
  for_each (validateHeaderParameter providedHeaders) parameters result.

(** Lines 400-417. *)
Definition resolveRef (ref : string) (spec : OpenAPISpec) : option Schema :=
  if String.prefix "#/" ref then
    walk spec (split "/"%char (substring_from 2 ref))
  else None.

Definition nullish (v : option JsValue) : bool :=
  match v with
  | None | Some JNull => true
  | Some _ => false
  end.

(** Lines 255-305. *)
Definition validateRequestBody (requestBody : RequestBody)
    (providedBody : option JsValue) (spec : OpenAPISpec)
    (result : ValidationResult) : Outcome ValidationResult :=
  if truthy_bool (rb_required requestBody) && nullish providedBody then
    Ok (push_error (mkValidationError "body" "body"
          "Request body is required but not provided") result)
  else
    match providedBody with
    | None | Some JNull => Ok result
    | Some body =>
        match rb_content requestBody with
        | None => Ok result
        | Some content =>
            match content !! "application/json" with
            | None => Ok result
            | Some jsonContent =>
                match mt_schema jsonContent with
                | None => Ok result
                | Some declared =>
                    let validate schema :=
                      validationErrors <-
                        validateAgainstSchema host body schema "body" ;;
                      Ok (push_errors "body" "body" validationErrors result) in
                    if truthy_string (s_ref declared) then
                      match s_ref declared with
                      | Some ref =>
                          match resolveRef ref spec with
                          | Some schema => validate schema
                          | None =>
                              Ok (push_warning
                                    ("Could not resolve schema reference: "
                                     +:+ ref) result)
                          end
                      | None => validate declared
                      end
                    else validate declared
                end
            end
        end
    end.

Definition or_empty {A} (l : option (list A)) : list A :=
  match l with Some l => l | None => [] end.

Definition param_in (loc : ParameterIn) (p : ParameterObject) : bool :=
  ParameterIn_eqb (p_in p) loc.

(** Lines 104-108: the request body, or the warning about a body that the
    operation does not expect. *)
Definition validateBody (operation : Operation) (body : option JsValue)
    (spec : OpenAPISpec) (result : ValidationResult)
  : Outcome ValidationResult :=
  match op_requestBody operation with
  | Some requestBody => validateRequestBody requestBody body spec result
  | None =>
      Ok (when (negb (nullish body))
            (push_warning
               "Request body provided but not expected for this endpoint")
            result)
  end.

(** Lines 86-89. *)
Definition allParameters (pathItem : PathItem) (operation : Operation)
  : list ParameterObject :=
  or_empty (pi_parameters pathItem) ++ or_empty (op_parameters operation).

(** Lines 79-117: the checks, once the operation is found. *)
Definition validateOperation (spec : OpenAPISpec) (path : string)
    (pathItem : PathItem) (operation : Operation)
    (params : gmap string JsValue) (headers : list (string * JsValue))
    (body : option JsValue) : Outcome ValidationResult :=
  let result := mkResult true [] [] in
  let allParameters := allParameters pathItem operation in
  let pathParams := List.filter (param_in InPath) allParameters in
  result <- validatePathParameters pathParams params path result ;;
  let queryParams := List.filter (param_in InQuery) allParameters in
  result <- validateQueryParameters queryParams params result ;;
  let headerParams := List.filter (param_in InHeader) allParameters in
  result <- validateHeaderParameters headerParams headers result ;;
  result <- validateBody operation body spec result ;;
  let result :=
    when (truthy_bool (op_deprecated operation))
      (push_warning "This endpoint is deprecated") result in
  Ok (mkResult (Nat.eqb (length (errors result)) 0)
               (errors result) (warnings result)).

(** [spec.paths[path]] for a path that is not a key of [paths]: what the
    object inherits from [Object.prototype], and the prototype of that
    value. *)
Definition inherited_item (path : string) : option (JsValue * JsValue) :=
  match inherited_value path with
  | Some JProto => Some (JProto, JNull)
  | Some item => Some (item, JFun "Function.prototype")
  | None => None
  end.

(** Lines 66-77: the path item and the operation, or the error thrown
    when one of them is falsy.  A path item that is not declared but
    inherited is a built-in object; a truthy value read from it under the
    method has, like the object itself, none of the properties
    [parameters], [requestBody] and [deprecated]. *)
Definition lookup (all_paths : gmap string PathItem) (path method : string)
  : Outcome (PathItem * Operation) :=
  let methodLower := toLowerCase method in
  let methodNotFound :=
    Error ("Method " +:+ method +:+ " not found for path " +:+ path) in
  match all_paths !! path with
  | Some pathItem =>
      match pathItem_get pathItem methodLower with
      | Some operation => Ok (pathItem, operation)
      | None => Throw methodNotFound
      end
  | None =>
      match inherited_item path with
      | Some (item, item_proto) =>
          read <- chain_get host item_proto methodLower item ;;
          match read with
          | Some operation =>
              if truthy operation then Ok (notAPathItem, notAnOperation)
              else Throw methodNotFound
          | None => Throw methodNotFound
          end
      | None => Throw (Error ("Path not found: " +:+ path))
      end
  end.

(** Lines 58-118. *)
Definition execute (args : ValidateRequestArgs) (spec : option OpenAPISpec)
  : Outcome ValidationResult :=
  match spec with
  | None => Throw (Error "No OpenAPI specification loaded")
  | Some spec =>
      _ <- validateArgs args ["path"; "method"] ;;
      match a_path args, a_method args with
      | Some path, Some method =>
          let params := default ∅ (a_params args) in
          let headers := default [] (a_headers args) in
          let body := a_body args in
          match paths spec with
          | None => Throw (TypeError "Cannot read properties of undefined")
          | Some all_paths =>
              found <- lookup all_paths path method ;;
              validateOperation spec path (fst found) (snd found)
                params headers body
          end
      | _, _ => Throw (Error "Invalid arguments provided")
      end
  end.

End Tool.

(* ===================================================================== *)
(** ** The in-memory tier: [LRUCache] as configured at
       src/core/cache-manager.ts, lines 34-43 *)
(* ===================================================================== *)

(** Milliseconds, as read from [Date.now()]. *)
Definition Time := Z.

Record CacheEntry : Type := mkCacheEntry {
  spec : OpenAPISpec;
  etag : option string;
  lastModified : option string;
  timestamp : Time;
  url : string;
}.

(** The package [lru-cache] is not part of the repository.  The model keeps
    what the options used by the constructor call select: a byte budget
    [maxSize] with [sizeCalculation], a [ttl], and [updateAgeOnGet].
    Slots are listed from least to most recently used. *)
Record Slot : Type := mkSlot {
  slot_key : string;
  slot_value : CacheEntry;
  slot_start : Time;
  slot_size : Z;
}.

Record LRUCache : Type := mkLRU {
  lru_maxSize : Z;
  lru_ttl : Z;
  lru_slots : list Slot;
}.

Definition key_is (k : string) (s : Slot) : bool := String.eqb (slot_key s) k.

Definition lru_find (k : string) (c : LRUCache) : option Slot :=
  List.find (key_is k) (lru_slots c).

Definition without (k : string) (slots : list Slot) : list Slot :=
  List.filter (fun s => negb (key_is k s)) slots.

Definition lru_delete (k : string) (c : LRUCache) : LRUCache :=
  mkLRU (lru_maxSize c) (lru_ttl c) (without k (lru_slots c)).

Definition lru_clear (c : LRUCache) : LRUCache :=
  mkLRU (lru_maxSize c) (lru_ttl c) [].

Definition calculatedSize (slots : list Slot) : Z :=
  fold_right (fun s acc => slot_size s + acc) 0 slots.

(** Evict least recently used slots until the rest fits the budget. *)
Fixpoint evict (budget : Z) (slots : list Slot) : list Slot :=
  match slots with
  | [] => []
  | s :: rest =>
      if budget <? calculatedSize slots then evict budget rest else slots
  end.

Definition lru_isStale (now : Time) (c : LRUCache) (s : Slot) : bool :=
  negb (lru_ttl c =? 0) && (lru_ttl c <? now - slot_start s).

(** [cache.get(k)] with [updateAgeOnGet: true]: a stale slot is dropped and
    reads as [undefined]; a live one becomes the most recently used and
    its age restarts. *)
Definition lru_get (now : Time) (k : string) (c : LRUCache)
  : option CacheEntry * LRUCache :=
  match lru_find k c with
  | None => (None, c)
  | Some s =>
      if lru_isStale now c s then (None, lru_delete k c)
      else (Some (slot_value s),
            mkLRU (lru_maxSize c) (lru_ttl c)
              (without k (lru_slots c)
               ++ [mkSlot k (slot_value s) now (slot_size s)]))
  end.

Section MemoryTier.
(** [sizeCalculation]: [JSON.stringify(value).length]. *)
Context (sizeCalculation : CacheEntry -> Z).

(** [cache.set(k, v)]: a value larger than the whole budget is not stored
    (and displaces the slot already under [k]); otherwise older slots make
    room. *)
Definition lru_set (now : Time) (k : string) (v : CacheEntry) (c : LRUCache)
  : LRUCache :=
  let size := sizeCalculation v in
  if negb (lru_maxSize c =? 0) && (lru_maxSize c <? size) then lru_delete k c
  else
    let others := without k (lru_slots c) in
    let kept :=
      if lru_maxSize c =? 0 then others
      else evict (lru_maxSize c - size) others in
    mkLRU (lru_maxSize c) (lru_ttl c) (kept ++ [mkSlot k v now size]).

End MemoryTier.

(* ===================================================================== *)
(** ** CacheManager (src/core/cache-manager.ts) *)
(* ===================================================================== *)

(** A file of the cache directory: either it gunzips and parses to an
    entry, or reading it fails. *)
Inductive DiskFile : Type :=
  | Readable (entry : CacheEntry)
  | Corrupt.

Record CacheManager : Type := mkCacheManager {
  memoryCache : LRUCache;
  cacheDir : string;
  ttl : Z;
  files : gmap string DiskFile;
}.

Definition set_memory (m : LRUCache) (cm : CacheManager) : CacheManager :=
  mkCacheManager m (cacheDir cm) (ttl cm) (files cm).

Definition set_files (f : gmap string DiskFile) (cm : CacheManager)
  : CacheManager :=
  mkCacheManager (memoryCache cm) (cacheDir cm) (ttl cm) f.

(** [now - entry.timestamp < this.ttl] *)
Definition fresh (cm : CacheManager) (now : Time) (e : CacheEntry) : bool :=
  now - timestamp e <? ttl cm.

Section Cache.
Context (sizeCalculation : CacheEntry -> Z).
(** [crypto.createHash('sha256').update(url).digest('hex')] *)
Context (sha256_hex : string -> string).

(** Lines 26-47, for an absolute [cacheDir]; [ttl] in seconds, [maxSize] in
    megabytes, over the files found in the directory. *)
Definition CacheManager_new (dir : string) (ttl_s maxSize_mb : Z)
    (found : gmap string DiskFile) : CacheManager :=
  mkCacheManager (mkLRU (maxSize_mb * 1024 * 1024) (ttl_s * 1000) [])
                 dir (ttl_s * 1000) found.

Definition getCacheKey (u : string) : string := sha256_hex u.

Definition getDiskCachePath (cm : CacheManager) (u : string) : string :=
  cacheDir cm +:+ "/" +:+ getCacheKey u +:+ ".json.gz".

(** Lines 76-100: the durable tier. *)
Definition get_disk (now : Time) (u : string) (cm : CacheManager)
  : option CacheEntry * CacheManager :=
  let diskPath := getDiskCachePath cm u in
  match files cm !! diskPath with
  | Some (Readable entry) =>
      if fresh cm now entry then
        (Some entry,
         set_memory (lru_set sizeCalculation now u entry (memoryCache cm)) cm)
      else (None, set_files (delete diskPath (files cm)) cm)
  | Some Corrupt => (None, set_files (delete diskPath (files cm)) cm)
  | None => (None, cm)
  end.

(** Lines 64-101. *)
Definition get (now : Time) (u : string) (cm : CacheManager)
  : option CacheEntry * CacheManager :=
  match lru_get now u (memoryCache cm) with
  | (Some memoryEntry, memory') =>
      if fresh cm now memoryEntry then (Some memoryEntry, set_memory memory' cm)
      else get_disk now u (set_memory (lru_delete u memory') cm)
  | (None, memory') => get_disk now u (set_memory memory' cm)
  end.

(** Lines 103-124; [written] tells whether compressing and writing the
    file went through.  A document is a finite tree, so the
    [JSON.stringify] of [sizeCalculation] returns; a document that
    dereferencing has made cyclic, on which it throws before anything is
    stored, is not a value of the document type. *)
Definition set (now : Time) (written : bool) (u : string) (doc : OpenAPISpec)
    (tag modified : option string) (cm : CacheManager) : CacheManager :=
  let entry := mkCacheEntry doc tag modified now u in
  let cm1 :=
    set_memory (lru_set sizeCalculation now u entry (memoryCache cm)) cm in
  if written then
    set_files (<[getDiskCachePath cm u := Readable entry]> (files cm1)) cm1
  else cm1.

(** Lines 126-135. *)
Definition invalidate (u : string) (cm : CacheManager) : CacheManager :=
  let cm1 := set_memory (lru_delete u (memoryCache cm)) cm in
  set_files (delete (getDiskCachePath cm u) (files cm1)) cm1.

Definition ends_with (suffix s : string) : bool :=
  String.eqb (substring_from (String.length s - String.length suffix) s) suffix.

(** Lines 137-148. *)
Definition clear (cm : CacheManager) : CacheManager :=
  let cm1 := set_memory (lru_clear (memoryCache cm)) cm in
  set_files
    (filter (fun kv => ends_with ".json.gz" (fst kv) = false) (files cm1))
    cm1.

(** Lines 150-158. *)
Definition getEtag (now : Time) (u : string) (cm : CacheManager)
  : option string * CacheManager :=
  let (entry, memory') := lru_get now u (memoryCache cm) in
  (entry ≫= etag, set_memory memory' cm).

Definition getLastModified (now : Time) (u : string) (cm : CacheManager)
  : option string * CacheManager :=
  let (entry, memory') := lru_get now u (memoryCache cm) in
  (entry ≫= lastModified, set_memory memory' cm).

End Cache.

(* ===================================================================== *)
(** ** OpenAPIClient (src/core/openapi-client.ts) *)
(* ===================================================================== *)

Inductive ResponseData : Type :=
  | DataObject (doc : OpenAPISpec)   (* already parsed by axios *)
  | DataString (text : string).

Record AxiosResponse : Type := mkResponse {
  status : Z;
  headers : gmap string string;
  data : ResponseData;
}.

(** What the network does with one request: a response with some status,
    or no response at all (refused, reset, timed out). *)
Inductive NetReply : Type :=
  | Replied (response : AxiosResponse)
  | NoReply (reason : string).

(** A status code in decimal. *)
Definition status_toString (st : Z) : string :=
  DecimalString.NilZero.string_of_int (Z.to_int st).

(** [axios.get]: the promise resolves when [validateStatus] accepts the
    status and rejects with [error.response] set otherwise; without a
    response it rejects with no [error.response]. *)
Definition axios_get (validateStatus : Z -> bool) (reply : NetReply)
  : Outcome AxiosResponse :=
  match reply with
  | Replied response =>
      if validateStatus (status response) then Ok response
      else Throw (AxiosError (Some (status response))
                    ("Request failed with status code "
                     +:+ status_toString (status response)))
  | NoReply reason => Throw (AxiosError None reason)
  end.

(** Line 57. *)
Definition fetchSpec_validateStatus (st : Z) : bool :=
  (st <? 400) || (st =? 304).

(** The default of axios, used by the reader at lines 159-165. *)
Definition default_validateStatus (st : Z) : bool :=
  (200 <=? st) && (st <? 300).

(** Line 109: [error.response && status >= 400 && status < 500] *)
Definition is_client_error (e : JsError) : bool :=
  match e with
  | AxiosError (Some st) _ => (400 <=? st) && (st <? 500)
  | _ => false
  end.

(** What a run of [fetchWithRetry] does, in order. *)
Inductive Event : Type :=
  | Request (attempt : nat)
  | Delay (ms : Z).

Record OpenAPIClient : Type := mkClient {
  requestTimeout : Z;
  retryAttempts : nat;
  retryDelay : Z;
}.

Section Retry.
Context (client : OpenAPIClient).
(** The reply the network gives to the request of each attempt. *)
Context (network : nat -> NetReply).
Context (validateStatus : Z -> bool).

(** Lines 102-119: the loop, with [remaining = retryAttempts - attempt]
    iterations to go. *)
Fixpoint retry_loop (remaining attempt : nat) (lastError : JsError)
  : Outcome AxiosResponse * list Event :=
  match remaining with
  | O => (Throw lastError, [])
  | S remaining' =>
      match axios_get validateStatus (network attempt) with
      | Ok response => (Ok response, [Request attempt])
      | Throw error =>
          if is_client_error error then (Throw error, [Request attempt])
          else
            let wait :=
              if (S attempt <? retryAttempts client)%nat
              then [Delay (retryDelay client * 2 ^ Z.of_nat attempt)]
              else [] in
            let (result, later) := retry_loop remaining' (S attempt) error in
            (result, Request attempt :: wait ++ later)
      end
  end.

(** Lines 96-122. *)
Definition fetchWithRetry : Outcome AxiosResponse * list Event :=
  retry_loop (retryAttempts client) 0 Undefined.

End Retry.

Definition requests (trace : list Event) : list nat :=
  flat_map (fun ev => match ev with Request n => [n] | Delay _ => [] end) trace.

Definition delays (trace : list Event) : list Z :=
  flat_map (fun ev => match ev with Delay ms => [ms] | Request _ => [] end)
    trace.

(** [hay.includes(needle)] *)
Fixpoint str_includes (needle hay : string) : bool :=
  String.prefix needle hay ||
  match hay with
  | EmptyString => false
  | String _ rest => str_includes needle rest
  end.

(** White space and line terminators among the code units below 256. *)
Definition is_space (c : ascii) : bool :=
  let n := nat_of_ascii c in
  (Nat.leb 9 n && Nat.leb n 13) || Nat.eqb n 32 || Nat.eqb n 160.

Fixpoint trimStart (s : string) : string :=
  match s with
  | String c rest => if is_space c then trimStart rest else s
  | EmptyString => EmptyString
  end.

Fixpoint trimEnd (s : string) : string :=
  match s with
  | EmptyString => EmptyString
  | String c rest =>
      match trimEnd rest with
      | EmptyString => if is_space c then EmptyString else String c EmptyString
      | rest' => String c rest'
      end
  end.

Definition trim (s : string) : string := trimEnd (trimStart s).

(** The parsers and the reference resolver are packages outside the
    repository: [JSON.parse], [yaml.parse] and [$RefParser.dereference]. *)
Record Parsers : Type := mkParsers {
  JSON_parse : string -> Outcome OpenAPISpec;
  YAML_parse : string -> Outcome OpenAPISpec;
  dereference : OpenAPISpec -> Outcome OpenAPISpec;
}.

Section Client.
Context (sizeCalculation : CacheEntry -> Z).
Context (sha256_hex : string -> string).
Context (parsers : Parsers).
Context (client : OpenAPIClient).

(** Lines 128-151. *)
Definition parseResponse (response : AxiosResponse) : Outcome OpenAPISpec :=
  let contentType := default EmptyString (headers response !! "content-type") in
  match data response with
  | DataObject doc => Ok doc
  | DataString text =>
      if str_includes "yaml" contentType || str_includes "yml" contentType then
        YAML_parse parsers text
      else if str_includes "json" contentType then JSON_parse parsers text
      else
        let trimmed := trim text in
        if String.prefix "{" trimmed || String.prefix "[" trimmed
        then JSON_parse parsers trimmed
        else YAML_parse parsers trimmed
  end.

(** Lines 153-176: whatever the resolver does, a failure falls back to the
    document as it was parsed. *)
Definition resolveReferences (doc : OpenAPISpec) (_baseUrl : string)
  : OpenAPISpec :=
  match dereference parsers doc with
  | Ok resolved => resolved
  | Throw _ => doc
  end.

(** Lines 178-205; the document is returned because a Swagger 2 document
    gets its [openapi] field assigned. *)
Definition validateSpec (doc : OpenAPISpec) : Outcome OpenAPISpec :=
  if negb (truthy_string (openapi doc) || truthy_string (swagger doc)) then
    Throw (Error "Invalid spec: missing version field (openapi or swagger)")
  else
    doc1 <-
      (if truthy_string (swagger doc) then
         let sw := default EmptyString (swagger doc) in
         if negb (String.prefix "2." sw) then
           Throw (Error ("Unsupported Swagger version: " +:+ sw +:+
             ". Only Swagger 2.x and OpenAPI 3.x are supported."))
         else Ok (mkOpenAPISpec (Some "3.0.0") (swagger doc) (info doc)
                    (paths doc) (schemas doc))
       else
         let v := default EmptyString (openapi doc) in
         if negb (String.prefix "3." v) then
           Throw (Error ("Unsupported OpenAPI version: " +:+ v +:+
             ". Only OpenAPI 3.x is supported."))
         else Ok doc) ;;
    match info doc1 with
    | None => Throw (Error "Invalid spec: missing info object")
    | Some _ => Ok doc1
    end.

(** Lines 84-93: the [catch] block of [fetchSpec]. *)
Definition fetchSpec_catch (now : Time) (u : string) (error : JsError)
    (cm : CacheManager) : Outcome OpenAPISpec * CacheManager :=
  match get sizeCalculation sha256_hex now u cm with
  | (Some cached, cm') => (Ok (spec cached), cm')
  | (None, cm') =>
      (Throw (Error ("Failed to fetch OpenAPI spec: "
                     +:+ error_toString error)),
       cm')
  end.

(** Lines 69-83: parse, resolve, validate, store. *)
Definition fetchSpec_store (now : Time) (written : bool) (u : string)
    (response : AxiosResponse) (cm : CacheManager)
  : Outcome OpenAPISpec * CacheManager :=
  match (doc <- parseResponse response ;;
         validateSpec (resolveReferences doc u)) with
  | Ok resolvedSpec =>
      (Ok resolvedSpec,
       set sizeCalculation sha256_hex now written u resolvedSpec
         (headers response !! "etag") (headers response !! "last-modified") cm)
  | Throw error => fetchSpec_catch now u error cm
  end.

(** Lines 25-94.  [now0] is the clock when the cache is first consulted,
    [now1] when the request has settled; [network] answers each attempt
    given the request headers; [written] is whether the durable write of
    a new entry goes through. *)
Definition fetchSpec (now0 now1 : Time)
    (network : list (string * string) -> nat -> NetReply) (written : bool)
    (u : string) (forceRefresh : bool) (cm : CacheManager)
  : Outcome OpenAPISpec * CacheManager :=
  let lookup :=
    if forceRefresh then (None, cm)
    else get sizeCalculation sha256_hex now0 u cm in
  match lookup with
  | (Some cached, cm1) => (Ok (spec cached), cm1)
  | (None, cm1) =>
      let (tag, cm2) := getEtag now0 u cm1 in
      let (modified, cm3) := getLastModified now0 u cm2 in
      let request_headers :=
        [("Accept",
          "application/json, application/yaml, text/yaml, text/plain")]
        ++ match tag with
           | Some t => if truthy_string tag then [("If-None-Match", t)] else []
           | None => []
           end
        ++ match modified with
           | Some m =>
               if truthy_string modified then [("If-Modified-Since", m)] else []
           | None => []
           end in
      match fst (fetchWithRetry client (network request_headers)
                   fetchSpec_validateStatus) with
      | Ok response =>
          if status response =? 304 then
            match get sizeCalculation sha256_hex now1 u cm3 with
            | (Some cached, cm4) => (Ok (spec cached), cm4)
            | (None, cm4) => fetchSpec_store now1 written u response cm4
            end
          else fetchSpec_store now1 written u response cm3
      | Throw error => fetchSpec_catch now1 u error cm3
      end
  end.

End Client.

(* ===================================================================== *)
(** ** Configuration (src/types/config.ts, src/core/mcp-server.ts) *)
(* ===================================================================== *)

Record Config : Type := mkConfig {
  cfg_cacheTtl : Z;          (* seconds *)
  cfg_cacheDir : string;
  cfg_maxCacheSize : Z;      (* MB *)
  cfg_requestTimeout : Z;    (* ms *)
  cfg_retryAttempts : nat;
  cfg_retryDelay : Z;        (* ms *)
}.

(** The bounds of [ConfigSchema], which [ConfigManager.loadConfig] applies
    to every configuration with [ConfigSchema.parse]. *)
Definition ConfigSchema (c : Config) : bool :=
  (0 <=? cfg_cacheTtl c) && (1 <=? cfg_maxCacheSize c)
  && (1000 <=? cfg_requestTimeout c) && (100 <=? cfg_retryDelay c).

(** The collaborators as the server's constructor builds them
    (mcp-server.ts, lines 45-59), for an absolute cache directory. *)
Definition server_cacheManager (c : Config) (found : gmap string DiskFile)
  : CacheManager :=
  CacheManager_new (cfg_cacheDir c) (cfg_cacheTtl c) (cfg_maxCacheSize c) found.

Definition server_openApiClient (c : Config) : OpenAPIClient :=
  mkClient (cfg_requestTimeout c) (cfg_retryAttempts c) (cfg_retryDelay c).

(* ===================================================================== *)
(** ** Vocabulary of the properties *)
(* ===================================================================== *)

(** The part of a place after its last dot: the name of the function. *)
Fixpoint after_last_dot (s : string) : string :=
  match s with
  | EmptyString => EmptyString
  | String c rest =>
      if str_includes "." rest then after_last_dot rest
      else if Ascii.eqb c "."%char then rest
      else s
  end.

(** The reads of the built-in functions that an object inherits from
    [Object.prototype], as Node.js 20 answers them: the poisoned
    accessors, [name] and [length], the statics of [Object], and what a
    function inherits. *)
Definition example_Function_get (f k : string) : Outcome (option JsValue) :=
  let is_Object := String.eqb f "Object.prototype.constructor" in
  if includes_name ["caller"; "arguments"] k then
    Throw (TypeError ("'caller', 'callee', and 'arguments' properties may "
                      +:+ "not be accessed on strict mode functions or the "
                      +:+ "arguments objects for calls to them"))
  else if String.eqb k "name" then
    Ok (Some (JStr (if is_Object then "Object" else after_last_dot f)))
  else if String.eqb k "length" then
    Ok (Some (JNum (Qc_of_Z
      (if includes_name ["Object.prototype.__defineGetter__";
                         "Object.prototype.__defineSetter__"] f then 2
       else if includes_name ["Object.prototype.toString";
                              "Object.prototype.valueOf";
                              "Object.prototype.toLocaleString"] f then 0
       else 1))))
  else if is_Object && String.eqb k "prototype" then Ok (Some JProto)
  else if is_Object
          && includes_name
               ["assign"; "getOwnPropertyDescriptor";
                "getOwnPropertyDescriptors"; "getOwnPropertyNames";
                "getOwnPropertySymbols"; "hasOwn"; "is"; "preventExtensions";
                "seal"; "create"; "defineProperties"; "defineProperty";
                "freeze"; "getPrototypeOf"; "setPrototypeOf"; "isExtensible";
                "isFrozen"; "isSealed"; "keys"; "entries"; "fromEntries";
                "values"] k then
    Ok (Some (JFun ("Object." +:+ k)))
  else if includes_name ["apply"; "bind"; "call"; "constructor"; "toString"] k
  then Ok (Some (JFun ("Function.prototype." +:+ k)))
  else Ok (Object_prototype_get (JFun "Function.prototype") k).

(** A host for running the definitions on concrete inputs: integers print
    in decimal, other numbers as a fraction, every pattern compiles to an
    expression that matches, and the built-in objects are those of
    Node.js 20. *)
Definition exampleHost : Host :=
  mkHost
    (fun q =>
       let n :=
         DecimalString.NilZero.string_of_int (Z.to_int (Qnum (this q))) in
       if Pos.eqb (Qden (this q)) 1 then n
       else n +:+ "/" +:+
            DecimalString.NilZero.string_of_uint (Pos.to_uint (Qden (this q))))
    (fun _ => Some (fun _ => true))
    ["constructor"; "at"; "concat"; "copyWithin"; "fill"; "find";
     "findIndex"; "findLast"; "findLastIndex"; "lastIndexOf"; "pop"; "push";
     "reverse"; "shift"; "unshift"; "slice"; "sort"; "splice"; "includes";
     "indexOf"; "join"; "keys"; "entries"; "values"; "forEach"; "filter";
     "flat"; "flatMap"; "map"; "every"; "some"; "reduce"; "reduceRight";
     "toLocaleString"; "toString"; "toReversed"; "toSorted"; "toSpliced";
     "with"]
    example_Function_get.

(** A property walk that only knows [#/components/schemas/<name>]. *)
Definition exampleWalk (doc : OpenAPISpec) (segments : list string)
  : option Schema :=
  match segments with
  | [a; b; name] =>
      if String.eqb a "components" && String.eqb b "schemas"
      then schemas doc !! name else None
  | _ => None
  end.

(** The error records that report a missing parameter. *)
Definition missing_path_error (name : string) : ValidationError :=
  mkValidationError "path" name
    ("Required path parameter '" +:+ name +:+ "' is missing").

Definition missing_query_error (name : string) : ValidationError :=
  mkValidationError "query" name
    ("Required query parameter '" +:+ name +:+ "' is missing").

Definition missing_header_error (name : string) : ValidationError :=
  mkValidationError "header" name
    ("Required header '" +:+ name +:+ "' is missing").

(** The first character of a message. *)
Definition starts_with_char (c : ascii) (m : string) : bool :=
  match m with
  | String c' _ => Ascii.eqb c' c
  | EmptyString => false
  end.

(** Messages that do not start like the report of a missing parameter;
    every message of the schema validator is one. *)
Definition schema_message (m : string) : Prop :=
  starts_with_char "R" m = false.

(** The provided headers under their lower-cased names, later keys
    overwriting earlier ones: the own properties that the [reduce] of
    [validateHeaderParameters] stores. *)
Definition lower_own_step (providedHeaders : list (string * JsValue))
    (acc : gmap string JsValue) (key : string) : gmap string JsValue :=
  match get_key key providedHeaders with
  | Some v => <[toLowerCase key := v]> acc
  | None => acc
  end.

Definition own_lowered (providedHeaders : list (string * JsValue))
  : gmap string JsValue :=
  fold_left (lower_own_step providedHeaders) (map fst providedHeaders) ∅.

(** No provided header has a name that lower-cases to [__proto__]. *)
Definition plain_headers (providedHeaders : list (string * JsValue)) : Prop :=
  forall k, In k (map fst providedHeaders) -> toLowerCase k <> "__proto__".

(** [k] is a provided header whose name equals [N] up to letter case. *)
Definition same_header (providedHeaders : list (string * JsValue))
    (N k : string) : Prop :=
  has_key k providedHeaders = true /\ toLowerCase k = toLowerCase N.

(** The result with further errors and warnings pushed. *)
Definition extend (r : ValidationResult) (es : list ValidationError)
    (ws : list string) : ValidationResult :=
  mkResult (valid r) (errors r ++ es) (warnings r ++ ws).

(** The operation that a path and a method name in the document. *)
Definition find_operation (doc : OpenAPISpec) (path method : string)
  : option (PathItem * Operation) :=
  all_paths ← paths doc;
  pathItem ← all_paths !! path;
  operation ← pathItem_get pathItem (toLowerCase method);
  Some (pathItem, operation).

(** The violations of a request, stated on their own: what each declared
    parameter and the body contribute to [errors], in the order of the
    four stages.  [schema_errors] are the messages of the schema validator
    for a provided value, as records of the parameter's location. *)
Definition schema_errors (host : Host) (loc : string) (param : ParameterObject)
    (value : JsValue) : list ValidationError :=
  match p_schema param with
  | Some schema =>
      match validateAgainstSchema host value schema (p_name param) with
      | Ok msgs => map (mkValidationError loc (p_name param)) msgs
      | Throw _ => []
      end
  | None => []
  end.

Definition path_violations (host : Host) (params : gmap string JsValue)
    (param : ParameterObject) : list ValidationError :=
  (if negb (bool_decide (p_required param = Some false))
      && negb (in_params (p_name param) params)
   then [missing_path_error (p_name param)] else [])
  ++ match get_param (p_name param) params with
     | Some value => schema_errors host "path" param value
     | None => []
     end.

Definition query_violations (host : Host) (params : gmap string JsValue)
    (param : ParameterObject) : list ValidationError :=
  (if truthy_bool (p_required param) && negb (in_params (p_name param) params)
   then [missing_query_error (p_name param)] else [])
  ++ match get_param (p_name param) params with
     | Some value =>
         schema_errors host "query" param value
         ++ (if negb (truthy_bool (p_allowEmptyValue param))
                && match value with JStr EmptyString => true | _ => false end
             then [mkValidationError "query" (p_name param)
                     ("Query parameter '" +:+ p_name param
                      +:+ "' cannot be empty")]
             else [])
     | None => []
     end.

Definition header_violations (host : Host)
    (headers : list (string * JsValue)) (param : ParameterObject)
  : list ValidationError :=
  let headerName := toLowerCase (p_name param) in
  let lowered := providedHeadersLower headers in
  (if truthy_bool (p_required param) && negb (object_has host headerName lowered)
   then [missing_header_error (p_name param)] else [])
  ++ match object_get host headerName lowered with
     | Ok (Some value) => schema_errors host "header" param value
     | _ => []
     end.

(** The schema that a provided JSON body is validated against: the one
    declared for [application/json], or the one its reference resolves
    to. *)
Definition body_schema (walk : OpenAPISpec -> list string -> option Schema)
    (doc : OpenAPISpec) (requestBody : RequestBody) : option Schema :=
  content ← rb_content requestBody;
  jsonContent ← content !! "application/json";
  declared ← mt_schema jsonContent;
  if truthy_string (s_ref declared)
  then ref ← s_ref declared; resolveRef walk ref doc
  else Some declared.

Definition body_violations (host : Host)
    (walk : OpenAPISpec -> list string -> option Schema) (doc : OpenAPISpec)
    (operation : Operation) (body : option JsValue) : list ValidationError :=
  match op_requestBody operation with
  | None => []
  | Some requestBody =>
      if truthy_bool (rb_required requestBody) && nullish body then
        [mkValidationError "body" "body"
           "Request body is required but not provided"]
      else
        match body with
        | None | Some JNull => []
        | Some value =>
            match body_schema walk doc requestBody with
            | Some schema =>
                match validateAgainstSchema host value schema "body" with
                | Ok msgs => map (mkValidationError "body" "body") msgs
                | Throw _ => []
                end
            | None => []
            end
        end
  end.

Definition violations (host : Host)
    (walk : OpenAPISpec -> list string -> option Schema) (doc : OpenAPISpec)
    (pathItem : PathItem) (operation : Operation)
    (params : gmap string JsValue) (headers : list (string * JsValue))
    (body : option JsValue) : list ValidationError :=
  let all := allParameters pathItem operation in
  flat_map (path_violations host params) (List.filter (param_in InPath) all)
  ++ flat_map (query_violations host params)
       (List.filter (param_in InQuery) all)
  ++ flat_map (header_violations host headers)
       (List.filter (param_in InHeader) all)
  ++ body_violations host walk doc operation body.




(** A document with one operation, [POST /users], whose JSON body must be
    an object with the properties [email] and [name]; and a request to it
    that carries [email] only. *)
Definition signup_schema : Schema :=
  mkSchema None (Some "object") None None None None None None None None None
    None None None None (Some ["email"; "name"]) None None None None None
    None None.

Definition signup_operation : Operation :=
  mkOperation None
    (Some (mkRequestBody
             (Some {[ "application/json" := mkMediaType (Some signup_schema) ]})
             (Some true)))
    None.

Definition signup_doc : OpenAPISpec :=
  mkOpenAPISpec (Some "3.0.0") None (Some (mkInfo "Users" "1.0"))
    (Some {[ "/users" :=
               mkPathItem None None None None None (Some signup_operation)
                 None None None None None None None ]})
    ∅.

(** The same document with the body schema [{required: ["email", "name"]}],
    which declares no type. *)
Definition untyped_signup_schema : Schema :=
  mkSchema None None None None None None None None None None None
    None None None None (Some ["email"; "name"]) None None None None None
    None None.

Definition untyped_signup_doc : OpenAPISpec :=
  mkOpenAPISpec (Some "3.0.0") None (Some (mkInfo "Users" "1.0"))
    (Some {[ "/users" :=
               mkPathItem None None None None None
                 (Some (mkOperation None
                    (Some (mkRequestBody
                       (Some {[ "application/json" :=
                                  mkMediaType (Some untyped_signup_schema) ]})
                       (Some true)))
                    None))
                 None None None None None None None ]})
    ∅.

Definition signup_args : ValidateRequestArgs :=
  mkArgs (Some "/users") (Some "POST") None None
    (Some (JObj [("email", JStr "a@b.com")])).

(** The entries the two tiers hold for a URL. *)
Definition in_memory (cm : CacheManager) (u : string) (e : CacheEntry) : Prop :=
  exists s, In s (lru_slots (memoryCache cm)) /\ slot_key s = u /\
            slot_value s = e.

Definition on_disk (sha256_hex : string -> string) (cm : CacheManager)
    (u : string) (e : CacheEntry) : Prop :=
  files cm !! getDiskCachePath sha256_hex cm u = Some (Readable e).

Definition stored (sha256_hex : string -> string) (cm : CacheManager)
    (u : string) (e : CacheEntry) : Prop :=
  in_memory cm u e \/ on_disk sha256_hex cm u e.

(** The constructor gives the in-memory tier the manager's own TTL. *)
Definition same_ttl (cm : CacheManager) : Prop :=
  lru_ttl (memoryCache cm) = ttl cm.

(** The in-memory tier takes the entry: there is no byte budget, or the
    serialized entry is within it. *)
Definition fits_memory (sizeCalculation : CacheEntry -> Z) (cm : CacheManager)
    (e : CacheEntry) : Prop :=
  lru_maxSize (memoryCache cm) = 0 \/
  sizeCalculation e <= lru_maxSize (memoryCache cm).

(** Every entry of [c'] is an entry of [c] under the same key. *)
Definition slots_within (c' c : LRUCache) : Prop :=
  forall s', In s' (lru_slots c') ->
    exists s, In s (lru_slots c) /\ slot_key s = slot_key s' /\
              slot_value s = slot_value s'.

(** [cm'] has the configuration of [cm] and stores nothing that [cm] does
    not store: no entry was written and no timestamp was changed. *)
Definition entries_within (sha256_hex : string -> string)
    (cm' cm : CacheManager) : Prop :=
  ttl cm' = ttl cm /\ cacheDir cm' = cacheDir cm /\
  lru_ttl (memoryCache cm') = lru_ttl (memoryCache cm) /\
  (forall u e, in_memory cm' u e -> stored sha256_hex cm u e) /\
  (forall path f, files cm' !! path = Some f -> files cm !! path = Some f).

(** A [validateStatus] that rejects every error status, as the one of
    [fetchSpec] and the default of axios do. *)
Definition rejects_errors (validateStatus : Z -> bool) : Prop :=
  forall st, 400 <= st -> validateStatus st = false.

(** Transient failures: no response, or a server-side status. *)
Definition transient_failure (reply : NetReply) : Prop :=
  match reply with
  | NoReply _ => True
  | Replied response => 500 <= status response
  end.

(** A client-side error response. *)
Definition client_error (reply : NetReply) : Prop :=
  match reply with
  | NoReply _ => False
  | Replied response => 400 <= status response < 500
  end.

(** The error with which [axios.get] rejects a failed request. *)
Definition failure_of (reply : NetReply) : JsError :=
  match reply with
  | NoReply reason => AxiosError None reason
  | Replied response =>
      AxiosError (Some (status response))
        ("Request failed with status code "
         +:+ status_toString (status response))
  end.

(** The delay after the attempt numbered [attempt]. *)
Definition backoff (client : OpenAPIClient) (attempt : nat) : Z :=
  retryDelay client * 2 ^ Z.of_nat attempt.

(** What a run of [made] attempts does from attempt [start] on: a request,
    the delay that follows it, the next request, and so on; each delay
    stands between two consecutive requests and none follows the last
    one. *)
Fixpoint schedule (client : OpenAPIClient) (start made : nat) : list Event :=
  match made with
  | O => []
  | S made' =>
      Request start ::
      match made' with
      | O => []
      | S _ => Delay (backoff client start) :: schedule client (S start) made'
      end
  end.

(** A cache that holds, on disk only, an entry written at time 0 for
    [https://api.example.com/openapi.json], with a TTL of one hour; the
    hash is replaced by the identity and every entry weighs 100 bytes. *)
Definition example_url : string := "https://api.example.com/openapi.json".

Definition example_entry : CacheEntry :=
  mkCacheEntry signup_doc (Some "v1") None 0 example_url.

Definition example_cache : CacheManager :=
  CacheManager_new "/cache" 3600 100
    {[ "/cache/" +:+ example_url +:+ ".json.gz" := Readable example_entry ]}.

Definition example_parsers : Parsers :=
  mkParsers (fun _ => Throw (SyntaxError "Unexpected token"))
            (fun _ => Throw (Error "YAMLParseError"))
            (fun doc => Ok doc).

(** A network that refuses every connection. *)
Definition unreachable (_ : list (string * string)) (_ : nat) : NetReply :=
  NoReply "connect ECONNREFUSED".

(* ===================================================================== *)
(** ** Further operations of the cache manager and the client *)
(* ===================================================================== *)

Section Settled.
Context (sizeCalculation : CacheEntry -> Z).
Context (sha256_hex : string -> string).
Context (parsers : Parsers).

(** What [fetchSpec] does once the request has settled (lines 60-93). *)
Definition fetchSpec_settled (now1 : Time) (written : bool) (u : string)
    (result : Outcome AxiosResponse) (cm3 : CacheManager)
  : Outcome OpenAPISpec * CacheManager :=
  match result with
  | Ok response =>
      if status response =? 304 then
        match get sizeCalculation sha256_hex now1 u cm3 with
        | (Some cached, cm4) => (Ok (spec cached), cm4)
        | (None, cm4) =>
            fetchSpec_store sizeCalculation sha256_hex parsers now1 written u
              response cm4
        end
      else
        fetchSpec_store sizeCalculation sha256_hex parsers now1 written u
          response cm3
  | Throw error => fetchSpec_catch sizeCalculation sha256_hex now1 u error cm3
  end.

End Settled.

Record CacheStats : Type := mkCacheStats {
  memorySize : Z;
  memoryEntries : nat;
  diskEntries : nat;
}.

(** cache-manager.ts, lines 160-173. *)
Definition getCacheStats (cm : CacheManager) : CacheStats :=
  mkCacheStats
    (calculatedSize (lru_slots (memoryCache cm)))
    (length (lru_slots (memoryCache cm)))
    (size (filter (fun kv => ends_with ".json.gz" (fst kv) = true) (files cm))).

Section ClientWrappers.
Context (sizeCalculation : CacheEntry -> Z).
Context (sha256_hex : string -> string).
Context (parsers : Parsers).
Context (client : OpenAPIClient).

(** openapi-client.ts, lines 207-209. *)
Definition fetchFromUrl (now0 now1 : Time)
    (network : list (string * string) -> nat -> NetReply) (written : bool)
    (u : string) (cm : CacheManager) : Outcome OpenAPISpec * CacheManager :=
  fetchSpec sizeCalculation sha256_hex parsers client now0 now1 network
    written u false cm.

(** openapi-client.ts, lines 211-213. *)
Definition refreshSpec (now0 now1 : Time)
    (network : list (string * string) -> nat -> NetReply) (written : bool)
    (u : string) (cm : CacheManager) : Outcome OpenAPISpec * CacheManager :=
  fetchSpec sizeCalculation sha256_hex parsers client now0 now1 network
    written u true cm.

End ClientWrappers.

(* ===================================================================== *)
(** ** The tool dispatcher (src/core/mcp-server.ts) *)
(* ===================================================================== *)

(** The arguments of a tool call: a JSON object, or [undefined]. *)
Definition ToolArgs : Type := option (gmap string JsValue).

(** [args && typeof args === 'object' && 'url' in args &&
     typeof args.url === 'string'], with [args.url] when it holds. *)
Definition args_url (args : ToolArgs) : option string :=
  match args with
  | Some fields =>
      match fields !! "url" with
      | Some (JStr u) => Some u
      | _ => None
      end
  | None => None
  end.

(** [a || b] on optional strings: the empty string is falsy. *)
Definition or_else (a b : option string) : option string :=
  if truthy_string a then a else b.

(** Lines 24-30: the state the server keeps between calls. *)
Record ServerState : Type := mkServerState {
  currentSpec : option OpenAPISpec;
  currentUrl : option string;
  cacheManager : CacheManager;
}.

(** What happens outside while one call is served: the clock before and
    after the request, the network, and whether the durable write of a new
    entry goes through. *)
Record World : Type := mkWorld {
  w_now0 : Time;
  w_now1 : Time;
  w_network : list (string * string) -> nat -> NetReply;
  w_written : bool;
}.

(** Lines 98-106. *)
Definition toolsRequiringSpec : list string :=
  ["list_endpoints"; "get_endpoint_details"; "search_endpoints";
   "get_schemas"; "generate_code"; "validate_request"; "get_api_info"].

(** Lines 64-74: the names under which [registerTools] stores a tool. *)
Definition registeredTools : list string :=
  ["list_endpoints"; "get_endpoint_details"; "search_endpoints";
   "get_schemas"; "generate_code"; "validate_request"; "get_api_info";
   "refresh_spec"].

Section Server.
Context (sizeCalculation : CacheEntry -> Z).
Context (sha256_hex : string -> string).
Context (parsers : Parsers).
Context (client : OpenAPIClient).
(** [configManager.openApiUrl] *)
Context (openApiUrl : option string).
(** [tool.execute(args, spec, url)] of the registered tool of a name,
    followed by the rendering of its result as text
    ([typeof result === 'string' ? result : JSON.stringify(result, null, 2)]);
    [Throw] when [execute] throws. *)
Context (run : string -> ToolArgs -> option OpenAPISpec -> option string ->
               Outcome string).

(** [this.currentSpec = await fetch(url); this.currentUrl = url], or the
    error that the fetch throws. *)
Definition assign_spec (fetched : Outcome OpenAPISpec * CacheManager)
    (u : string) (st : ServerState) : ServerState + (JsError * ServerState) :=
  match fetched with
  | (Ok doc, cm) => inl (mkServerState (Some doc) (Some u) cm)
  | (Throw error, cm) =>
      inr (error, mkServerState (currentSpec st) (currentUrl st) cm)
  end.

(** Lines 225-234. *)
Definition loadSpec (w : World) (u : string) (st : ServerState)
  : Outcome unit * ServerState :=
  match assign_spec
          (fetchSpec sizeCalculation sha256_hex parsers client (w_now0 w)
             (w_now1 w) (w_network w) (w_written w) u false (cacheManager st))
          u st with
  | inl st' => (Ok tt, st')
  | inr (error, st') => (Throw error, st')
  end.

(** Lines 197-222: look the tool up and execute it. *)
Definition executeTool (name : string) (args : ToolArgs) (st : ServerState)
  : string * ServerState :=
  if includes_name registeredTools name then
    match run name args (currentSpec st) (currentUrl st) with
    | Ok text => (text, st)
    | Throw error =>
        ("Error executing tool " +:+ name +:+ ": " +:+ error_toString error,
         st)
    end
  else ("Unknown tool: " +:+ name, st).

(** Lines 150-188: the special handling of [refresh_spec]. *)
Definition refreshTool (w : World) (args : ToolArgs) (st : ServerState)
  : string * ServerState :=
  let target :=
    match args_url args with
    | Some u => Some u
    | None => or_else (currentUrl st) openApiUrl
    end in
  if truthy_string target then
    match target with
    | Some u =>
        match assign_spec
                (refreshSpec sizeCalculation sha256_hex parsers client
                   (w_now0 w) (w_now1 w) (w_network w) (w_written w) u
                   (cacheManager st))
                u st with
        | inl st' => ("OpenAPI specification refreshed successfully.", st')
        | inr (error, st') =>
            ("Error refreshing OpenAPI spec: " +:+ error_toString error, st')
        end
    | None => ("No URL available to refresh. Please provide a URL.", st)
    end
  else ("No URL available to refresh. Please provide a URL.", st).

(** Lines 109-147: load a document for a tool that needs one when none is
    loaded.  [inl] is the text of an early return. *)
Definition ensureSpec (w : World) (name : string) (args : ToolArgs)
    (st : ServerState) : (string * ServerState) + ServerState :=
  if includes_name toolsRequiringSpec name
     && negb (bool_decide (is_Some (currentSpec st))) then
    let fetch u :=
      assign_spec
        (fetchSpec sizeCalculation sha256_hex parsers client (w_now0 w)
           (w_now1 w) (w_network w) (w_written w) u false (cacheManager st))
        u st in
    match args_url args with
    | Some u =>
        match fetch u with
        | inl st' => inr st'
        | inr (error, st') =>
            inl ("Error loading OpenAPI spec: " +:+ error_toString error, st')
        end
    | None =>
        if truthy_string openApiUrl then
          match openApiUrl with
          | Some u =>
              match fetch u with
              | inl st' => inr st'
              | inr (error, st') =>
                  inl ("Error loading OpenAPI spec from config: "
                       +:+ error_toString error, st')
              end
          | None => inr st
          end
        else
          inl ("No OpenAPI specification loaded. "
               +:+ "Please provide a URL or configure one.", st)
    end
  else inr st.

(** Lines 94-223: the handler of a tool call; the text of its answer and
    the state it leaves. *)
Definition callTool (w : World) (name : string) (args : ToolArgs)
    (st : ServerState) : string * ServerState :=
  match ensureSpec w name args st with
  | inl answer => answer
  | inr st1 =>
      if String.eqb name "refresh_spec" then refreshTool w args st1
      else executeTool name args st1
  end.

End Server.

(** The request body has no schema to be validated against: nothing is
    declared for [application/json], or what is declared is a reference
    that [resolveRef] does not resolve. *)
Definition no_json_schema (walk : OpenAPISpec -> list string -> option Schema)
    (doc : OpenAPISpec) (requestBody : RequestBody) : Prop :=
  match (content ← rb_content requestBody;
         jsonContent ← content !! "application/json";
         mt_schema jsonContent) with
  | None => True
  | Some declared =>
      exists ref, s_ref declared = Some ref /\ ref <> EmptyString /\
                  resolveRef walk ref doc = None
  end.


(** The one header a request carries when no revalidation token is sent. *)
Definition accept_only : list (string * string) :=
  [("Accept", "application/json, application/yaml, text/yaml, text/plain")].

(** The version test of [validateSpec]: a Swagger field, when there is
    one, decides alone and must start with [2.]; otherwise the [openapi]
    field must start with [3.]. *)
Definition supported_version (doc : OpenAPISpec) : Prop :=
  if truthy_string (swagger doc)
  then exists sw, swagger doc = Some sw /\ String.prefix "2." sw = true
  else exists v, openapi doc = Some v /\ String.prefix "3." v = true.

(** A server that has just been constructed over the example cache, a
    moment at which the network is down, and tools that answer with their
    name when they are given a document. *)
Definition example_server : ServerState :=
  mkServerState None None example_cache.

Definition example_world : World := mkWorld 1000000 1000200 unreachable true.

Definition example_run (name : string) (_ : ToolArgs)
    (doc : option OpenAPISpec) (_ : option string) : Outcome string :=
  match doc with
  | Some _ => Ok ("ran " +:+ name)
  | None => Throw (Error "No OpenAPI specification loaded")
  end.

(** Between [st] and [st'] the loaded document and its URL were either
    both left as they were or both assigned. *)
Definition kept_or_assigned (st st' : ServerState) : Prop :=
  (currentSpec st' = currentSpec st /\ currentUrl st' = currentUrl st) \/
  (is_Some (currentSpec st') /\ is_Some (currentUrl st')).

(** The document is loaded together with the URL it came from. *)
Definition loaded_with_url (st : ServerState) : Prop :=
  is_Some (currentSpec st) <-> is_Some (currentUrl st).

(** A document with three operations: [GET /search] with a required query
    parameter [q] and an optional header [X-Trace], [GET /ping] with no
    declaration at all, and [POST /upload] whose body is declared for
    [application/xml] only. *)
Definition catalog_doc : OpenAPISpec :=
  let operation ps rb := Some (mkOperation ps rb None) in
  let item get post :=
    mkPathItem None None None get None post None None None None None None
      None in
  mkOpenAPISpec (Some "3.0.0") None (Some (mkInfo "Catalog" "1.0"))
    (Some
       (<[ "/search" :=
             item (operation
                     (Some [mkParameter "q" InQuery (Some true) None None None;
                            mkParameter "X-Trace" InHeader None None None None])
                     None)
                  None ]>
        (<[ "/ping" := item (operation None None) None ]>
         {[ "/upload" :=
              item None
                (operation None
                   (Some (mkRequestBody
                            (Some {[ "application/xml" := mkMediaType None ]})
                            (Some true)))) ]})))
    ∅.

(* ===================================================================== *)
(** * Properties *)
(* ===================================================================== *)

Lemma bind_Ok_inv {A B} (c : Outcome A) (k : A -> Outcome B) (b : B) :
  bind c k = Ok b -> exists a, c = Ok a /\ k a = Ok b.
Proof. destruct c as [a|e]; simpl; [eauto | discriminate]. Qed.

Lemma bind_Ok {A B} (c : Outcome A) (k : A -> Outcome B) (a : A) :
  c = Ok a -> bind c k = k a.
Proof. intros ->. reflexivity. Qed.

Ltac inv_bind H :=
  let a := fresh "a" in
  let Ha := fresh "Ha" in
  apply bind_Ok_inv in H; destruct H as (a & Ha & H).

(* --------------------------------------------------------------------- *)
(** ** The schema validator looks at one node only *)
(* --------------------------------------------------------------------- *)

Section ShallowValidation.
Context (host : Host).

(** C3.  For every value and schema node, [validateAgainstSchema] checks
    the node's own constraints only: replacing the sub-schemas held in
    [items] and in [properties] by any others leaves the outcome, hence
    the returned error list, unchanged.  Property values and array
    elements are therefore never validated against them. *)
Theorem validateAgainstSchema_ignores_subschemas :
  forall (value : JsValue) (schema : Schema) (fieldName : string)
         (items : option Schema) (props : option (list (string * Schema))),
    validateAgainstSchema host value
      (with_items items (with_properties props schema)) fieldName
    = validateAgainstSchema host value schema fieldName.
Proof.
  intros value schema fieldName items props.
  destruct schema; reflexivity.
Qed.

End ShallowValidation.

(** An object whose property breaks the declared property schema, and an
    array whose element breaks the declared item schema, both pass. *)
Example nested_violation_not_reported :
  let integer := mkSchema None (Some "integer") None None None None None None
        None None None None None None None None None None None None None None
        None in
  validateAgainstSchema exampleHost (JObj [("age", JStr "old")])
    (with_properties (Some [("age", integer)])
       (mkSchema None (Some "object") None None None None None None None None
          None None None None None None None None None None None None None))
    "body" = Ok []
  /\
  validateAgainstSchema exampleHost (JArr [JStr "one"; JBool true])
    (with_items (Some integer)
       (mkSchema None (Some "array") None None None None None None None None
          None None None None None None None None None None None None None))
    "body" = Ok [].
Proof. split; reflexivity. Qed.

(* --------------------------------------------------------------------- *)
(** ** Messages of the schema validator *)
(* --------------------------------------------------------------------- *)

Lemma push_if_schema_message c m :
  schema_message m -> Forall schema_message (push_if c m).
Proof. intros Hm. destruct c; simpl; auto. Qed.

Lemma check_bound_schema_message bound test msg :
  (forall b, schema_message (msg b)) ->
  Forall schema_message (check_bound bound test msg).
Proof.
  intros Hmsg. destruct bound as [b|]; simpl; auto.
  apply push_if_schema_message, Hmsg.
Qed.

Ltac schema_messages :=
  repeat first
    [ apply List.Forall_nil
    | apply Forall_app; split
    | apply push_if_schema_message; unfold schema_message; reflexivity
    | apply check_bound_schema_message; intro; unfold schema_message;
      reflexivity ].

Section SchemaMessages.
Context (host : Host).

Lemma check_type_messages value schema :
  Forall schema_message (check_type value schema).
Proof.
  unfold check_type.
  destruct (truthy_string (s_type schema)); [|constructor].
  destruct (s_type schema); schema_messages.
Qed.

Lemma check_string_messages value schema msgs :
  check_string host value schema = Ok msgs -> Forall schema_message msgs.
Proof.
  unfold check_string, check_pattern.
  destruct value; try (intros [= <-]; constructor).
  destruct (type_is schema "string"); [|intros [= <-]; constructor].
  intros H. inv_bind H. injection H as <-.
  repeat (apply Forall_app; split); schema_messages.
  destruct (truthy_string (s_pattern schema)); [|injection Ha as <-; constructor].
  destruct (s_pattern schema) as [p|]; [|injection Ha as <-; constructor].
  destruct (RegExp_new host p); [|discriminate].
  injection Ha as <-. schema_messages.
Qed.

Lemma check_number_messages value schema :
  Forall schema_message (check_number host value schema).
Proof.
  unfold check_number.
  destruct value; try constructor.
  destruct (type_is schema "number" || type_is schema "integer"); [|constructor].
  repeat (apply Forall_app; split); schema_messages.
  - destruct (s_minimum schema); [|constructor].
    destruct (truthy_bool (s_exclusiveMinimum schema)); schema_messages.
  - destruct (s_maximum schema); [|constructor].
    destruct (truthy_bool (s_exclusiveMaximum schema)); schema_messages.
Qed.

Lemma check_array_messages value schema :
  Forall schema_message (check_array host value schema).
Proof.
  unfold check_array.
  destruct value; try constructor.
  destruct (type_is schema "array"); schema_messages.
Qed.

Lemma check_enum_messages value schema :
  Forall schema_message (check_enum host value schema).
Proof.
  unfold check_enum. destruct (s_enum schema); schema_messages.
Qed.

Lemma check_required_messages value required :
  Forall schema_message (check_required value required).
Proof.
  unfold check_required.
  induction required as [|r rest IH]; simpl; schema_messages. exact IH.
Qed.

Lemma check_object_messages value schema msgs :
  check_object host value schema = Ok msgs -> Forall schema_message msgs.
Proof.
  unfold check_object.
  destruct (type_is schema "object"); [|intros [= <-]; constructor].
  destruct value; try (intros [= <-]; constructor).
  - destruct (s_required schema) as [[|? ?]|]; discriminate.
  - intros [= <-]. repeat (apply Forall_app; split); schema_messages.
    destruct (s_required schema); [apply check_required_messages|constructor].
  - intros [= <-]. repeat (apply Forall_app; split); schema_messages.
    destruct (s_required schema); [apply check_required_messages|constructor].
Qed.

Lemma validateAgainstSchema_messages value schema fieldName msgs :
  validateAgainstSchema host value schema fieldName = Ok msgs ->
  Forall schema_message msgs.
Proof.
  unfold validateAgainstSchema. intros H.
  inv_bind H. rename a into e_string. rename Ha into Hstring.
  inv_bind H. injection H as <-.
  repeat (apply Forall_app; split);
    eauto using check_type_messages, check_string_messages,
      check_number_messages, check_array_messages, check_enum_messages,
      check_object_messages.
Qed.

End SchemaMessages.

(* --------------------------------------------------------------------- *)
(** ** Required path and query parameters *)
(* --------------------------------------------------------------------- *)

Section RequiredParameters.
Context (host : Host).

Lemma when_errors c e (r : ValidationResult) :
  errors (when c (push_error e) r) = errors r ++ (if c then [e] else []).
Proof. destruct c; simpl; [reflexivity | by rewrite app_nil_r]. Qed.

Lemma when_warning_errors c w (r : ValidationResult) :
  errors (when c (push_warning w) r) = errors r.
Proof. by destruct c. Qed.

Lemma check_provided_errors loc dep param value r0 r :
  check_provided host loc dep param value r0 = Ok r ->
  exists msgs, Forall schema_message msgs /\
    errors r = errors r0 ++ map (mkValidationError loc (p_name param)) msgs.
Proof.
  unfold check_provided. intros H. inv_bind H. injection H as <-.
  rewrite when_warning_errors.
  destruct (p_schema param) as [schema|].
  - inv_bind Ha. injection Ha as <-. exists a0. split; [|reflexivity].
    eapply validateAgainstSchema_messages; eassumption.
  - injection Ha as <-. exists []. split; [constructor|].
    by rewrite app_nil_r.
Qed.

Lemma schema_error_not_missing (loc fld : string) (e : ValidationError)
    (msgs : list string) :
  Forall schema_message msgs ->
  starts_with_char "R" (message e) = true ->
  ~ In e (map (mkValidationError loc fld) msgs).
Proof.
  intros Hall He Hin. apply in_map_iff in Hin as (m & <- & Hm).
  rewrite List.Forall_forall in Hall. apply Hall in Hm.
  unfold schema_message in Hm. simpl in He. congruence.
Qed.

Lemma in_params_lookup name (params : gmap string JsValue) :
  in_params name params = false <-> get_param name params = None.
Proof.
  unfold in_params. rewrite bool_decide_eq_false, <- eq_None_not_Some.
  reflexivity.
Qed.

Lemma in_params_true name (params : gmap string JsValue) value :
  get_param name params = Some value -> in_params name params = true.
Proof. intros H. unfold in_params. rewrite H. by apply bool_decide_eq_true. Qed.

Lemma validatePathParameter_missing params p r0 r1 n :
  validatePathParameter host params p r0 = Ok r1 ->
  In (missing_path_error n) (errors r1) <->
  In (missing_path_error n) (errors r0) \/
  (p_name p = n /\ p_required p <> Some false /\ in_params n params = false).
Proof.
  unfold validatePathParameter. intros H.
  destruct (get_param (p_name p) params) as [value|] eqn:Hlook.
  - apply check_provided_errors in H as (msgs & Hmsgs & ->).
    rewrite when_errors, (in_params_true _ _ _ Hlook).
    rewrite andb_false_r, app_nil_r, in_app_iff. split.
    + intros [Hin|Hin]; [by left|].
      exfalso. revert Hin. by apply schema_error_not_missing.
    + intros [Hin|(<- & _ & Hn)]; [by left|].
      apply in_params_lookup in Hn. congruence.
  - injection H as <-. rewrite when_errors, in_app_iff.
    apply in_params_lookup in Hlook. rewrite Hlook, andb_true_r.
    split.
    + intros [Hin|Hin]; [by left|]. right.
      destruct (bool_decide (p_required p = Some false)) eqn:Hreq;
        simpl in Hin; [done|].
      destruct Hin as [Heq|[]]. injection Heq as Heq _.
      apply bool_decide_eq_false in Hreq. subst n. auto.
    + intros [Hin|(<- & Hreq & _)]; [by left|]. right.
      rewrite bool_decide_eq_false_2 by done. simpl. by left.
Qed.

Lemma validateQueryParameter_missing params p r0 r1 n :
  validateQueryParameter host params p r0 = Ok r1 ->
  In (missing_query_error n) (errors r1) <->
  In (missing_query_error n) (errors r0) \/
  (p_name p = n /\ p_required p = Some true /\ in_params n params = false).
Proof.
  unfold validateQueryParameter. intros H.
  destruct (get_param (p_name p) params) as [value|] eqn:Hlook.
  - inv_bind H. injection H as <-.
    apply check_provided_errors in Ha as (msgs & Hmsgs & Herr).
    rewrite when_errors, Herr, when_errors, (in_params_true _ _ _ Hlook).
    rewrite andb_false_r, app_nil_r, !in_app_iff. split.
    + intros [[Hin|Hin]|Hin]; [by left| |].
      * exfalso. revert Hin. by apply schema_error_not_missing.
      * exfalso.
        destruct (negb (truthy_bool (p_allowEmptyValue p)) && _);
          simpl in Hin; [|done].
        destruct Hin as [Heq|[]]. discriminate Heq.
    + intros [Hin|(<- & _ & Hn)]; [by left; left|].
      apply in_params_lookup in Hn. congruence.
  - injection H as <-. rewrite when_errors, in_app_iff.
    apply in_params_lookup in Hlook. rewrite Hlook, andb_true_r.
    split.
    + intros [Hin|Hin]; [by left|]. right.
      destruct (p_required p) as [[|]|] eqn:Hreq; simpl in Hin; try done.
      destruct Hin as [Heq|[]]. injection Heq as Heq _. subst n. auto.
    + intros [Hin|(<- & Hreq & _)]; [by left|]. right.
      rewrite Hreq. simpl. by left.
Qed.

Lemma for_each_missing {P : ParameterObject -> Prop}
    (body : ParameterObject -> ValidationResult -> Outcome ValidationResult)
    (e : ValidationError) :
  (forall p r0 r1, body p r0 = Ok r1 ->
     In e (errors r1) <-> In e (errors r0) \/ P p) ->
  forall ps r0 r, for_each body ps r0 = Ok r ->
    In e (errors r) <-> In e (errors r0) \/ exists p, In p ps /\ P p.
Proof.
  intros Hstep ps. induction ps as [|p ps IH]; intros r0 r H; simpl in H.
  - injection H as <-. split; [by left|]. intros [H|(p & [] & _)]. done.
  - inv_bind H. rewrite (IH _ _ H), (Hstep _ _ _ Ha). simpl. split.
    + intros [[Hin|Hp]|(q & Hq & HP)]; eauto 6.
    + intros [Hin|(q & [<-|Hq] & HP)]; eauto 6.
Qed.

(** A declared path parameter is required unless its [required] field is
    explicitly [false]; a declared query parameter is required only when
    its [required] field is [true].  The error that reports a parameter
    as missing is added to the result exactly when a declared parameter
    of that name is required in this sense and [name in providedParams]
    is false, which it is when the provided parameters have no entry
    under the name and the name is not one that every object inherits. *)
Lemma missing_parameter_reported :
  forall (pathParams queryParams : list ParameterObject)
         (providedParams : gmap string JsValue) (path : string)
         (result0 result1 result2 : ValidationResult) (name : string),
    validatePathParameters host pathParams providedParams path result0
      = Ok result1 ->
    validateQueryParameters host queryParams providedParams result1
      = Ok result2 ->
    (In (missing_path_error name) (errors result1) <->
       In (missing_path_error name) (errors result0) \/
       exists p, In p pathParams /\ p_name p = name /\
                 p_required p <> Some false /\
                 in_params name providedParams = false)
    /\
    (In (missing_query_error name) (errors result2) <->
       In (missing_query_error name) (errors result1) \/
       exists p, In p queryParams /\ p_name p = name /\
                 p_required p = Some true /\
                 in_params name providedParams = false).
Proof.
  intros pathParams queryParams providedParams path result0 result1 result2
    name Hpath Hquery.
  split.
  - eapply (for_each_missing
              (P := fun p => p_name p = name /\ p_required p <> Some false /\
                             in_params name providedParams = false));
      [|exact Hpath].
    intros p r0 r1. apply validatePathParameter_missing.
  - eapply (for_each_missing
              (P := fun p => p_name p = name /\ p_required p = Some true /\
                             in_params name providedParams = false));
      [|exact Hquery].
    intros p r0 r1. apply validateQueryParameter_missing.
Qed.

Lemma in_params_own_or_inherited name (params : gmap string JsValue) :
  in_params name params = false <->
  params !! name = None /\ inherited name = false.
Proof.
  rewrite in_params_lookup. unfold get_param, inherited_value,
    Object_prototype_get.
  destruct (params !! name) as [v|]; [split; [done|by intros [? _]]|].
  destruct (String.eqb name "__proto__") eqn:Hproto.
  - apply String.eqb_eq in Hproto as ->. split; [done|]. by intros [_ ?].
  - destruct (inherited name); split; try done. by intros [_ ?].
Qed.

End RequiredParameters.

(* --------------------------------------------------------------------- *)
(** ** Header names are matched without regard to case *)
(* --------------------------------------------------------------------- *)

Lemma has_key_In {A} (k : string) (props : list (string * A)) :
  has_key k props = true <-> In k (map fst props).
Proof.
  unfold has_key. rewrite existsb_exists, in_map_iff. split.
  - intros (kv & Hin & Heq). apply String.eqb_eq in Heq. eauto.
  - intros (kv & <- & Hin). exists kv. split; [done|]. apply String.eqb_refl.
Qed.

Lemma get_key_Some_In {A} (k : string) (props : list (string * A)) (v : A) :
  get_key k props = Some v -> In (k, v) props.
Proof.
  induction props as [|[k' v'] rest IH]; simpl; [done|].
  destruct (String.eqb k' k) eqn:Heq.
  - apply String.eqb_eq in Heq. intros [= <-]. subst. by left.
  - intros H. right. auto.
Qed.

Lemma get_key_is_Some {A} (k : string) (props : list (string * A)) :
  In k (map fst props) -> is_Some (get_key k props).
Proof.
  induction props as [|[k' v'] rest IH]; simpl; [done|].
  destruct (String.eqb k' k) eqn:Heq; [eauto|].
  intros [Hk|Hin]; [|auto].
  subst. rewrite String.eqb_refl in Heq. discriminate.
Qed.

Section HeaderFold.
Context (providedHeaders : list (string * JsValue)).

Lemma lower_fold_Some keys : forall (acc : gmap string JsValue) x v,
  fold_left (lower_own_step providedHeaders) keys acc !! x = Some v ->
  acc !! x = Some v \/
  exists k, In k keys /\ toLowerCase k = x /\ get_key k providedHeaders = Some v.
Proof.
  induction keys as [|key keys IH]; intros acc x v H; simpl in H; [by left|].
  apply IH in H as [H|(k & Hin & Hk & Hv)].
  - unfold lower_own_step in H.
    destruct (get_key key providedHeaders) as [w|] eqn:Hw; [|by left].
    destruct (decide (toLowerCase key = x)) as [Heq|Hne].
    + subst x. rewrite lookup_insert_eq in H. injection H as ->.
      right. exists key. simpl. auto.
    + rewrite lookup_insert_ne in H by done. by left.
  - right. exists k. simpl. auto.
Qed.

Lemma lower_fold_None keys : forall (acc : gmap string JsValue) x,
  fold_left (lower_own_step providedHeaders) keys acc !! x = None ->
  acc !! x = None /\
  forall k, In k keys -> is_Some (get_key k providedHeaders) ->
            toLowerCase k <> x.
Proof.
  induction keys as [|key keys IH]; intros acc x H; simpl in H.
  - split; [done|]. intros k [].
  - apply IH in H as [H Hrest]. unfold lower_own_step in H.
    destruct (get_key key providedHeaders) as [w|] eqn:Hw.
    + destruct (decide (toLowerCase key = x)) as [Heq|Hne].
      * subst x. by rewrite lookup_insert_eq in H.
      * rewrite lookup_insert_ne in H by done. split; [done|].
        intros k [<-|Hin] Hsome; [done | by apply Hrest].
    + split; [done|]. intros k [<-|Hin] Hsome; [|by apply Hrest].
      destruct Hsome as [? Hsome]. congruence.
Qed.

(** While no key lower-cases to [__proto__], the accumulator keeps the
    prototype of an object literal and its own properties are the
    lower-cased headers. *)
Lemma lower_fold_plain keys :
  (forall k, In k keys -> toLowerCase k <> "__proto__") ->
  forall own,
    fold_left (lower_step providedHeaders) keys (mkObject own (Some JProto))
    = mkObject (fold_left (lower_own_step providedHeaders) keys own)
        (Some JProto).
Proof.
  induction keys as [|key keys IH]; intros Hplain own; simpl; [done|].
  unfold lower_step at 2, lower_own_step at 2.
  destruct (get_key key providedHeaders) as [v|];
    [|apply IH; intros k Hk; apply Hplain; by right].
  unfold object_set.
  replace (String.eqb (toLowerCase key) "__proto__") with false.
  - simpl. apply IH. intros k Hk. apply Hplain. by right.
  - symmetry. apply String.eqb_neq. apply Hplain. by left.
Qed.

End HeaderFold.

Lemma own_lowered_Some providedHeaders x v :
  own_lowered providedHeaders !! x = Some v ->
  exists k, In (k, v) providedHeaders /\ toLowerCase k = x /\
            get_key k providedHeaders = Some v.
Proof.
  intros H. apply lower_fold_Some in H as [H|(k & _ & Hk & Hv)].
  - by rewrite lookup_empty in H.
  - exists k. auto using get_key_Some_In.
Qed.

Lemma own_lowered_None providedHeaders x :
  own_lowered providedHeaders !! x = None ->
  forall k, has_key k providedHeaders = true -> toLowerCase k <> x.
Proof.
  intros H k Hk. apply lower_fold_None in H as [_ H].
  apply has_key_In in Hk. apply H; [done|]. by apply get_key_is_Some.
Qed.

Lemma providedHeadersLower_plain providedHeaders :
  plain_headers providedHeaders ->
  providedHeadersLower providedHeaders
  = mkObject (own_lowered providedHeaders) (Some JProto).
Proof. intros Hplain. by apply lower_fold_plain. Qed.

Section HeaderParameters.
Context (host : Host).

(** An object with the prototype of an object literal is read like an
    object parsed from JSON. *)
Lemma object_get_plain own x :
  object_get host x (mkObject own (Some JProto)) = Ok (get_param x own).
Proof.
  unfold object_get, get_param. simpl. by destruct (own !! x).
Qed.

Lemma object_has_plain own x :
  object_has host x (mkObject own (Some JProto)) = in_params x own.
Proof.
  unfold object_has, in_params. rewrite object_get_plain.
  destruct (get_param x own) as [v|].
  - symmetry. apply bool_decide_eq_true. eauto.
  - symmetry. apply bool_decide_eq_false. by intros [? ?].
Qed.

Lemma lowered_present providedHeaders N value :
  own_lowered providedHeaders !! toLowerCase N = Some value ->
  exists k, same_header providedHeaders N k /\
            get_key k providedHeaders = Some value.
Proof.
  intros Hv. apply own_lowered_Some in Hv as (k & Hin & Hk & Hget).
  exists k. repeat split; [|done..].
  apply has_key_In, in_map_iff. by exists (k, value).
Qed.

Lemma lowered_absent providedHeaders N :
  own_lowered providedHeaders !! toLowerCase N = None ->
  forall k, ~ same_header providedHeaders N k.
Proof.
  intros Hnone k [Hk Heq]. revert Heq. by eapply own_lowered_None.
Qed.


End HeaderParameters.

(* --------------------------------------------------------------------- *)
(** ** Errors accumulate across the stages of [execute] *)
(* --------------------------------------------------------------------- *)

Lemma extend_nil r : extend r [] [] = r.
Proof. destruct r. unfold extend. simpl. by rewrite !app_nil_r. Qed.

Lemma extend_extend r es1 ws1 es2 ws2 :
  extend (extend r es1 ws1) es2 ws2 = extend r (es1 ++ es2) (ws1 ++ ws2).
Proof. unfold extend. simpl. by rewrite !app_assoc. Qed.

Lemma when_push_error c e r :
  when c (push_error e) r = extend r (if c then [e] else []) [].
Proof.
  destruct c; simpl; [|by rewrite extend_nil].
  unfold push_error, extend. by rewrite app_nil_r.
Qed.

Lemma when_push_warning c w r :
  when c (push_warning w) r = extend r [] (if c then [w] else []).
Proof.
  destruct c; simpl; [|by rewrite extend_nil].
  unfold push_warning, extend. by rewrite app_nil_r.
Qed.

Lemma push_errors_extend loc fld msgs r :
  push_errors loc fld msgs r = extend r (map (mkValidationError loc fld) msgs) [].
Proof. unfold push_errors, extend. by rewrite app_nil_r. Qed.

Lemma push_warning_extend w r : push_warning w r = extend r [] [w].
Proof. unfold push_warning, extend. by rewrite app_nil_r. Qed.

Lemma push_error_extend e r : push_error e r = extend r [e] [].
Proof. unfold push_error, extend. by rewrite app_nil_r. Qed.

Lemma when_error_errors c e (r : ValidationResult) (es : list ValidationError) :
  errors r = es ->
  errors (when c (push_error e) r) = es ++ (if c then [e] else []).
Proof. intros <-. destruct c; simpl; [reflexivity | by rewrite app_nil_r]. Qed.

Lemma for_each_violations {A}
    (body : A -> ValidationResult -> Outcome ValidationResult)
    (violated : A -> list ValidationError) :
  (forall x r0 r1, body x r0 = Ok r1 ->
     errors r1 = errors r0 ++ violated x) ->
  forall xs r0 r, for_each body xs r0 = Ok r ->
    errors r = errors r0 ++ flat_map violated xs.
Proof.
  intros Hbody xs. induction xs as [|x xs IH]; intros r0 r H; simpl in H.
  - injection H as <-. simpl. by rewrite app_nil_r.
  - inv_bind H. rewrite (IH _ _ H), (Hbody _ _ _ Ha). simpl.
    by rewrite app_assoc.
Qed.

Section Accumulation.
Context (host : Host).
Context (walk : OpenAPISpec -> list string -> option Schema).

Lemma check_provided_violations loc dep param value r0 r :
  check_provided host loc dep param value r0 = Ok r ->
  errors r = errors r0 ++ schema_errors host loc param value.
Proof.
  unfold check_provided, schema_errors. intros H.
  inv_bind H. injection H as <-. rewrite when_warning_errors.
  destruct (p_schema param) as [schema|].
  - inv_bind Ha. injection Ha as <-. by rewrite Ha0.
  - injection Ha as <-. by rewrite app_nil_r.
Qed.

Lemma validatePathParameter_violations params param r0 r :
  validatePathParameter host params param r0 = Ok r ->
  errors r = errors r0 ++ path_violations host params param.
Proof.
  unfold validatePathParameter, path_violations, missing_path_error.
  intros H. destruct (get_param (p_name param) params) as [value|].
  - apply check_provided_violations in H. rewrite H, when_errors.
    by rewrite app_assoc.
  - injection H as <-. by rewrite when_errors, app_nil_r.
Qed.

Lemma validateQueryParameter_violations params param r0 r :
  validateQueryParameter host params param r0 = Ok r ->
  errors r = errors r0 ++ query_violations host params param.
Proof.
  unfold validateQueryParameter, query_violations, missing_query_error.
  intros H. destruct (get_param (p_name param) params) as [value|].
  - inv_bind H. injection H as <-.
    apply check_provided_violations in Ha.
    rewrite when_errors, Ha, when_errors, <- !app_assoc.
    done.
  - injection H as <-. by rewrite when_errors, app_nil_r.
Qed.

Lemma validateHeaderParameter_violations headers param r0 r :
  validateHeaderParameter host headers param r0 = Ok r ->
  errors r = errors r0 ++ header_violations host headers param.
Proof.
  unfold validateHeaderParameter, header_violations, missing_header_error.
  intros H.
  destruct (object_get host (toLowerCase (p_name param))
              (providedHeadersLower headers)) as [[value|]|error];
    simpl in H; [| |discriminate].
  - apply check_provided_violations in H. rewrite H, when_errors.
    by rewrite app_assoc.
  - injection H as <-. by rewrite when_errors, app_nil_r.
Qed.

Lemma validateRequestBody_violations requestBody body doc r0 r :
  validateRequestBody host walk requestBody body doc r0 = Ok r ->
  errors r
  = errors r0
    ++ body_violations host walk doc (mkOperation None (Some requestBody) None)
         body.
Proof.
  unfold validateRequestBody, body_violations, body_schema. simpl.
  destruct (truthy_bool (rb_required requestBody) && nullish body).
  { by intros [= <-]. }
  assert (Hskip : Ok r0 = Ok r -> errors r = errors r0 ++ []).
  { intros [= <-]. by rewrite app_nil_r. }
  destruct body as [value|]; [|exact Hskip].
  assert (Hvalidate : forall schema,
    (validationErrors <- validateAgainstSchema host value schema "body" ;;
     Ok (push_errors "body" "body" validationErrors r0)) = Ok r ->
    errors r
    = errors r0
      ++ match validateAgainstSchema host value schema "body" with
         | Ok msgs => map (mkValidationError "body" "body") msgs
         | Throw _ => []
         end).
  { intros schema H. inv_bind H. injection H as <-. by rewrite Ha. }
  destruct (rb_content requestBody) as [content|]; simpl;
    [|destruct value; exact Hskip].
  destruct (content !! "application/json") as [jsonContent|]; simpl;
    [|destruct value; exact Hskip].
  destruct (mt_schema jsonContent) as [declared|]; simpl;
    [|destruct value; exact Hskip].
  destruct value; [exact Hskip|..];
    (destruct (truthy_string (s_ref declared)) eqn:Href;
     [destruct (s_ref declared) as [ref|]; [|done]; simpl;
      destruct (resolveRef walk ref doc) as [schema|];
      [apply Hvalidate
      |intros [= <-]; simpl; by rewrite app_nil_r]
     |apply Hvalidate]).
Qed.

Lemma validateBody_violations operation body doc r0 r :
  validateBody host walk operation body doc r0 = Ok r ->
  errors r = errors r0 ++ body_violations host walk doc operation body.
Proof.
  unfold validateBody. intros H.
  destruct (op_requestBody operation) as [requestBody|] eqn:Hrb.
  - apply validateRequestBody_violations in H. rewrite H.
    unfold body_violations. simpl. by rewrite Hrb.
  - injection H as <-. rewrite when_warning_errors.
    unfold body_violations. by rewrite Hrb, app_nil_r.
Qed.

(** The errors of a returned result are the violations of the request,
    stage after stage, and [valid] says whether there is none. *)
Lemma validateOperation_violations doc path pathItem operation params headers
    body result :
  validateOperation host walk doc path pathItem operation params headers body
    = Ok result ->
  errors result
  = violations host walk doc pathItem operation params headers body /\
  valid result = Nat.eqb (length (errors result)) 0.
Proof.
  intros H. unfold validateOperation in H.
  inv_bind H. rename a into r1, Ha into H1.
  inv_bind H. rename a into r2, Ha into H2.
  inv_bind H. rename a into r3, Ha into H3.
  inv_bind H. rename a into r4, Ha into H4.
  injection H as <-. simpl. rewrite when_warning_errors. split; [|done].
  apply (for_each_violations _ _ (validatePathParameter_violations params))
    in H1.
  apply (for_each_violations _ _ (validateQueryParameter_violations params))
    in H2.
  apply (for_each_violations _ _ (validateHeaderParameter_violations headers))
    in H3.
  apply validateBody_violations in H4.
  rewrite H4, H3, H2, H1. unfold violations. simpl.
  by rewrite <- !app_assoc.
Qed.

Lemma valid_iff_no_errors (result : ValidationResult) :
  valid result = Nat.eqb (length (errors result)) 0 ->
  (valid result = true <-> errors result = []) /\
  (valid result = false <-> errors result <> []).
Proof.
  intros ->. destruct (errors result); simpl; split; split; congruence.
Qed.

End Accumulation.

Section ValidationResults.
Context (host : Host).
Context (walk : OpenAPISpec -> list string -> option Schema).

Lemma validateArgs_Ok args :
  validateArgs args ["path"; "method"] = Ok tt ->
  is_Some (a_path args) /\ is_Some (a_method args).
Proof.
  unfold validateArgs, has_field. simpl.
  destruct (a_path args), (a_method args); intros H; [eauto|exfalso..];
    repeat (case_bool_decide; simpl in H); try discriminate;
    match goal with Hn : ~ is_Some _ |- _ => apply Hn; eauto
                  | Hs : is_Some None |- _ => by destruct Hs end.
Qed.

(** A returned result comes from the checks on the path item and the
    operation that the path and the method find in the loaded document. *)
Lemma execute_Ok_inv args spec result :
  execute host walk args spec = Ok result ->
  exists doc all_paths path method pathItem operation,
    spec = Some doc /\ paths doc = Some all_paths /\
    a_path args = Some path /\ a_method args = Some method /\
    lookup host all_paths path method = Ok (pathItem, operation) /\
    validateOperation host walk doc path pathItem operation
      (default ∅ (a_params args)) (default [] (a_headers args)) (a_body args)
    = Ok result.
Proof.
  unfold execute. intros H.
  destruct spec as [doc|]; [|discriminate].
  inv_bind H.
  destruct (a_path args) as [path|]; [|discriminate].
  destruct (a_method args) as [method|]; [|discriminate].
  destruct (paths doc) as [all_paths|] eqn:Hpaths; [|discriminate].
  inv_bind H. destruct a0 as [pathItem operation]. simpl in H.
  exists doc, all_paths, path, method, pathItem, operation.
  repeat split; done.
Qed.

(** The messages for an object under a schema of type ['object'] that
    constrains nothing but the required properties. *)
Lemma object_schema_messages (props : list (string * JsValue))
    (schema : Schema) (fieldName : string) :
  s_type schema = Some "object" ->
  s_enum schema = None ->
  s_minProperties schema = None ->
  s_maxProperties schema = None ->
  validateAgainstSchema host (JObj props) schema fieldName
  = Ok (check_required (JObj props) (default [] (s_required schema))).
Proof.
  intros Htype Henum Hmin Hmax.
  unfold validateAgainstSchema, check_type, check_string, check_number,
    check_array, check_enum, check_object, type_is.
  rewrite Htype, Henum, Hmin, Hmax. simpl.
  destruct (s_required schema); simpl; by rewrite ?app_nil_r.
Qed.

End ValidationResults.

(* --------------------------------------------------------------------- *)
(** ** When [execute] returns and when it throws *)
(* --------------------------------------------------------------------- *)


Section Returns.
Context (host : Host).
Context (walk : OpenAPISpec -> list string -> option Schema).







Lemma execute_lookup args doc all_paths path method :
  a_path args = Some path ->
  a_method args = Some method ->
  paths doc = Some all_paths ->
  execute host walk args (Some doc)
  = (found <- lookup host all_paths path method ;;
     validateOperation host walk doc path (fst found) (snd found)
       (default ∅ (a_params args)) (default [] (a_headers args))
       (a_body args)).
Proof.
  intros Hpath Hmethod Hpaths.
  unfold execute, validateArgs, has_field. simpl.
  rewrite Hpath, Hmethod, Hpaths.
  by rewrite !bool_decide_eq_true_2 by eauto.
Qed.


End Returns.



Section ResultsOfExecute.
Context (host : Host).
Context (walk : OpenAPISpec -> list string -> option Schema).

(** C6, amended.  In every result that [execute] returns, [valid] is true
    exactly when [errors] is empty, and [errors] lists the violations of
    all four locations, in the order path, query, header, body: for each
    declared parameter the report that it is missing and the messages of
    its schema for the provided value, then those of the body; no
    location is skipped because an earlier one failed.  For a schema of
    type ['object'] that requires [email] and [name] and constrains
    nothing else, the object [{email: "a@b.com"}] yields exactly one
    message, which reports [name] as missing, and the request that
    carries it as body is answered with [valid = false] and that one
    error. *)
Theorem validation_result_accumulates :
  forall (args : ValidateRequestArgs) (spec : option OpenAPISpec)
         (result : ValidationResult),
    execute host walk args spec = Ok result ->
    (valid result = true <-> errors result = [])
    /\
    (exists doc all_paths path method pathItem operation,
       spec = Some doc /\ paths doc = Some all_paths /\
       a_path args = Some path /\ a_method args = Some method /\
       lookup host all_paths path method = Ok (pathItem, operation) /\
       let params := default ∅ (a_params args) in
       let headers := default [] (a_headers args) in
       let all := allParameters pathItem operation in
       errors result
       = flat_map (path_violations host params)
           (List.filter (param_in InPath) all)
         ++ flat_map (query_violations host params)
              (List.filter (param_in InQuery) all)
         ++ flat_map (header_violations host headers)
              (List.filter (param_in InHeader) all)
         ++ body_violations host walk doc operation (a_body args))
    /\
    (forall schema : Schema,
       s_type schema = Some "object" ->
       s_required schema = Some ["email"; "name"] ->
       s_enum schema = None ->
       s_minProperties schema = None ->
       s_maxProperties schema = None ->
       validateAgainstSchema host (JObj [("email", JStr "a@b.com")]) schema
         "body"
       = Ok ["Missing required property: name"])
    /\
    execute host walk signup_args (Some signup_doc)
    = Ok (mkResult false
            [mkValidationError "body" "body" "Missing required property: name"]
            []).
Proof.
  intros args spec result H.
  apply execute_Ok_inv in H
    as (doc & all_paths & path & method & pathItem & operation & -> & Hpaths
        & Hpath & Hmethod & Hfound & H).
  apply validateOperation_violations in H as [Herrors Hvalid].
  split; [|split; [|split]].
  - by apply valid_iff_no_errors.
  - exists doc, all_paths, path, method, pathItem, operation.
    repeat split; assumption.
  - intros schema Htype Hrequired Henum Hmin Hmax.
    rewrite (object_schema_messages host _ _ _ Htype Henum Hmin Hmax).
    by rewrite Hrequired.
  - reflexivity.
Qed.

End ResultsOfExecute.

(** C6 as stated fails: the schema [{required: ["email", "name"]}]
    requires both properties, yet the validator reports nothing for
    [{email: "a@b.com"}], because it looks at [required] only under
    [type: 'object']; the request is answered with [valid = true]. *)
Lemma untyped_required_schema_reports_nothing :
  s_required untyped_signup_schema = Some ["email"; "name"] /\
  validateAgainstSchema exampleHost (JObj [("email", JStr "a@b.com")])
    untyped_signup_schema "body" = Ok [] /\
  execute exampleHost exampleWalk signup_args (Some untyped_signup_doc)
  = Ok (mkResult true [] []).
Proof. repeat split; reflexivity. Qed.

Lemma validation_result_accumulates_witness :
  let result :=
    mkResult false
      [mkValidationError "body" "body" "Missing required property: name"] [] in
  execute exampleHost exampleWalk signup_args (Some signup_doc) = Ok result /\
  (valid result = true <-> errors result = []).
Proof.
  intros result. split; [reflexivity|].
  apply (validation_result_accumulates exampleHost exampleWalk signup_args
           (Some signup_doc) result eq_refl).
Defined.

(** C10, where the code departs from it.  A required query parameter
    named [toString] and a path parameter named [constructor] are not
    reported as missing when the request provides no parameter at all:
    [name in providedParams] holds for every name that an object inherits
    from [Object.prototype].  The inherited function is then validated
    in place of a value. *)
Theorem inherited_parameter_names_are_never_missing :
  let text :=
    mkSchema None (Some "string") None None None None None None None None
      None None None None None None None None None None None None None in
  let by_id := mkParameter "constructor" InPath None None None None in
  let sort := mkParameter "toString" InQuery (Some true) None None (Some text) in
  let doc :=
    mkOpenAPISpec (Some "3.0.0") None (Some (mkInfo "Items" "1.0"))
      (Some {[ "/items/{constructor}" :=
                 mkPathItem None None None
                   (Some (mkOperation (Some [by_id; sort]) None None))
                   None None None None None None None None None ]}) ∅ in
  in_params "toString" ∅ = true /\
  validatePathParameters exampleHost [by_id] ∅ "/items/{constructor}"
    (mkResult true [] [])
  = Ok (mkResult true [] []) /\
  validateQueryParameters exampleHost [sort] ∅ (mkResult true [] [])
  = Ok (mkResult true
          [mkValidationError "query" "toString"
             "Expected type 'string' but got 'function'"] []) /\
  execute exampleHost exampleWalk
    (mkArgs (Some "/items/{constructor}") (Some "GET") None None None)
    (Some doc)
  = Ok (mkResult false
          [mkValidationError "query" "toString"
             "Expected type 'string' but got 'function'"] []).
Proof. repeat split; reflexivity. Qed.

(** C9, where the code departs from it.  A required header named
    [constructor] counts as provided although the request carries no
    header at all, so no key equals the name up to letter case:
    [headerName in providedHeadersLower] holds for every name that an
    object inherits from [Object.prototype].  No missing header is
    reported, and the inherited function is validated in place of a
    value.  A header that the request does provide is matched without
    regard to case. *)
Theorem inherited_header_names_count_as_provided :
  let text :=
    mkSchema None (Some "string") None None None None None None None None
      None None None None None None None None None None None None None in
  let param := mkParameter "Constructor" InHeader (Some true) None None
                 (Some text) in
  let key := mkParameter "X-Api-Key" InHeader (Some true) None None
               (Some text) in
  object_has exampleHost (toLowerCase "Constructor") (providedHeadersLower [])
  = true /\
  validateHeaderParameters exampleHost [param] [] (mkResult true [] [])
  = Ok (mkResult true
          [mkValidationError "header" "Constructor"
             "Expected type 'string' but got 'function'"] []) /\
  validateHeaderParameters exampleHost [key] [] (mkResult true [] [])
  = Ok (mkResult true [missing_header_error "X-Api-Key"] []) /\
  validateHeaderParameters exampleHost [key] [("x-API-key", JNum (Qc_of_Z 7))]
    (mkResult true [] [])
  = Ok (mkResult true
          [mkValidationError "header" "X-Api-Key"
             "Expected type 'string' but got 'number'"] []).
Proof. repeat split; reflexivity. Qed.

(** Errors of all four locations in one result: a missing path parameter,
    a missing query parameter, a missing header and a missing body. *)
Example errors_of_every_location :
  let parameters :=
    [mkParameter "id" InPath None None None None;
     mkParameter "q" InQuery (Some true) None None None;
     mkParameter "X-Trace" InHeader (Some true) None None None] in
  let operation :=
    mkOperation (Some parameters)
      (Some (mkRequestBody (Some ∅) (Some true))) None in
  let doc :=
    mkOpenAPISpec (Some "3.0.0") None (Some (mkInfo "Users" "1.0"))
      (Some {[ "/users/{id}" :=
                 mkPathItem None None None None (Some operation) None None
                   None None None None None None ]}) ∅ in
  execute exampleHost exampleWalk
    (mkArgs (Some "/users/{id}") (Some "put") None None None) (Some doc)
  = Ok (mkResult false
          [missing_path_error "id"; missing_query_error "q";
           missing_header_error "X-Trace";
           mkValidationError "body" "body"
             "Request body is required but not provided"] []).
Proof. reflexivity. Qed.

(* --------------------------------------------------------------------- *)
(** ** The in-memory tier *)
(* --------------------------------------------------------------------- *)

Lemma find_without k slots : List.find (key_is k) (without k slots) = None.
Proof.
  unfold without. induction slots as [|s slots IH]; simpl; [done|].
  destruct (key_is k s) eqn:Hk; simpl; [done|]. by rewrite Hk.
Qed.

Lemma In_without k s slots : In s (without k slots) -> In s slots.
Proof. unfold without. by intros [? _]%filter_In. Qed.

Lemma In_evict budget s slots : In s (evict budget slots) -> In s slots.
Proof.
  induction slots as [|s' slots IH]; simpl; [done|].
  destruct (budget <? _); [|done]. intros H. right. auto.
Qed.

Lemma find_evict_None k budget slots :
  List.find (key_is k) slots = None ->
  List.find (key_is k) (evict budget slots) = None.
Proof.
  induction slots as [|s slots IH]; simpl; [done|].
  destruct (key_is k s) eqn:Hk; [done|]. intros H.
  destruct (budget <? _); [auto|]. simpl. by rewrite Hk.
Qed.

Lemma find_app_None {A} (f : A -> bool) l1 l2 :
  List.find f l1 = None -> List.find f (l1 ++ l2) = List.find f l2.
Proof.
  induction l1 as [|x l1 IH]; simpl; [done|].
  destruct (f x); [done|auto].
Qed.

Lemma find_key_In k slots s :
  List.find (key_is k) slots = Some s -> In s slots /\ slot_key s = k.
Proof.
  intros H. apply find_some in H as [Hin Hk]. split; [done|].
  by apply String.eqb_eq.
Qed.

Lemma lru_get_spec now k c res c' :
  lru_get now k c = (res, c') ->
  lru_ttl c' = lru_ttl c /\ lru_maxSize c' = lru_maxSize c /\
  slots_within c' c /\
  forall e, res = Some e ->
    (exists s, In s (lru_slots c) /\ slot_key s = k /\ slot_value s = e) /\
    (exists s, In s (lru_slots c') /\ slot_key s = k /\ slot_value s = e).
Proof.
  unfold lru_get, lru_find, slots_within.
  destruct (List.find (key_is k) (lru_slots c)) as [s|] eqn:Hfind.
  - apply find_key_In in Hfind as [Hin Hk].
    destruct (lru_isStale now c s); intros [= <- <-]; simpl.
    + split; [done|]. split; [done|]. split; [|done].
      intros s' Hs'%In_without. eauto.
    + split; [done|]. split; [done|]. split.
      * intros s' [Hs'%In_without|[<-|[]]]%in_app_iff; simpl; eauto.
      * intros e [= <-]. split; [eauto|].
        eexists. split; [apply in_app_iff; right; by left|]. done.
  - intros [= <- <-]. split; [done|]. split; [done|]. split; [eauto|done].
Qed.

Lemma lru_delete_within k c : slots_within (lru_delete k c) c.
Proof. intros s' Hs'%In_without. eauto. Qed.

Section MemoryTierFacts.
Context (sizeCalculation : CacheEntry -> Z).

Lemma lru_set_slots now k v c s' :
  In s' (lru_slots (lru_set sizeCalculation now k v c)) ->
  (exists s, In s (lru_slots c) /\ slot_key s = slot_key s' /\
             slot_value s = slot_value s') \/
  (slot_key s' = k /\ slot_value s' = v).
Proof.
  unfold lru_set.
  destruct (negb (lru_maxSize c =? 0) && (lru_maxSize c <? sizeCalculation v)).
  - intros Hs'%In_without. eauto.
  - simpl. intros [Hs'|[<-|[]]]%in_app_iff; [left|by right].
    destruct (lru_maxSize c =? 0);
      [|apply In_evict in Hs']; apply In_without in Hs'; eauto.
Qed.

Lemma lru_set_ttl now k v c :
  lru_ttl (lru_set sizeCalculation now k v c) = lru_ttl c.
Proof. unfold lru_set. by destruct (_ && _). Qed.

(** A value that fits is found again while its age is within the TTL. *)
Lemma lru_get_set_fits t0 t1 k v c :
  lru_maxSize c = 0 \/ sizeCalculation v <= lru_maxSize c ->
  t1 - t0 <= lru_ttl c ->
  exists c', lru_get t1 k (lru_set sizeCalculation t0 k v c) = (Some v, c').
Proof.
  intros Hfits Hage. unfold lru_set.
  replace (negb (lru_maxSize c =? 0) && (lru_maxSize c <? sizeCalculation v))
    with false by (symmetry; destruct Hfits as [->|Hle]; [done|];
                   apply andb_false_iff; right; by apply Z.ltb_ge).
  unfold lru_get, lru_find. simpl.
  rewrite find_app_None.
  2:{ destruct (lru_maxSize c =? 0); [|apply find_evict_None];
        apply find_without. }
  simpl. unfold key_is at 1. simpl. rewrite String.eqb_refl.
  unfold lru_isStale. simpl.
  replace (lru_ttl c <? t1 - t0) with false
    by (symmetry; by apply Z.ltb_ge).
  rewrite andb_false_r. eauto.
Qed.

(** A value that does not fit is not kept, and neither is the slot that
    was under its key. *)
Lemma lru_get_set_rejected t0 t1 k v c :
  ~ (lru_maxSize c = 0 \/ sizeCalculation v <= lru_maxSize c) ->
  lru_get t1 k (lru_set sizeCalculation t0 k v c) = (None, lru_delete k c).
Proof.
  intros Hfits. unfold lru_set.
  replace (negb (lru_maxSize c =? 0) && (lru_maxSize c <? sizeCalculation v))
    with true.
  2:{ symmetry. apply andb_true_iff. split.
      - apply negb_true_iff, Z.eqb_neq. tauto.
      - apply Z.ltb_lt. lia. }
  unfold lru_get, lru_find, lru_delete. simpl. by rewrite find_without.
Qed.

End MemoryTierFacts.

(* --------------------------------------------------------------------- *)
(** ** CacheManager: freshness, expiry and round trip *)
(* --------------------------------------------------------------------- *)

Section CacheFacts.
Context (sizeCalculation : CacheEntry -> Z).
Context (sha256_hex : string -> string).

Local Abbreviation get' := (get sizeCalculation sha256_hex).
Local Abbreviation get_disk' := (get_disk sizeCalculation sha256_hex).
Local Abbreviation set' := (set sizeCalculation sha256_hex).
Local Abbreviation stored' := (stored sha256_hex).
Local Abbreviation on_disk' := (on_disk sha256_hex).
Local Abbreviation within := (entries_within sha256_hex).

Lemma entries_within_refl cm : within cm cm.
Proof. repeat split; try done. intros u e H. by left. Qed.

Lemma on_disk_within cm' cm u e :
  within cm' cm -> on_disk' cm' u e -> on_disk' cm u e.
Proof.
  intros (_ & Hdir & _ & _ & Hfiles) H. unfold on_disk, getDiskCachePath in *.
  rewrite <- Hdir. by apply Hfiles.
Qed.

Lemma stored_within cm' cm u e :
  within cm' cm -> stored' cm' u e -> stored' cm u e.
Proof.
  intros Hwithin [Hmem|Hdisk].
  - destruct Hwithin as (_ & _ & _ & Hmemory & _). by apply Hmemory.
  - right. by eapply on_disk_within.
Qed.

Lemma entries_within_trans cm3 cm2 cm1 :
  within cm3 cm2 -> within cm2 cm1 -> within cm3 cm1.
Proof.
  intros H32 H21.
  pose proof H32 as (Httl & Hdir & Hlru & Hmem & Hfiles).
  pose proof H21 as (Httl' & Hdir' & Hlru' & Hmem' & Hfiles').
  repeat split; try congruence.
  - intros u e H. eapply stored_within; [exact H21|]. by apply Hmem.
  - intros path f H. auto.
Qed.

(** Changing the in-memory tier to one that holds nothing new. *)
Lemma set_memory_within c' cm :
  lru_ttl c' = lru_ttl (memoryCache cm) ->
  slots_within c' (memoryCache cm) ->
  within (set_memory c' cm) cm.
Proof.
  intros Hlru Hslots. repeat split; try done.
  intros u e (s' & Hin & Hk & Hv). left.
  destruct (Hslots _ Hin) as (s & Hs & Hks & Hvs).
  exists s. repeat split; congruence.
Qed.

Lemma delete_file_within path cm :
  within (set_files (delete path (files cm)) cm) cm.
Proof.
  repeat split; try done.
  - intros u e H. by left.
  - intros p f H. simpl in H. by apply lookup_delete_Some in H as [_ H].
Qed.

Lemma get_disk_spec now u cm res cm' :
  get_disk' now u cm = (res, cm') ->
  within cm' cm /\
  forall e, res = Some e ->
    fresh cm now e = true /\ on_disk' cm u e /\ on_disk' cm' u e.
Proof.
  unfold get_disk.
  destruct (files cm !! getDiskCachePath sha256_hex cm u) as [[entry|]|]
    eqn:Hfile.
  - destruct (fresh cm now entry) eqn:Hfresh; intros [= <- <-].
    + split.
      * repeat split; try done; [apply lru_set_ttl|].
        intros u' e' (s' & Hin & Hk & Hv). simpl in Hin.
        apply lru_set_slots in Hin as [(s & Hs & Hks & Hvs)|[Hks Hvs]].
        -- left. exists s. repeat split; congruence.
        -- right. unfold on_disk. congruence.
      * intros e [= <-]. repeat split; done.
    + split; [apply delete_file_within | done].
  - intros [= <- <-]. split; [apply delete_file_within | done].
  - intros [= <- <-]. split; [apply entries_within_refl | done].
Qed.

Lemma get_spec now u cm res cm' :
  get' now u cm = (res, cm') ->
  within cm' cm /\
  forall e, res = Some e ->
    fresh cm now e = true /\ stored' cm u e /\ stored' cm' u e.
Proof.
  unfold get.
  destruct (lru_get now u (memoryCache cm)) as [memoryEntry memory'] eqn:Hget.
  apply lru_get_spec in Hget as (Hlru & _ & Hslots & Hsome).
  assert (Hdisk : forall c', lru_ttl c' = lru_ttl (memoryCache cm) ->
    slots_within c' (memoryCache cm) ->
    get_disk' now u (set_memory c' cm) = (res, cm') ->
    within cm' cm /\
    forall e, res = Some e ->
      fresh cm now e = true /\ stored' cm u e /\ stored' cm' u e).
  { intros c' Hc' Hwithin H. apply get_disk_spec in H as [H1 H2].
    pose proof (set_memory_within c' cm Hc' Hwithin) as H0.
    split; [by eapply entries_within_trans|].
    intros e He. destruct (H2 e He) as (Hfresh & Hon & Hon').
    repeat split; [done| |by right].
    eapply stored_within; [exact H0|]. by right. }
  destruct memoryEntry as [memoryEntry|].
  - destruct (fresh cm now memoryEntry) eqn:Hfresh.
    + intros [= <- <-]. split; [by apply set_memory_within|].
      intros e [= <-]. destruct (Hsome _ eq_refl) as [Hin Hin'].
      repeat split; [done|by left|by left].
    + apply Hdisk; [done|].
      intros s' Hs'%In_without. auto.
  - by apply Hdisk.
Qed.

Lemma getEtag_within now u cm :
  within (snd (getEtag now u cm)) cm.
Proof.
  unfold getEtag.
  destruct (lru_get now u (memoryCache cm)) as [entry memory'] eqn:Hget.
  apply lru_get_spec in Hget as (Hlru & _ & Hslots & _).
  by apply set_memory_within.
Qed.

Lemma getLastModified_within now u cm :
  within (snd (getLastModified now u cm)) cm.
Proof.
  unfold getLastModified.
  destruct (lru_get now u (memoryCache cm)) as [entry memory'] eqn:Hget.
  apply lru_get_spec in Hget as (Hlru & _ & Hslots & _).
  by apply set_memory_within.
Qed.

Lemma fresh_iff cm now e : fresh cm now e = true <-> now - timestamp e < ttl cm.
Proof. unfold fresh. apply Z.ltb_lt. Qed.

(** After a [set'] whose durable write went through, both tiers hold, for
    that URL, nothing but the entry just written. *)
Lemma stored_after_set now u doc tag modified cm e :
  stored' (set' now true u doc tag modified cm) u e ->
  e = mkCacheEntry doc tag modified now u.
Proof.
  unfold set. intros [(s & Hin & Hk & Hv)|Hdisk].
  - simpl in Hin. unfold lru_set in Hin.
    destruct (_ && _).
    + apply filter_In in Hin as [_ Hne]. unfold key_is in Hne.
      rewrite Hk, String.eqb_refl in Hne. done.
    + simpl in Hin. apply in_app_iff in Hin as [Hin|[<-|[]]]; [|done].
      assert (In s (without u (lru_slots (memoryCache cm)))) as Hw
        by (destruct (lru_maxSize (memoryCache cm) =? 0);
            [done | by apply In_evict in Hin]).
      apply filter_In in Hw as [_ Hne]. unfold key_is in Hne.
      rewrite Hk, String.eqb_refl in Hne. done.
  - unfold on_disk, getDiskCachePath in Hdisk. simpl in Hdisk.
    rewrite lookup_insert_eq in Hdisk. congruence.
Qed.

(** C4.  [get'] returns an entry only while it is fresh, that is while
    [now - timestamp < ttl]; when every entry held for the URL is past
    the TTL, and in particular once the TTL has passed since the entry
    was written, [get'] returns nothing.  A successful [get'] hands back an
    entry that was stored', keeps it stored', and leaves no entry or
    timestamp in the store that was not there before: expiry is measured
    from the write. *)
Theorem get_returns_fresh_entries_only :
  (forall now u cm e cm',
     get sizeCalculation sha256_hex now u cm = (Some e, cm') ->
     now - timestamp e < ttl cm)
  /\
  (forall now u cm,
     (forall e, stored sha256_hex cm u e -> ttl cm <= now - timestamp e) ->
     fst (get sizeCalculation sha256_hex now u cm) = None)
  /\
  (forall t0 t1 u doc tag modified cm,
     ttl cm <= t1 - t0 ->
     fst (get sizeCalculation sha256_hex t1 u
            (set sizeCalculation sha256_hex t0 true u doc tag modified cm))
     = None)
  /\
  (forall now u cm e cm',
     get sizeCalculation sha256_hex now u cm = (Some e, cm') ->
     stored sha256_hex cm u e /\ stored sha256_hex cm' u e /\
     ttl cm' = ttl cm /\
     forall u' e', stored sha256_hex cm' u' e' -> stored sha256_hex cm u' e').
Proof.
  assert (Hexpired : forall now u cm,
    (forall e, stored' cm u e -> ttl cm <= now - timestamp e) ->
    fst (get' now u cm) = None).
  { intros now u cm Hstale.
    destruct (get' now u cm) as [[e|] cm'] eqn:Hget; [|done].
    apply get_spec in Hget as [_ Hsome].
    destruct (Hsome e eq_refl) as (Hfresh%fresh_iff & Hstored & _).
    apply Hstale in Hstored. lia. }
  split; [|split; [exact Hexpired|split]].
  - intros now u cm e cm' Hget. apply get_spec in Hget as [_ Hsome].
    destruct (Hsome e eq_refl) as (Hfresh & _). by apply fresh_iff.
  - intros t0 t1 u doc tag modified cm Hpast. apply Hexpired.
    intros e ->%stored_after_set. simpl.
    unfold set. simpl. lia.
  - intros now u cm e cm' Hget. apply get_spec in Hget as [Hwithin Hsome].
    destruct (Hsome e eq_refl) as (_ & Hstored & Hstored').
    repeat split; [done..|apply Hwithin|].
    intros u' e'. by apply stored_within.
Qed.

(** C8, amended.  Storing a document with [set] and reading the URL back
    before the TTL has run out yields an entry with the document and the
    revalidation tokens just stored; its timestamp is the time of the
    [set].  One of the two tiers has to take the write: the durable write
    goes through, or the entry fits the in-memory budget. *)
Theorem set_then_get_round_trip :
  forall (t0 t1 : Time) (written : bool) (u : string) (doc : OpenAPISpec)
         (tag modified : option string) (cm : CacheManager),
    same_ttl cm ->
    t1 - t0 < ttl cm ->
    written = true \/
      fits_memory sizeCalculation cm (mkCacheEntry doc tag modified t0 u) ->
    exists e cm',
      get sizeCalculation sha256_hex t1 u
        (set sizeCalculation sha256_hex t0 written u doc tag modified cm)
      = (Some e, cm') /\
      spec e = doc /\ etag e = tag /\ lastModified e = modified /\
      url e = u /\ timestamp e = t0.
Proof.
  intros t0 t1 written u doc tag modified cm Httl Hage Htier.
  set (entry := mkCacheEntry doc tag modified t0 u).
  assert (Hkeeps :
    ttl (set' t0 written u doc tag modified cm) = ttl cm /\
    memoryCache (set' t0 written u doc tag modified cm)
    = lru_set sizeCalculation t0 u entry (memoryCache cm))
    by (unfold set; destruct written; done).
  destruct Hkeeps as [Hsame_ttl Hmemory].
  assert (Hfresh : fresh (set' t0 written u doc tag modified cm) t1 entry = true)
    by (apply fresh_iff; rewrite Hsame_ttl; done).
  unfold get. rewrite Hmemory.
  destruct (decide (lru_maxSize (memoryCache cm) = 0 \/
                    sizeCalculation entry <= lru_maxSize (memoryCache cm)))
    as [Hfits|Hbig].
  - destruct (lru_get_set_fits sizeCalculation t0 t1 u entry (memoryCache cm))
      as [c' ->]; [done | rewrite Httl; lia |].
    rewrite Hfresh. exists entry. eexists. split; [reflexivity|]. done.
  - rewrite lru_get_set_rejected by done.
    destruct Htier as [->|Hfits]; [|done].
    unfold get_disk, set, getDiskCachePath. simpl.
    rewrite lookup_insert_eq.
    replace (fresh _ t1 entry) with true
      by (symmetry; apply fresh_iff; done).
    exists entry. eexists. split; [reflexivity|]. done.
Qed.

End CacheFacts.

(* --------------------------------------------------------------------- *)
(** ** The retry loop *)
(* --------------------------------------------------------------------- *)

Lemma requests_cons_request n trace :
  requests (Request n :: trace) = n :: requests trace.
Proof. reflexivity. Qed.

Lemma delays_cons_request n trace :
  delays (Request n :: trace) = delays trace.
Proof. reflexivity. Qed.

Lemma requests_app t1 t2 : requests (t1 ++ t2) = requests t1 ++ requests t2.
Proof. unfold requests. apply flat_map_app. Qed.

Lemma delays_app t1 t2 : delays (t1 ++ t2) = delays t1 ++ delays t2.
Proof. unfold delays. apply flat_map_app. Qed.

Section RetryFacts.
Context (client : OpenAPIClient).
Context (network : nat -> NetReply).
Context (validateStatus : Z -> bool).
Context (Hrejects : rejects_errors validateStatus).

Local Abbreviation loop := (retry_loop client network validateStatus).
Local Abbreviation n := (retryAttempts client).

Lemma axios_get_transient reply :
  transient_failure reply ->
  axios_get validateStatus reply = Throw (failure_of reply) /\
  is_client_error (failure_of reply) = false.
Proof.
  destruct reply as [response|reason]; simpl; [|done].
  intros Hst. rewrite Hrejects by lia. split; [done|].
  apply andb_false_iff. right. apply Z.ltb_ge. lia.
Qed.

Lemma axios_get_client_error reply :
  client_error reply ->
  axios_get validateStatus reply = Throw (failure_of reply) /\
  is_client_error (failure_of reply) = true.
Proof.
  destruct reply as [response|reason]; simpl; [|done].
  intros [Hlo Hhi]. rewrite Hrejects by lia. split; [done|].
  apply andb_true_iff. split; [by apply Z.leb_le | by apply Z.ltb_lt].
Qed.


Lemma loop_all_transient remaining : forall attempt lastError,
  (remaining + attempt = n)%nat ->
  (forall i, (attempt <= i < n)%nat -> transient_failure (network i)) ->
  loop remaining attempt lastError
  = (Throw (match remaining with
            | O => lastError
            | S _ => failure_of (network (n - 1))
            end),
     snd (loop remaining attempt lastError)) /\
  requests (snd (loop remaining attempt lastError)) = seq attempt remaining /\
  delays (snd (loop remaining attempt lastError))
  = map (backoff client) (seq attempt (remaining - 1)).
Proof.
  induction remaining as [|remaining IH]; intros attempt lastError Hn Hnet;
    simpl; [done|].
  destruct (axios_get_transient (network attempt)) as [-> ->];
    [apply Hnet; lia|].
  destruct (IH (S attempt) (failure_of (network attempt)) ltac:(lia))
    as (Hres & Hreq & Hdel); [intros i Hi; apply Hnet; lia|].
  destruct (loop remaining (S attempt) (failure_of (network attempt)))
    as [result later] eqn:Hloop.
  cbn [snd] in *. injection Hres as ->.
  rewrite requests_cons_request, delays_cons_request, requests_app,
    delays_app, Hreq, Hdel.
  destruct remaining as [|remaining].
  - replace (S attempt <? n)%nat with false
      by (symmetry; apply Nat.ltb_ge; lia).
    simpl. replace (n - 1)%nat with attempt by lia. done.
  - replace (S attempt <? n)%nat with true
      by (symmetry; apply Nat.ltb_lt; lia).
    simpl. by rewrite Nat.sub_0_r.
Qed.

Lemma loop_client_error remaining : forall attempt lastError k,
  (remaining + attempt = n)%nat ->
  (attempt <= k < n)%nat ->
  (forall i, (attempt <= i < k)%nat -> transient_failure (network i)) ->
  client_error (network k) ->
  loop remaining attempt lastError
  = (Throw (failure_of (network k)),
     snd (loop remaining attempt lastError)) /\
  requests (snd (loop remaining attempt lastError))
  = seq attempt (S k - attempt) /\
  delays (snd (loop remaining attempt lastError))
  = map (backoff client) (seq attempt (k - attempt)).
Proof.
  induction remaining as [|remaining IH]; intros attempt lastError k Hn Hk
    Hnet Hclient; [lia|]. simpl.
  destruct (decide (attempt = k)) as [->|Hne].
  - destruct (axios_get_client_error (network k)) as [-> ->]; [done|].
    simpl. rewrite Nat.sub_diag.
    replace (S k - k)%nat with 1%nat by lia. done.
  - destruct (axios_get_transient (network attempt)) as [-> ->];
      [apply Hnet; lia|].
    destruct (IH (S attempt) (failure_of (network attempt)) k ltac:(lia))
      as (Hres & Hreq & Hdel); [lia|intros i Hi; apply Hnet; lia|done|].
    destruct (loop remaining (S attempt) (failure_of (network attempt)))
      as [result later] eqn:Hloop.
    cbn [snd] in *. injection Hres as ->.
    rewrite requests_cons_request, delays_cons_request, requests_app,
      delays_app, Hreq, Hdel.
    replace (S attempt <? n)%nat with true
      by (symmetry; apply Nat.ltb_lt; lia).
    assert (E1 : (S k - attempt = S (S k - S attempt))%nat) by lia.
    assert (E2 : (k - attempt = S (k - S attempt))%nat) by lia.
    split; [done|]. split.
    + rewrite E1. reflexivity.
    + rewrite E2. reflexivity.
Qed.

End RetryFacts.

Lemma backoff_increasing client i j :
  0 < retryDelay client -> (i < j)%nat -> backoff client i < backoff client j.
Proof.
  intros Hd Hij. unfold backoff.
  apply Z.mul_lt_mono_pos_l; [done|].
  apply Z.pow_lt_mono_r; lia.
Qed.

Lemma backoff_schedule_sorted client start len :
  0 < retryDelay client ->
  StronglySorted Z.lt (map (backoff client) (seq start len)).
Proof.
  intros Hd. revert start. induction len as [|len IH]; intros start; simpl.
  - constructor.
  - constructor; [apply IH|].
    apply List.Forall_forall. intros ms (j & <- & Hj%in_seq)%in_map_iff.
    apply backoff_increasing; [done|lia].
Qed.

Lemma backoff_schedule_nth client len : forall start i ms,
  nth_error (map (backoff client) (seq start len)) i = Some ms ->
  ms = backoff client (start + i).
Proof.
  induction len as [|len IH]; intros start i ms; simpl.
  - destruct i; discriminate.
  - destruct i as [|i]; simpl.
    + intros [= <-]. by rewrite Nat.add_0_r.
    + intros H. apply IH in H. by rewrite Nat.add_succ_r.
Qed.

Lemma fetchSpec_validateStatus_rejects_errors :
  rejects_errors fetchSpec_validateStatus.
Proof.
  intros st Hst. unfold fetchSpec_validateStatus.
  apply orb_false_iff. split; [apply Z.ltb_ge | apply Z.eqb_neq]; lia.
Qed.

Lemma default_validateStatus_rejects_errors :
  rejects_errors default_validateStatus.
Proof.
  intros st Hst. unfold default_validateStatus.
  apply andb_false_iff. right. apply Z.ltb_ge. lia.
Qed.

Section RetrySchedule.
Context (client : OpenAPIClient).
Context (network : nat -> NetReply).
Context (validateStatus : Z -> bool).

Lemma requests_schedule made : forall start,
  requests (schedule client start made) = seq start made.
Proof.
  induction made as [|made IH]; intros start; [done|].
  destruct made as [|made]; [done|].
  change (schedule client start (S (S made)))
    with (Request start :: Delay (backoff client start)
          :: schedule client (S start) (S made)).
  change (requests (Request start :: Delay (backoff client start)
                    :: schedule client (S start) (S made)))
    with (start :: requests (schedule client (S start) (S made))).
  by rewrite IH.
Qed.

Lemma delays_schedule made : forall start,
  delays (schedule client start made)
  = map (backoff client) (seq start (made - 1)).
Proof.
  induction made as [|made IH]; intros start; [done|].
  destruct made as [|made]; [done|].
  change (schedule client start (S (S made)))
    with (Request start :: Delay (backoff client start)
          :: schedule client (S start) (S made)).
  change (delays (Request start :: Delay (backoff client start)
                  :: schedule client (S start) (S made)))
    with (backoff client start
          :: delays (schedule client (S start) (S made))).
  rewrite IH. simpl. by rewrite Nat.sub_0_r.
Qed.

(** Whatever the network does, a run is a schedule: the delay after an
    attempt is waited exactly when another attempt follows. *)
Lemma loop_schedule remaining : forall attempt lastError,
  (remaining + attempt = retryAttempts client)%nat ->
  exists made,
    (made <= remaining)%nat /\ (remaining <> 0 -> made <> 0)%nat /\
    snd (retry_loop client network validateStatus remaining attempt lastError)
    = schedule client attempt made.
Proof.
  induction remaining as [|remaining IH]; intros attempt lastError Hn; simpl.
  - exists 0%nat. done.
  - destruct (axios_get validateStatus (network attempt)) as [response|error].
    { exists 1%nat. simpl. repeat split; [lia|done]. }
    destruct (is_client_error error).
    { exists 1%nat. simpl. repeat split; [lia|done]. }
    destruct (IH (S attempt) error ltac:(lia)) as (made & Hle & Hpos & Htrace).
    destruct (retry_loop client network validateStatus remaining (S attempt)
                error) as [result later].
    cbn [snd] in *. subst later. exists (S made).
    split; [lia|]. split; [done|].
    destruct (S attempt <? retryAttempts client)%nat eqn:Hlast.
    + apply Nat.ltb_lt in Hlast.
      destruct made as [|made]; [exfalso; apply Hpos; [lia|done]|].
      reflexivity.
    + apply Nat.ltb_ge in Hlast.
      assert (made = 0)%nat as -> by lia. reflexivity.
Qed.

End RetrySchedule.

(** C5.  With a positive base delay, whatever the network does, a run of
    [fetchWithRetry] is a schedule of at most [retryAttempts] attempts:
    request, delay, request, and so on, where the delay between attempt
    [i] and the next one is [retryDelay * 2^i], so that the delays are
    strictly increasing, and nothing follows the last request.  When
    every attempt fails transiently (no response, or a 5xx status) all
    [retryAttempts] attempts are made and the last failure is thrown.
    When an attempt is answered with a 4xx status, that failure is thrown
    from that attempt and the run ends with its request: no delay and no
    request follows it. *)
Theorem retry_policy :
  forall (client : OpenAPIClient) (network : nat -> NetReply)
         (validateStatus : Z -> bool),
    rejects_errors validateStatus ->
    0 < retryDelay client ->
    let run := fetchWithRetry client network validateStatus in
    let n := retryAttempts client in
    (exists made, (made <= n)%nat /\ snd run = schedule client 0 made)
    /\
    StronglySorted Z.lt (delays (snd run))
    /\
    (forall i ms, nth_error (delays (snd run)) i = Some ms ->
                  ms = retryDelay client * 2 ^ Z.of_nat i)
    /\
    ((forall i, (i < n)%nat -> transient_failure (network i)) ->
       snd run = schedule client 0 n /\
       fst run = Throw (match n with
                        | O => Undefined
                        | S _ => failure_of (network (n - 1)%nat)
                        end))
    /\
    (forall k, (k < n)%nat ->
       (forall i, (i < k)%nat -> transient_failure (network i)) ->
       client_error (network k) ->
       fst run = Throw (failure_of (network k)) /\
       snd run = schedule client 0 (S k)).
Proof.
  intros client network validateStatus Hrejects Hdelay run n.
  unfold run, fetchWithRetry. fold n.
  destruct (loop_schedule client network validateStatus n 0 Undefined)
    as (made & Hmade & _ & Htrace); [unfold n; lia|].
  assert (Hsame : forall m,
    requests (snd (retry_loop client network validateStatus n 0 Undefined))
    = seq 0 m ->
    snd (retry_loop client network validateStatus n 0 Undefined)
    = schedule client 0 m).
  { intros m Hreq. rewrite Htrace in *. rewrite requests_schedule in Hreq.
    apply (f_equal (@length nat)) in Hreq. rewrite !length_seq in Hreq.
    by subst m. }
  split; [|split; [|split; [|split]]].
  - eauto.
  - rewrite Htrace, delays_schedule. by apply backoff_schedule_sorted.
  - intros i ms H. rewrite Htrace, delays_schedule in H.
    by apply backoff_schedule_nth in H.
  - intros Hnet.
    destruct (loop_all_transient client network validateStatus Hrejects
                n 0 Undefined) as (Hres & Hreq' & Hdel');
      [unfold n; lia | intros i Hi; apply Hnet; lia |].
    fold n in Hres. split; [by apply Hsame|]. by rewrite Hres.
  - intros k Hk Hnet Hclient.
    destruct (loop_client_error client network validateStatus Hrejects
                n 0 Undefined k) as (Hres & Hreq' & Hdel');
      [unfold n; lia | lia | intros i Hi; apply Hnet; lia | done |].
    rewrite Nat.sub_0_r in Hreq'. split; [by rewrite Hres|by apply Hsame].
Qed.

Lemma retry_policy_witness :
  let client := mkClient 30000 3 1000 in
  let network (attempt : nat) :=
    match attempt with
    | 1%nat => Replied (mkResponse 404 ∅ (DataString "Not Found"))
    | _ => NoReply "ECONNRESET"
    end in
  let run := fetchWithRetry client network fetchSpec_validateStatus in
  0 < retryDelay client /\
  fst run
  = Throw (AxiosError (Some 404) "Request failed with status code 404") /\
  snd run = [Request 0; Delay 1000; Request 1].
Proof.
  intros client network run. split; [done|].
  destruct (retry_policy client network fetchSpec_validateStatus
              fetchSpec_validateStatus_rejects_errors eq_refl)
    as (_ & _ & _ & _ & Hclient).
  apply (Hclient 1%nat).
  - unfold client. simpl. lia.
  - intros i Hi. assert (i = 0)%nat as -> by lia. exact I.
  - simpl. lia.
Defined.

(** Three attempts against a server that keeps answering 503: delays of
    one and two seconds, then the failure. *)
Example three_attempts_then_failure :
  fetchWithRetry (mkClient 30000 3 1000)
    (fun _ => Replied (mkResponse 503 ∅ (DataString "Service Unavailable")))
    fetchSpec_validateStatus
  = (Throw (AxiosError (Some 503) "Request failed with status code 503"),
     [Request 0; Delay 1000; Request 1; Delay 2000; Request 2]).
Proof. reflexivity. Qed.

(* --------------------------------------------------------------------- *)
(** ** [fetchSpec] when the request fails *)
(* --------------------------------------------------------------------- *)

Section FetchFallback.
Context (sizeCalculation : CacheEntry -> Z).
Context (sha256_hex : string -> string).
Context (parsers : Parsers).
Context (client : OpenAPIClient).

Local Abbreviation get' := (get sizeCalculation sha256_hex).
Local Abbreviation stored' := (stored sha256_hex).
Local Abbreviation on_disk' := (on_disk sha256_hex).
Local Abbreviation within := (entries_within sha256_hex).
Local Abbreviation fetchSpec' :=
  (fetchSpec sizeCalculation sha256_hex parsers client).

(** The conditional-request lookups touch the in-memory tier only. *)
Lemma getEtag_files now u cm :
  files (snd (getEtag now u cm)) = files cm /\
  ttl (snd (getEtag now u cm)) = ttl cm /\
  cacheDir (snd (getEtag now u cm)) = cacheDir cm.
Proof. unfold getEtag. by destruct (lru_get now u (memoryCache cm)). Qed.

Lemma getLastModified_files now u cm :
  files (snd (getLastModified now u cm)) = files cm /\
  ttl (snd (getLastModified now u cm)) = ttl cm /\
  cacheDir (snd (getLastModified now u cm)) = cacheDir cm.
Proof. unfold getLastModified. by destruct (lru_get now u (memoryCache cm)). Qed.

(** A fresh entry on disk makes [get] return an entry. *)
Lemma get_finds_fresh_file now u cm e :
  on_disk' cm u e -> now - timestamp e < ttl cm ->
  exists e' cm', get' now u cm = (Some e', cm').
Proof.
  intros Hdisk Hfresh%fresh_iff. unfold get.
  assert (Hget_disk : forall c',
    exists e' cm',
      get_disk sizeCalculation sha256_hex now u (set_memory c' cm)
      = (Some e', cm')).
  { intros c'. unfold get_disk, on_disk, getDiskCachePath in *. simpl.
    rewrite Hdisk.
    replace (fresh (set_memory c' cm) now e) with true by done. eauto. }
  destruct (lru_get now u (memoryCache cm)) as [[memoryEntry|] memory'];
    [|apply Hget_disk].
  destruct (fresh cm now memoryEntry); [eauto | apply Hget_disk].
Qed.

(** When the request fails, [fetchSpec] ends in its [catch] block, on a
    cache that holds nothing new and, for a forced refresh, the files it
    held. *)
Lemma fetchSpec_failed_request now0 now1 network written u forceRefresh cm :
  forceRefresh = true \/ fst (get' now0 u cm) = None ->
  (forall request_headers, exists error,
     fst (fetchWithRetry client (network request_headers)
            fetchSpec_validateStatus) = Throw error) ->
  exists error cm3,
    fetchSpec' now0 now1 network written u forceRefresh cm
    = fetchSpec_catch sizeCalculation sha256_hex now1 u error cm3 /\
    within cm3 cm /\
    (forceRefresh = true -> files cm3 = files cm).
Proof.
  intros Hmiss Hfails. unfold fetchSpec.
  assert (Hlookup : exists cm1,
    (if forceRefresh then (None, cm) else get' now0 u cm) = (None, cm1) /\
    within cm1 cm /\ (forceRefresh = true -> files cm1 = files cm)).
  { destruct forceRefresh.
    - exists cm. split; [done|]. split; [apply entries_within_refl|done].
    - destruct Hmiss as [?|Hmiss]; [done|].
      destruct (get' now0 u cm) as [res cm1] eqn:Hget. simpl in Hmiss.
      subst res. exists cm1. split; [done|].
      apply get_spec in Hget as [Hwithin _]. split; [done|]. done. }
  destruct Hlookup as (cm1 & -> & Hwithin1 & Hfiles1).
  pose proof (getEtag_within sha256_hex now0 u cm1) as Hwithin2.
  pose proof (getEtag_files now0 u cm1) as (Hfiles2 & _).
  destruct (getEtag now0 u cm1) as [tag cm2]. simpl in *.
  pose proof (getLastModified_within sha256_hex now0 u cm2) as Hwithin3.
  pose proof (getLastModified_files now0 u cm2) as (Hfiles3 & _).
  destruct (getLastModified now0 u cm2) as [modified cm3]. simpl in *.
  match goal with
  | |- context [fetchWithRetry client (network ?h) _] =>
      destruct (Hfails h) as [error ->]
  end.
  exists error, cm3. split; [done|]. split.
  - eapply entries_within_trans; [exact Hwithin3|].
    eapply entries_within_trans; [exact Hwithin2|exact Hwithin1].
  - intros Hforce. rewrite Hfiles3, Hfiles2. auto.
Qed.

(** C1, amended.  When the request fails after its retries, [fetchSpec]
    falls back on what [CacheManager.get] still returns: a document it
    returns is the document of an entry that was stored for the URL and
    is fresh ([now - timestamp < ttl]); when every entry stored for the
    URL is past the TTL the failure is raised, although entries exist;
    and on a forced refresh a fresh entry on disk is served instead of
    the failure. *)
Theorem fetchSpec_falls_back_on_fresh_entries :
  forall (now0 now1 : Time)
         (network : list (string * string) -> nat -> NetReply)
         (written : bool) (u : string) (forceRefresh : bool)
         (cm : CacheManager),
    forceRefresh = true \/
      fst (get sizeCalculation sha256_hex now0 u cm) = None ->
    (forall request_headers, exists error,
       fst (fetchWithRetry client (network request_headers)
              fetchSpec_validateStatus) = Throw error) ->
    let outcome :=
      fst (fetchSpec sizeCalculation sha256_hex parsers client now0 now1
             network written u forceRefresh cm) in
    (forall doc, outcome = Ok doc ->
       exists e, stored sha256_hex cm u e /\ spec e = doc /\
                 now1 - timestamp e < ttl cm)
    /\
    ((forall e, stored sha256_hex cm u e -> ttl cm <= now1 - timestamp e) ->
       exists error,
         outcome = Throw (Error ("Failed to fetch OpenAPI spec: "
                                 +:+ error_toString error)))
    /\
    (forceRefresh = true ->
       (exists e, on_disk sha256_hex cm u e /\ now1 - timestamp e < ttl cm) ->
       exists doc, outcome = Ok doc).
Proof.
  intros now0 now1 network written u forceRefresh cm Hmiss Hfails outcome.
  destruct (fetchSpec_failed_request now0 now1 network written u forceRefresh
              cm Hmiss Hfails) as (error & cm3 & Hfetch & Hwithin & Hfiles).
  unfold outcome. rewrite Hfetch. unfold fetchSpec_catch.
  pose proof Hwithin as (Httl & Hdir & _).
  destruct (get' now1 u cm3) as [[cached|] cm4] eqn:Hget; simpl.
  - apply get_spec in Hget as [_ Hsome].
    destruct (Hsome cached eq_refl) as (Hfresh%fresh_iff & Hstored & _).
    assert (Hcached : stored' cm u cached /\ now1 - timestamp cached < ttl cm)
      by (split; [by eapply stored_within | by rewrite <- Httl]).
    split; [|split].
    + intros doc [= <-]. exists cached. tauto.
    + intros Hstale. destruct Hcached as [Hst Hfr]. apply Hstale in Hst. lia.
    + eauto.
  - split; [done|]. split; [eauto|].
    intros Hforce (e & Hdisk & Hfresh). exfalso.
    destruct (get_finds_fresh_file now1 u cm3 e) as (e' & cm' & Hfound).
    + unfold on_disk, getDiskCachePath in *.
      rewrite Hdir, Hfiles by done. exact Hdisk.
    + by rewrite Httl.
    + congruence.
Qed.

End FetchFallback.

(** C1 as stated fails: an entry is cached for the URL, it is older than
    the TTL, every attempt to reach the server fails, and [fetchSpec]
    raises instead of returning the cached document. *)
Lemma fetchSpec_raises_despite_stale_entry :
  let now := 4000000 in
  let client := mkClient 30000 3 1000 in
  stored (fun u => u) example_cache example_url example_entry /\
  ttl example_cache <= now - timestamp example_entry /\
  (forall forceRefresh,
     fst (fetchWithRetry client (unreachable []) fetchSpec_validateStatus)
     = Throw (AxiosError None "connect ECONNREFUSED") /\
     fst (fetchSpec (fun _ => 100) (fun u => u) example_parsers client
            now now unreachable true example_url forceRefresh example_cache)
     = Throw (Error ("Failed to fetch OpenAPI spec: "
                     +:+ "Error: connect ECONNREFUSED"))).
Proof.
  intros now client. split; [right; reflexivity|]. split; [done|].
  intros [|]; split; reflexivity.
Qed.

Lemma fetchSpec_falls_back_on_fresh_entries_witness :
  let now := 1000000 in
  let client := mkClient 30000 3 1000 in
  exists doc,
    fst (fetchSpec (fun _ => 100) (fun u => u) example_parsers client
           now now unreachable true example_url true example_cache) = Ok doc.
Proof.
  intros now client.
  destruct (fetchSpec_falls_back_on_fresh_entries (fun _ => 100) (fun u => u)
              example_parsers client now now unreachable true example_url true
              example_cache) as (_ & _ & Hserved).
  - by left.
  - intros request_headers. eexists. reflexivity.
  - apply Hserved; [done|]. exists example_entry. split; reflexivity.
Defined.

Lemma get_returns_fresh_entries_only_witness :
  let now := 1000000 in
  fst (get (fun _ => 100) (fun u => u) now example_url example_cache)
    = Some example_entry /\
  now - timestamp example_entry < ttl example_cache /\
  fst (get (fun _ => 100) (fun u => u) 3600000 example_url example_cache)
    = None.
Proof.
  intros now.
  destruct (get_returns_fresh_entries_only (fun _ => 100) (fun u => u))
    as (Hfresh & Hexpired & _).
  split; [reflexivity|]. split.
  - apply (Hfresh now example_url example_cache example_entry
             (snd (get (fun _ => 100) (fun u => u) now example_url
                     example_cache))).
    reflexivity.
  - apply Hexpired. intros e [(s & [] & _)|Hdisk].
    unfold on_disk in Hdisk. vm_compute in Hdisk. injection Hdisk as <-.
    simpl. unfold example_cache. simpl. lia.
Defined.

Lemma set_then_get_round_trip_witness :
  exists e cm',
    get (fun _ => 100) (fun u => u) 60000 example_url
      (set (fun _ => 100) (fun u => u) 59000 false example_url signup_doc
         (Some "v2") (Some "Tue, 03 Nov 2026 07:00:00 GMT") example_cache)
    = (Some e, cm') /\
    spec e = signup_doc /\ etag e = Some "v2" /\
    lastModified e = Some "Tue, 03 Nov 2026 07:00:00 GMT" /\
    url e = example_url /\ timestamp e = 59000.
Proof.
  apply (set_then_get_round_trip (fun _ => 100) (fun u => u)).
  - reflexivity.
  - unfold example_cache. simpl. lia.
  - right. right. unfold example_cache. simpl. lia.
Defined.

(** C8 as stated fails: with a TTL of zero, which the configuration
    accepts, no entry is ever fresh, and the [get] that follows a [set]
    at once returns nothing although the entry was written to both
    tiers.  It also fails, under the default TTL, when neither tier takes
    the write: the entry is larger than the in-memory budget and the
    file cannot be written. *)
Lemma set_then_get_misses_when_ttl_is_zero :
  let disabled := mkConfig 0 "/cache" 100 30000 3 1000 in
  let stored_cm :=
    set (fun _ => 100) (fun u => u) 59000 true example_url signup_doc
      (Some "v2") None (server_cacheManager disabled ∅) in
  let small := mkConfig 3600 "/cache" 1 30000 3 1000 in
  let unwritten_cm :=
    set (fun _ => 2000000) (fun u => u) 59000 false example_url signup_doc
      (Some "v2") None (server_cacheManager small ∅) in
  (ConfigSchema disabled = true /\
   on_disk (fun u => u) stored_cm example_url
     (mkCacheEntry signup_doc (Some "v2") None 59000 example_url) /\
   fst (get (fun _ => 100) (fun u => u) 59000 example_url stored_cm) = None)
  /\
  (ConfigSchema small = true /\
   fst (get (fun _ => 2000000) (fun u => u) 59000 example_url unwritten_cm)
   = None).
Proof. repeat split; reflexivity. Qed.

(** The constructor establishes [same_ttl]; [get] and [set] keep it. *)
Lemma CacheManager_new_same_ttl dir ttl_s maxSize_mb found :
  same_ttl (CacheManager_new dir ttl_s maxSize_mb found).
Proof. reflexivity. Qed.

Lemma set_same_ttl sizeCalculation sha256_hex now written u doc tag modified cm :
  same_ttl cm ->
  same_ttl (set sizeCalculation sha256_hex now written u doc tag modified cm).
Proof.
  unfold same_ttl, set. intros H.
  destruct written; simpl; by rewrite lru_set_ttl.
Qed.

Lemma get_same_ttl sizeCalculation sha256_hex now u cm :
  same_ttl cm -> same_ttl (snd (get sizeCalculation sha256_hex now u cm)).
Proof.
  unfold same_ttl. intros H.
  destruct (get sizeCalculation sha256_hex now u cm) as [res cm'] eqn:Hget.
  apply get_spec in Hget as [(Httl & _ & Hlru & _) _]. simpl. congruence.
Qed.

(** A configuration that [ConfigSchema] accepts gives the client a
    positive base delay, and the cache manager one TTL for both tiers. *)
Lemma configured_retryDelay_positive (c : Config) :
  ConfigSchema c = true -> 0 < retryDelay (server_openApiClient c).
Proof.
  unfold ConfigSchema. intros H.
  apply andb_true_iff in H as [_ H]. apply Z.leb_le in H. simpl. lia.
Qed.

Lemma configured_same_ttl (c : Config) found :
  same_ttl (server_cacheManager c found).
Proof. reflexivity. Qed.

(* ===================================================================== *)
(** * Further properties of the code *)
(* ===================================================================== *)

(* --------------------------------------------------------------------- *)
(** ** The type check of the schema validator *)
(* --------------------------------------------------------------------- *)

Lemma type_is_of schema t t' :
  s_type schema = Some t -> type_is schema t' = String.eqb t t'.
Proof. unfold type_is. by intros ->. Qed.

Lemma actualType_not_integer value :
  String.eqb "integer" (actualType value) = false.
Proof. by destruct value. Qed.

Section TypeCheck.
Context (host : Host).

(** X1.  [actualType] is never ['integer'], so a schema of type
    ['integer'] reports a type error for every value, whole numbers
    included; the validator does not throw on such a schema. *)
Theorem integer_schema_rejects_every_value :
  forall (value : JsValue) (schema : Schema) (fieldName : string),
    s_type schema = Some "integer" ->
    exists rest,
      validateAgainstSchema host value schema fieldName
      = Ok (("Expected type 'integer' but got '" +:+ actualType value +:+ "'")
            :: rest).
Proof.
  intros value schema fieldName Htype.
  unfold validateAgainstSchema, check_type, check_string, check_object.
  rewrite !(type_is_of schema "integer") by done.
  rewrite Htype, actualType_not_integer.
  destruct value; simpl; eauto.
Qed.

(** X2.  When the declared type differs from the type of the value, the
    constraints of the declared type are not looked at: the errors are the
    type error followed by the enum error, if any.  (The one exception is
    a number under type ['integer'], whose numeric constraints are still
    checked.) *)
Theorem type_mismatch_skips_constraints :
  forall (value : JsValue) (schema : Schema) (fieldName t : string),
    s_type schema = Some t ->
    t <> EmptyString ->
    t <> actualType value ->
    t <> "integer" ->
    validateAgainstSchema host value schema fieldName
    = Ok (("Expected type '" +:+ t +:+ "' but got '" +:+ actualType value
           +:+ "'") :: check_enum host value schema).
Proof.
  intros value schema fieldName t Htype Hne Hdiff Hint.
  assert (Hneq : forall t', t' = actualType value -> String.eqb t t' = false)
    by (intros t' ->; by apply String.eqb_neq).
  assert (Hinteger : String.eqb t "integer" = false)
    by (by apply String.eqb_neq).
  unfold validateAgainstSchema, check_type, check_string, check_number,
    check_array, check_object.
  rewrite !(type_is_of schema t) by done.
  rewrite Htype. replace (truthy_string (Some t)) with true
    by (destruct t; [done|reflexivity]).
  rewrite (Hneq (actualType value) eq_refl). simpl.
  destruct value;
    pose proof (Hneq _ eq_refl) as Hx; simpl in Hx; rewrite ?Hx, ?Hinteger;
    simpl; destruct (String.eqb t "object"); simpl;
    by rewrite ?app_nil_r.
Qed.

(** X3.  [enum] is tested with [includes], which compares arrays and
    objects by identity: a value that is an array or an object is
    rejected by every enum, and an empty enum rejects every value. *)
Theorem enum_rejects_structured_values :
  forall (value : JsValue) (schema : Schema) (fieldName : string)
         (allowed : list JsValue) (msgs : list string),
    s_enum schema = Some allowed ->
    allowed = [] \/ isArray value = true \/ (exists props, value = JObj props) ->
    validateAgainstSchema host value schema fieldName = Ok msgs ->
    In ("Value must be one of: " +:+ join_values host ", " allowed) msgs.
Proof.
  intros value schema fieldName allowed msgs Henum Hcase H.
  unfold validateAgainstSchema in H. inv_bind H. inv_bind H.
  injection H as <-.
  rewrite !in_app_iff. do 4 right. left.
  unfold check_enum. rewrite Henum.
  assert (includes allowed value = false) as ->; [|by left].
  destruct Hcase as [Hempty|[Harr|[props Hobj]]].
  - by rewrite Hempty.
  - destruct value; try discriminate. unfold includes. clear Henum.
    induction allowed as [|x xs IH]; simpl; [done|]. by destruct x.
  - rewrite Hobj. unfold includes. clear Henum.
    induction allowed as [|x xs IH]; simpl; [done|]. by destruct x.
Qed.

End TypeCheck.

Lemma integer_schema_rejects_every_value_witness :
  exists rest,
    validateAgainstSchema exampleHost (JNum (Qc_of_Z 5))
      (mkSchema None (Some "integer") None None None None None None None None
         None None None None None None None None None None None None None)
      "limit"
    = Ok ("Expected type 'integer' but got 'number'" :: rest).
Proof.
  apply (integer_schema_rejects_every_value exampleHost (JNum (Qc_of_Z 5))).
  reflexivity.
Defined.

Lemma type_mismatch_skips_constraints_witness :
  validateAgainstSchema exampleHost (JNum (Qc_of_Z 3))
    (mkSchema None (Some "string") None None None None None None
       (Some (Qc_of_Z 5)) None None None None None None None None None None
       None None None None)
    "name"
  = Ok ["Expected type 'string' but got 'number'"].
Proof.
  exact (type_mismatch_skips_constraints exampleHost (JNum (Qc_of_Z 3))
           (mkSchema None (Some "string") None None None None None None
              (Some (Qc_of_Z 5)) None None None None None None None None None
              None None None None None)
           "name" "string" eq_refl ltac:(discriminate) ltac:(discriminate)
           ltac:(discriminate)).
Defined.

Lemma enum_rejects_structured_values_witness :
  In "Value must be one of: a,b"
    ["Value must be one of: a,b"]
  /\
  validateAgainstSchema exampleHost (JArr [JStr "a"; JStr "b"])
    (mkSchema None None None None None None None None None None None None
       None None None None (Some [JArr [JStr "a"; JStr "b"]]) None None None
       None None None)
    "tags"
  = Ok ["Value must be one of: a,b"].
Proof.
  split; [|reflexivity].
  apply (enum_rejects_structured_values exampleHost
           (JArr [JStr "a"; JStr "b"])
           (mkSchema None None None None None None None None None None None
              None None None None None (Some [JArr [JStr "a"; JStr "b"]])
              None None None None None None)
           "tags" [JArr [JStr "a"; JStr "b"]]);
    [reflexivity | right; left; reflexivity | reflexivity].
Defined.

(* --------------------------------------------------------------------- *)
(** ** Numeric bounds and required properties *)
(* --------------------------------------------------------------------- *)

Lemma push_if_nil c m : push_if c m = [] <-> c = false.
Proof. destruct c; simpl; split; congruence. Qed.

Lemma Qc_leb_false a b : Qc_leb a b = false <-> (b < a)%Qc.
Proof.
  unfold Qc_leb. rewrite bool_decide_eq_false. split.
  - apply Qcnot_le_lt.
  - apply Qclt_not_le.
Qed.

Lemma Qc_ltb_false a b : Qc_ltb a b = false <-> (b <= a)%Qc.
Proof.
  unfold Qc_ltb. rewrite bool_decide_eq_false. split.
  - apply Qcnot_lt_le.
  - apply Qcle_not_lt.
Qed.

Lemma check_required_filter value required :
  check_required value required
  = map (fun r => "Missing required property: " +:+ r)
      (List.filter (fun r => negb (has_property r value)) required).
Proof.
  unfold check_required. induction required as [|r rest IH]; simpl; [done|].
  rewrite IH. by destruct (has_property r value).
Qed.

Section Bounds.
Context (host : Host).

(** X4.  For a number under a schema of type ['number'] that carries only
    bounds, validation passes exactly when the value lies within them:
    [minimum] and [maximum] are inclusive, and become exclusive when
    [exclusiveMinimum] or [exclusiveMaximum] is true. *)
Theorem numeric_bounds_inclusive_unless_exclusive :
  forall (v : Qc) (schema : Schema) (fieldName : string),
    s_type schema = Some "number" ->
    s_enum schema = None ->
    s_multipleOf schema = None ->
    validateAgainstSchema host (JNum v) schema fieldName = Ok [] <->
    (forall lo, s_minimum schema = Some lo ->
       if truthy_bool (s_exclusiveMinimum schema)
       then (lo < v)%Qc else (lo <= v)%Qc)
    /\
    (forall hi, s_maximum schema = Some hi ->
       if truthy_bool (s_exclusiveMaximum schema)
       then (v < hi)%Qc else (v <= hi)%Qc).
Proof.
  intros v schema fieldName Htype Henum Hmul.
  unfold validateAgainstSchema, check_type, check_string, check_number,
    check_array, check_enum, check_object.
  rewrite !(type_is_of schema "number") by done.
  rewrite Htype, Henum, Hmul. simpl.
  destruct (s_minimum schema) as [lo|], (s_maximum schema) as [hi|];
    destruct (truthy_bool (s_exclusiveMinimum schema)),
             (truthy_bool (s_exclusiveMaximum schema));
    simpl; rewrite ?app_nil_r;
    repeat match goal with
    | |- context [push_if ?c ?m] =>
        let H := fresh "Hc" in destruct c eqn:H; simpl
    end;
    repeat match goal with
    | H : Qc_leb _ _ = false |- _ => apply Qc_leb_false in H
    | H : Qc_ltb _ _ = false |- _ => apply Qc_ltb_false in H
    | H : Qc_leb _ _ = true |- _ => apply bool_decide_eq_true in H
    | H : Qc_ltb _ _ = true |- _ => apply bool_decide_eq_true in H
    end;
    (split;
     [ intros Hok; try discriminate Hok; split; intros b Hb;
       try discriminate Hb; injection Hb as <-; assumption
     | intros [Hlo Hhi]; try reflexivity; exfalso;
       try (specialize (Hlo _ eq_refl)); try (specialize (Hhi _ eq_refl));
       first [ eapply Qclt_not_le; eassumption
             | eapply Qcle_not_lt; eassumption ] ]).
Qed.

(** X5.  For an object under a schema of type ['object'] that carries only
    [required], the errors are one message per required name that is not
    a property of the object, in the order of [required], where a
    property is an own property or one that the object inherits from
    [Object.prototype]; validation passes exactly when every required
    name is such a property.  A required name that every object inherits,
    like [constructor], is therefore never reported. *)
Theorem missing_required_properties_reported :
  forall (props : list (string * JsValue)) (schema : Schema)
         (fieldName : string),
    s_type schema = Some "object" ->
    s_enum schema = None ->
    s_minProperties schema = None ->
    s_maxProperties schema = None ->
    validateAgainstSchema host (JObj props) schema fieldName
    = Ok (map (fun r => "Missing required property: " +:+ r)
            (List.filter (fun r => negb (has_key r props || inherited r))
               (default [] (s_required schema))))
    /\
    (validateAgainstSchema host (JObj props) schema fieldName = Ok [] <->
     forall r, In r (default [] (s_required schema)) ->
               has_key r props = true \/ inherited r = true).
Proof.
  intros props schema fieldName Htype Henum Hmin Hmax.
  rewrite (object_schema_messages host _ _ _ Htype Henum Hmin Hmax).
  rewrite check_required_filter. simpl.
  split; [done|]. split.
  - intros Hnil r Hr. injection Hnil as Hnil.
    apply orb_true_iff.
    destruct (has_key r props || inherited r) eqn:Hk; [done|].
    apply map_eq_nil in Hnil.
    assert (In r (List.filter
                    (fun r => negb (has_key r props || inherited r))
                    (default [] (s_required schema)))) as Hin
      by (apply filter_In; by rewrite Hk).
    rewrite Hnil in Hin. destruct Hin.
  - generalize (default [] (s_required schema)). intros required Hall.
    f_equal. induction required as [|r rest IH]; [done|].
    simpl. replace (has_key r props || inherited r) with true
      by (symmetry; apply orb_true_iff, Hall; by left).
    simpl. apply IH. intros r' Hr'. apply Hall. by right.
Qed.

End Bounds.

Lemma numeric_bounds_inclusive_unless_exclusive_witness :
  let inclusive :=
    mkSchema None (Some "number") None (Some (Qc_of_Z 10)) None None None
      None None None None None None None None None None None None None None
      None None in
  validateAgainstSchema exampleHost (JNum (Qc_of_Z 10)) inclusive "limit"
    = Ok [].
Proof.
  intros inclusive.
  apply (numeric_bounds_inclusive_unless_exclusive exampleHost (Qc_of_Z 10)
           inclusive "limit" eq_refl eq_refl eq_refl).
  split; intros b Hb; [discriminate|].
  injection Hb as <-. simpl. apply Qcle_refl.
Defined.

Lemma missing_required_properties_reported_witness :
  let schema :=
    mkSchema None (Some "object") None None None None None None None None None
      None None None None (Some ["constructor"; "email"; "name"]) None None
      None None None None None in
  validateAgainstSchema exampleHost (JObj [("name", JStr "Ada")]) schema "body"
  = Ok ["Missing required property: email"].
Proof.
  intros schema.
  apply (missing_required_properties_reported exampleHost
           [("name", JStr "Ada")] schema "body");
    reflexivity.
Defined.

(** The boundary itself: 10 passes an inclusive maximum of 10 and fails
    an exclusive one. *)
Example maximum_boundary :
  let schema exclusive :=
    mkSchema None (Some "number") None (Some (Qc_of_Z 10)) exclusive None
      None None None None None None None None None None None None None None
      None None None in
  validateAgainstSchema exampleHost (JNum (Qc_of_Z 10)) (schema None) "limit"
    = Ok []
  /\
  validateAgainstSchema exampleHost (JNum (Qc_of_Z 10)) (schema (Some true))
    "limit" = Ok ["Value must be less than 10"].
Proof. split; reflexivity. Qed.

(* --------------------------------------------------------------------- *)
(** ** What [execute] looks at *)
(* --------------------------------------------------------------------- *)


Lemma validateArgs_path_method args path method :
  a_path args = Some path -> a_method args = Some method ->
  validateArgs args ["path"; "method"] = Ok tt.
Proof.
  intros Hpath Hmethod. unfold validateArgs, has_field. simpl.
  rewrite Hpath, Hmethod. by rewrite !bool_decide_eq_true_2 by eauto.
Qed.

(** [execute] on a request that names its path and method. *)
Lemma execute_found host walk args doc path method pathItem operation :
  a_path args = Some path -> a_method args = Some method ->
  find_operation doc path method = Some (pathItem, operation) ->
  execute host walk args (Some doc)
  = validateOperation host walk doc path pathItem operation
      (default ∅ (a_params args)) (default [] (a_headers args)) (a_body args).
Proof.
  intros Hpath Hmethod Hfind. unfold find_operation in Hfind.
  destruct (paths doc) as [all_paths|] eqn:Hpaths; [|done]. simpl in Hfind.
  rewrite (execute_lookup host walk _ _ _ _ _ Hpath Hmethod Hpaths).
  unfold lookup.
  destruct (all_paths !! path) as [pathItem'|]; [|done]. simpl in Hfind.
  destruct (pathItem_get pathItem' (toLowerCase method)) as [operation'|];
    [|done].
  simpl in Hfind. by injection Hfind as -> ->.
Qed.

Lemma find_operation_lower doc path m1 m2 :
  toLowerCase m1 = toLowerCase m2 ->
  find_operation doc path m1 = find_operation doc path m2.
Proof. unfold find_operation. by intros ->. Qed.

Section ExecuteInputs.
Context (host : Host).
Context (walk : OpenAPISpec -> list string -> option Schema).

(** X6.  The method names the operation without regard to case: two
    requests that differ only in the case of the method, for an operation
    that the document declares, have the same outcome. *)
Theorem method_is_case_insensitive :
  forall (doc : OpenAPISpec) (path m1 m2 : string)
         (params : option (gmap string JsValue))
         (headers : option (list (string * JsValue))) (body : option JsValue),
    toLowerCase m1 = toLowerCase m2 ->
    is_Some (find_operation doc path m1) ->
    execute host walk (mkArgs (Some path) (Some m1) params headers body)
      (Some doc)
    = execute host walk (mkArgs (Some path) (Some m2) params headers body)
        (Some doc).
Proof.
  intros doc path m1 m2 params headers body Hlower [[pathItem operation] Hfind].
  rewrite (execute_found host walk _ doc path m1 pathItem operation)
    by done.
  rewrite (find_operation_lower doc path m1 m2) in Hfind by done.
  by rewrite (execute_found host walk _ doc path m2 pathItem operation).
Qed.


(** X8.  An operation that declares no parameter and no request body
    accepts every request: the result is valid and has no error, whatever
    parameters, headers and body are sent. *)
Theorem operation_without_declarations_accepts_all :
  forall (doc : OpenAPISpec) (path method : string)
         (pathItem : PathItem) (operation : Operation)
         (params : option (gmap string JsValue))
         (headers : option (list (string * JsValue))) (body : option JsValue),
    find_operation doc path method = Some (pathItem, operation) ->
    allParameters pathItem operation = [] ->
    op_requestBody operation = None ->
    exists ws,
      execute host walk (mkArgs (Some path) (Some method) params headers body)
        (Some doc)
      = Ok (mkResult true [] ws).
Proof.
  intros doc path method pathItem operation params headers body Hfind Hnone
    Hbody.
  rewrite (execute_found host walk _ doc path method pathItem operation)
    by done.
  unfold validateOperation, validateBody. rewrite Hnone, Hbody. simpl.
  rewrite !when_push_warning. simpl. eauto.
Qed.

(** X9.  A body is validated against the schema under
    [content['application/json']] only.  When there is none, or when it
    is a reference that [resolveRef] does not resolve, a body that is not
    [null] passes without any error; and [resolveRef] resolves no
    reference that does not start with [#/]. *)
Theorem body_without_json_schema_is_not_validated :
  forall (requestBody : RequestBody) (value : JsValue) (doc : OpenAPISpec)
         (result : ValidationResult),
    value <> JNull ->
    no_json_schema walk doc requestBody ->
    (exists ws,
       validateRequestBody host walk requestBody (Some value) doc result
       = Ok (extend result [] ws))
    /\
    (forall ref, String.prefix "#/" ref = false ->
                 resolveRef walk ref doc = None).
Proof.
  intros requestBody value doc result Hnull Hnone.
  split; [|intros ref Hext; unfold resolveRef; by rewrite Hext].
  unfold validateRequestBody, no_json_schema in *.
  replace (nullish (Some value)) with false by (by destruct value).
  rewrite andb_false_r.
  assert (Hskip : exists ws, Ok result = Ok (extend result [] ws))
    by (exists []; by rewrite extend_nil).
  destruct (rb_content requestBody) as [content|]; simpl in Hnone;
    [|by destruct value].
  destruct (content !! "application/json") as [jsonContent|]; simpl in Hnone;
    [|by destruct value].
  destruct (mt_schema jsonContent) as [declared|]; [|by destruct value].
  destruct Hnone as (ref & Href & Hne & Hunresolved).
  rewrite Href. replace (truthy_string (Some ref)) with true
    by (destruct ref; [done|reflexivity]).
  rewrite Hunresolved.
  destruct value; [done|..]; eexists; by rewrite push_warning_extend.
Qed.

End ExecuteInputs.

Lemma method_is_case_insensitive_witness :
  execute exampleHost exampleWalk
    (mkArgs (Some "/users") (Some "POST") None None
       (Some (JObj [("email", JStr "a@b.com")]))) (Some signup_doc)
  = execute exampleHost exampleWalk
      (mkArgs (Some "/users") (Some "Post") None None
         (Some (JObj [("email", JStr "a@b.com")]))) (Some signup_doc).
Proof.
  apply (method_is_case_insensitive exampleHost exampleWalk signup_doc
           "/users" "POST" "Post").
  - reflexivity.
  - eexists. reflexivity.
Defined.


Lemma operation_without_declarations_accepts_all_witness :
  exists ws,
    execute exampleHost exampleWalk
      (mkArgs (Some "/ping") (Some "get") (Some {[ "x" := JNull ]}) None
         (Some (JStr "hello"))) (Some catalog_doc)
    = Ok (mkResult true [] ws).
Proof.
  apply (operation_without_declarations_accepts_all exampleHost exampleWalk
           catalog_doc "/ping" "get"
           (mkPathItem None None None (Some (mkOperation None None None)) None
              None None None None None None None None)
           (mkOperation None None None));
    reflexivity.
Defined.

Lemma body_without_json_schema_is_not_validated_witness :
  exists ws,
    validateRequestBody exampleHost exampleWalk
      (mkRequestBody (Some {[ "application/xml" := mkMediaType None ]})
         (Some true))
      (Some (JStr "<file/>")) catalog_doc (mkResult true [] [])
    = Ok (extend (mkResult true [] []) [] ws).
Proof.
  apply (body_without_json_schema_is_not_validated exampleHost exampleWalk
           (mkRequestBody (Some {[ "application/xml" := mkMediaType None ]})
              (Some true))
           (JStr "<file/>") catalog_doc (mkResult true [] [])).
  - discriminate.
  - exact I.
Defined.

(* --------------------------------------------------------------------- *)
(** ** Headers that differ only in case *)
(* --------------------------------------------------------------------- *)





(** A header named [__proto__] is not stored: an object in its place
    becomes the prototype of the lower-cased headers, through which its
    properties are then found. *)
Example proto_header_replaces_the_prototype :
  let headers := [("__PROTO__", JObj [("x-trace", JStr "inherited")])] in
  o_own (providedHeadersLower headers) = ∅ /\
  object_get exampleHost "x-trace" (providedHeadersLower headers)
  = Ok (Some (JStr "inherited")).
Proof. split; reflexivity. Qed.

(* --------------------------------------------------------------------- *)
(** ** CacheManager: misses, invalidation and clearing *)
(* --------------------------------------------------------------------- *)

Lemma append_assoc (a b c : string) : (a +:+ b) +:+ c = a +:+ (b +:+ c).
Proof.
  induction a as [|ch a IH]; [done|].
  change (String ch ((a +:+ b) +:+ c) = String ch (a +:+ (b +:+ c))).
  by f_equal.
Qed.

Lemma length_append (a b : string) :
  String.length (a +:+ b) = (String.length a + String.length b)%nat.
Proof.
  induction a as [|ch a IH]; [done|].
  change (S (String.length (a +:+ b))
          = S (String.length a + String.length b)).
  by f_equal.
Qed.

Lemma substring_from_append (a b : string) :
  substring_from (String.length a) (a +:+ b) = b.
Proof.
  induction a as [|ch a IH]; [by destruct b|].
  change (substring_from (String.length a) (a +:+ b) = b). done.
Qed.

Lemma ends_with_append (a suffix : string) :
  ends_with suffix (a +:+ suffix) = true.
Proof.
  unfold ends_with. rewrite length_append.
  replace (String.length a + String.length suffix - String.length suffix)%nat
    with (String.length a) by lia.
  rewrite substring_from_append. apply String.eqb_refl.
Qed.

Lemma find_None_no_slot k slots s :
  List.find (key_is k) slots = None -> In s slots -> slot_key s <> k.
Proof.
  intros Hfind Hin Hk. eapply find_none in Hfind; [|exact Hin].
  unfold key_is in Hfind. rewrite Hk, String.eqb_refl in Hfind. done.
Qed.

Lemma lru_get_None now k c c' :
  lru_get now k c = (None, c') ->
  List.find (key_is k) (lru_slots c') = None /\
  lru_ttl c' = lru_ttl c /\ lru_maxSize c' = lru_maxSize c.
Proof.
  unfold lru_get, lru_find.
  destruct (List.find (key_is k) (lru_slots c)) as [s|] eqn:Hfind.
  - destruct (lru_isStale now c s); [|done].
    intros [= <-]. simpl. by rewrite find_without.
  - by intros [= <-].
Qed.

Section CacheMisses.
Context (sizeCalculation : CacheEntry -> Z).
Context (sha256_hex : string -> string).

Lemma getDiskCachePath_ends_with cm u :
  ends_with ".json.gz" (getDiskCachePath sha256_hex cm u) = true.
Proof.
  unfold getDiskCachePath. rewrite <- !append_assoc. apply ends_with_append.
Qed.

(** Nothing stored for a URL: no slot under it and no file, readable or
    not. *)
Lemma nothing_stored_get_None now u cm :
  (forall e, ~ stored sha256_hex cm u e) ->
  fst (get sizeCalculation sha256_hex now u cm) = None.
Proof.
  intros Hnone.
  destruct (get sizeCalculation sha256_hex now u cm) as [[e|] cm'] eqn:Hget;
    [|done].
  apply get_spec in Hget as [_ Hsome].
  destruct (Hsome e eq_refl) as (_ & Hstored & _). by apply Hnone in Hstored.
Qed.

Lemma get_disk_None now u cm cm' :
  List.find (key_is u) (lru_slots (memoryCache cm)) = None ->
  get_disk sizeCalculation sha256_hex now u cm = (None, cm') ->
  List.find (key_is u) (lru_slots (memoryCache cm')) = None /\
  files cm' !! getDiskCachePath sha256_hex cm' u = None.
Proof.
  unfold get_disk. intros Hfind.
  destruct (files cm !! getDiskCachePath sha256_hex cm u) as [[entry|]|]
    eqn:Hfile.
  - destruct (fresh cm now entry); [done|].
    intros [= <-]. split; [done|]. apply lookup_delete_eq.
  - intros [= <-]. split; [done|]. apply lookup_delete_eq.
  - by intros [= <-].
Qed.

Lemma get_None_clean now u cm cm' :
  get sizeCalculation sha256_hex now u cm = (None, cm') ->
  List.find (key_is u) (lru_slots (memoryCache cm')) = None /\
  files cm' !! getDiskCachePath sha256_hex cm' u = None.
Proof.
  intros Hget. unfold get in Hget.
  destruct (lru_get now u (memoryCache cm)) as [[memoryEntry|] memory']
    eqn:Hlru.
  - destruct (fresh cm now memoryEntry); [done|].
    apply get_disk_None in Hget; [done|]. simpl. apply find_without.
  - apply lru_get_None in Hlru as (Hfind & _).
    by apply get_disk_None in Hget.
Qed.

(** X11.  A [get] that misses leaves nothing behind for the URL: no slot
    in memory and no file on disk, be it expired or unreadable.  Every
    later [get] for the URL therefore misses as well, at whatever time,
    until [set] stores an entry again. *)
Theorem get_miss_leaves_nothing_behind :
  forall (now : Time) (u : string) (cm cm' : CacheManager),
    get sizeCalculation sha256_hex now u cm = (None, cm') ->
    (forall e, ~ stored sha256_hex cm' u e) /\
    files cm' !! getDiskCachePath sha256_hex cm' u = None /\
    (forall later, fst (get sizeCalculation sha256_hex later u cm') = None).
Proof.
  intros now u cm cm' Hget.
  destruct (get_None_clean _ _ _ _ Hget) as [Hmemory Hfile].
  assert (Hnothing : forall e, ~ stored sha256_hex cm' u e).
  { intros e [(s & Hin & Hk & _)|Hdisk].
    - by eapply find_None_no_slot.
    - unfold on_disk in Hdisk. congruence. }
  repeat split; [done..|].
  intros later. by apply nothing_stored_get_None.
Qed.

(** X12.  After [invalidate] nothing is stored for the URL, and [get]
    misses at every time. *)
Theorem invalidate_then_get_misses :
  forall (now : Time) (u : string) (cm : CacheManager),
    (forall e, ~ stored sha256_hex (invalidate sha256_hex u cm) u e) /\
    fst (get sizeCalculation sha256_hex now u (invalidate sha256_hex u cm))
    = None.
Proof.
  intros now u cm.
  assert (Hnothing :
    forall e, ~ stored sha256_hex (invalidate sha256_hex u cm) u e).
  { intros e [(s & Hin & Hk & _)|Hdisk].
    - simpl in Hin. apply filter_In in Hin as [_ Hne].
      unfold key_is in Hne. by rewrite Hk, String.eqb_refl in Hne.
    - unfold on_disk, invalidate, getDiskCachePath in Hdisk. simpl in Hdisk.
      by rewrite lookup_delete_eq in Hdisk. }
  split; [done|]. by apply nothing_stored_get_None.
Qed.

(** X13.  After [clear] every [get] misses and the statistics count no
    entry in memory and no cache file on disk; files of the directory
    whose names do not end in [.json.gz] are left alone. *)
Theorem clear_empties_both_tiers :
  forall (now : Time) (u : string) (cm : CacheManager),
    fst (get sizeCalculation sha256_hex now u (clear cm)) = None /\
    getCacheStats (clear cm) = mkCacheStats 0 0 0 /\
    (forall path f,
       ends_with ".json.gz" path = false ->
       files cm !! path = Some f -> files (clear cm) !! path = Some f).
Proof.
  intros now u cm. split; [|split].
  - apply nothing_stored_get_None.
    intros e [(s & [] & _)|Hdisk].
    unfold on_disk, clear in Hdisk. simpl in Hdisk.
    apply map_lookup_filter_Some in Hdisk as [_ Hname]. simpl in Hname.
    pose proof (getDiskCachePath_ends_with (clear cm) u) as Hend.
    unfold clear, getDiskCachePath in *. simpl in *. congruence.
  - unfold getCacheStats, clear. simpl. f_equal.
    apply map_size_empty_iff, map_empty. intros path.
    apply map_lookup_filter_None. right. intros f Hf Hname. simpl in *.
    apply map_lookup_filter_Some in Hf as [_ Hnot]. simpl in Hnot.
    congruence.
  - intros path f Hname Hf. unfold clear. simpl.
    by apply map_lookup_filter_Some.
Qed.

(** X14.  [set], [invalidate] and [get] for one URL change no file but
    the one of that URL: the file of a URL with another hash is what it
    was. *)
Theorem other_urls_keep_their_files :
  forall (now : Time) (written : bool) (u other : string) (doc : OpenAPISpec)
         (tag modified : option string) (cm : CacheManager),
    getDiskCachePath sha256_hex cm other <> getDiskCachePath sha256_hex cm u ->
    let path := getDiskCachePath sha256_hex cm other in
    files (set sizeCalculation sha256_hex now written u doc tag modified cm)
      !! path = files cm !! path
    /\
    files (invalidate sha256_hex u cm) !! path = files cm !! path
    /\
    files (snd (get sizeCalculation sha256_hex now u cm)) !! path
    = files cm !! path.
Proof.
  intros now written u other doc tag modified cm Hother path.
  split; [|split].
  - unfold set. destruct written; simpl; [|done].
    by apply lookup_insert_ne.
  - unfold invalidate. simpl. by apply lookup_delete_ne.
  - assert (Hdisk : forall c',
      files (snd (get_disk sizeCalculation sha256_hex now u (set_memory c' cm)))
        !! path = files cm !! path).
    { intros c'. unfold get_disk, getDiskCachePath. simpl.
      destruct (files cm !! _) as [[entry|]|]; simpl; [| |done].
      - destruct (fresh _ now entry); simpl; [done|].
        by apply lookup_delete_ne.
      - by apply lookup_delete_ne. }
    unfold get.
    destruct (lru_get now u (memoryCache cm)) as [[memoryEntry|] memory'];
      [|apply Hdisk].
    destruct (fresh cm now memoryEntry); [done|apply Hdisk].
Qed.

End CacheMisses.

Lemma lru_get_again now k c e c' :
  0 <= lru_ttl c ->
  lru_get now k c = (Some e, c') ->
  exists c'', lru_get now k c' = (Some e, c'') /\ lru_ttl c' = lru_ttl c.
Proof.
  intros Httl. unfold lru_get at 1. unfold lru_find.
  destruct (List.find (key_is k) (lru_slots c)) as [s|]; [|done].
  destruct (lru_isStale now c s); [done|]. intros [= <- <-].
  unfold lru_get, lru_find. simpl.
  rewrite find_app_None by apply find_without. simpl.
  unfold key_is at 1. simpl. rewrite String.eqb_refl.
  unfold lru_isStale. simpl. rewrite Z.sub_diag.
  replace (lru_ttl c <? 0) with false by (symmetry; by apply Z.ltb_ge).
  rewrite andb_false_r. eauto.
Qed.

Section RepeatableGet.
Context (sizeCalculation : CacheEntry -> Z).
Context (sha256_hex : string -> string).

Lemma get_disk_again now u cm e cm' :
  0 <= lru_ttl (memoryCache cm) ->
  get_disk sizeCalculation sha256_hex now u cm = (Some e, cm') ->
  fst (get sizeCalculation sha256_hex now u cm') = Some e.
Proof.
  intros Httl. unfold get_disk.
  destruct (files cm !! getDiskCachePath sha256_hex cm u) as [[entry|]|]
    eqn:Hfile; [|done..].
  destruct (fresh cm now entry) eqn:Hfresh; [|done].
  intros [= <- <-]. unfold get. simpl.
  destruct (decide (lru_maxSize (memoryCache cm) = 0 \/
                    sizeCalculation entry <= lru_maxSize (memoryCache cm)))
    as [Hfits|Hbig].
  - destruct (lru_get_set_fits sizeCalculation now now u entry (memoryCache cm))
      as [c' ->]; [done | lia |].
    unfold fresh in *. simpl. by rewrite Hfresh.
  - rewrite lru_get_set_rejected by done.
    unfold fresh in *. simpl.
    unfold get_disk, getDiskCachePath in *. simpl. rewrite Hfile.
    unfold fresh. simpl. by rewrite Hfresh.
Qed.

(** X15.  A [get] that returns an entry can be repeated: asked again at
    the same time, on the cache it left, it returns the same entry,
    whether the first answer came from memory or from disk. *)
Theorem get_is_repeatable :
  forall (now : Time) (u : string) (cm cm' : CacheManager) (e : CacheEntry),
    same_ttl cm ->
    0 <= ttl cm ->
    get sizeCalculation sha256_hex now u cm = (Some e, cm') ->
    fst (get sizeCalculation sha256_hex now u cm') = Some e.
Proof.
  intros now u cm cm' e Hsame Httl Hget.
  unfold same_ttl in Hsame. unfold get in Hget.
  destruct (lru_get now u (memoryCache cm)) as [[memoryEntry|] memory']
    eqn:Hlru.
  - destruct (fresh cm now memoryEntry) eqn:Hfresh.
    + injection Hget as <- <-.
      apply lru_get_again in Hlru as (c'' & Hagain & _); [|lia].
      unfold get. simpl. rewrite Hagain.
      unfold fresh in *. simpl. by rewrite Hfresh.
    + apply lru_get_spec in Hlru as (Hlru_ttl & _).
      eapply get_disk_again; [|exact Hget]. simpl. lia.
  - apply lru_get_spec in Hlru as (Hlru_ttl & _).
    eapply get_disk_again; [|exact Hget]. simpl. lia.
Qed.

End RepeatableGet.

Lemma get_is_repeatable_witness :
  let first := get (fun _ => 100) (fun u => u) 1000000 example_url
                 example_cache in
  fst first = Some example_entry /\
  fst (get (fun _ => 100) (fun u => u) 1000000 example_url (snd first))
  = Some example_entry.
Proof.
  intros first. split; [reflexivity|].
  apply (get_is_repeatable (fun _ => 100) (fun u => u) 1000000 example_url
           example_cache (snd first) example_entry).
  - reflexivity.
  - unfold example_cache. simpl. lia.
  - reflexivity.
Defined.

Lemma get_miss_leaves_nothing_behind_witness :
  let miss := get (fun _ => 100) (fun u => u) 4000000 example_url
                example_cache in
  fst miss = None /\
  files (snd miss) !! getDiskCachePath (fun u => u) (snd miss) example_url
  = None /\
  fst (get (fun _ => 100) (fun u => u) 0 example_url (snd miss)) = None.
Proof.
  intros miss. split; [reflexivity|].
  destruct (get_miss_leaves_nothing_behind (fun _ => 100) (fun u => u)
              4000000 example_url example_cache (snd miss) eq_refl)
    as (_ & Hfile & Hlater).
  split; [exact Hfile | apply Hlater].
Defined.

Lemma other_urls_keep_their_files_witness :
  let path :=
    getDiskCachePath (fun u => u) example_cache example_url in
  files (invalidate (fun u => u) "https://other.example.com/api.yaml"
           example_cache) !! path
  = files example_cache !! path.
Proof.
  intros path.
  destruct (other_urls_keep_their_files (fun _ => 100) (fun u => u) 0 true
              "https://other.example.com/api.yaml" example_url signup_doc
              None None example_cache) as (_ & Hinvalidate & _).
  - by apply String.eqb_neq.
  - exact Hinvalidate.
Defined.

(* --------------------------------------------------------------------- *)
(** ** validateSpec *)
(* --------------------------------------------------------------------- *)

Lemma truthy_string_Some (s : option string) :
  truthy_string s = true <-> exists v, s = Some v /\ v <> EmptyString.
Proof.
  destruct s as [[|c v]|]; simpl; split; try done.
  - intros (v & [= <-] & Hv). done.
  - intros _. eexists. split; [done|discriminate].
  - intros (v & [= ] & _).
Qed.

Lemma prefix_nonempty (p v : string) :
  p <> EmptyString -> String.prefix p v = true -> v <> EmptyString.
Proof. intros Hp Hpre ->. by destruct p. Qed.

(** X16.  [validateSpec] accepts a document exactly when its version is
    supported and it has an [info] object.  A non-empty [swagger] field
    decides the version alone and must start with [2.], whatever
    [openapi] says; without it, [openapi] must start with [3.]. *)
Theorem validateSpec_accepts_supported_versions :
  forall doc : OpenAPISpec,
    returns (validateSpec doc) <->
    supported_version doc /\ is_Some (info doc).
Proof.
  intros doc. unfold validateSpec, supported_version, returns.
  destruct (truthy_string (swagger doc)) eqn:Hsw.
  - rewrite orb_true_r. simpl.
    apply truthy_string_Some in Hsw as (sw & Hsw & Hne). rewrite Hsw. simpl.
    destruct (String.prefix "2." sw) eqn:Hpre; simpl.
    + destruct (info doc) as [i|]; split.
      * intros _. split; eauto.
      * eauto.
      * intros [a Ha]. discriminate.
      * intros [_ [i Hi]]. discriminate.
    + split; [intros [a Ha]; discriminate|].
      intros [(sw' & [= <-] & Hpre') _]. congruence.
  - rewrite orb_false_r.
    destruct (truthy_string (openapi doc)) eqn:Hv; simpl.
    + apply truthy_string_Some in Hv as (v & Hv & Hne). rewrite Hv. simpl.
      destruct (String.prefix "3." v) eqn:Hpre; simpl.
      * destruct (info doc) as [i|]; split.
        -- intros _. split; eauto.
        -- eauto.
        -- intros [a Ha]. discriminate.
        -- intros [_ [i Hi]]. discriminate.
      * split; [intros [a Ha]; discriminate|].
        intros [(v' & [= <-] & Hpre') _]. congruence.
    + split; [intros [a Ha]; discriminate|].
      intros [(v & Hv' & Hpre) _].
      assert (truthy_string (openapi doc) = true); [|congruence].
      apply truthy_string_Some. exists v. split; [done|].
      eapply prefix_nonempty; [|exact Hpre]. discriminate.
Qed.

(** X17.  Every document that [validateSpec] lets through carries an
    [openapi] version starting with [3.] (a Swagger 2 document is given
    [3.0.0]) and an [info] object; nothing else of the document is
    changed, and validating the result again returns it unchanged. *)
Theorem validateSpec_normalises_the_version :
  forall doc doc' : OpenAPISpec,
    validateSpec doc = Ok doc' ->
    (exists v, openapi doc' = Some v /\ String.prefix "3." v = true) /\
    is_Some (info doc') /\
    swagger doc' = swagger doc /\ info doc' = info doc /\
    paths doc' = paths doc /\ schemas doc' = schemas doc /\
    validateSpec doc' = Ok doc'.
Proof.
  intros doc doc'. unfold validateSpec.
  destruct (truthy_string (swagger doc)) eqn:Hsw.
  - rewrite orb_true_r. simpl.
    destruct (String.prefix "2." (default EmptyString (swagger doc))) eqn:Hpre;
      simpl; [|done].
    destruct (info doc) as [i|] eqn:Hinfo; [|done].
    intros [= <-]. simpl. rewrite Hsw, Hpre, ?Hinfo. simpl.
    repeat split; eauto.
  - rewrite orb_false_r.
    destruct (truthy_string (openapi doc)) eqn:Hv; simpl; [|done].
    destruct (String.prefix "3." (default EmptyString (openapi doc))) eqn:Hpre;
      simpl; [|done].
    destruct (info doc) as [i|] eqn:Hinfo; [|done].
    intros [= <-]. rewrite Hsw, Hv, Hpre, ?Hinfo. simpl. rewrite ?Hinfo.
    apply truthy_string_Some in Hv as (v & Hv & _).
    rewrite Hv in *. simpl in Hpre.
    repeat split; eauto.
Qed.

Lemma validateSpec_accepts_supported_versions_witness :
  returns (validateSpec signup_doc).
Proof.
  apply (validateSpec_accepts_supported_versions signup_doc).
  split.
  - exists "3.0.0". split; reflexivity.
  - eexists. reflexivity.
Defined.

Lemma validateSpec_normalises_the_version_witness :
  let swagger2 :=
    mkOpenAPISpec None (Some "2.0") (Some (mkInfo "Pets" "1.0")) None ∅ in
  let upgraded :=
    mkOpenAPISpec (Some "3.0.0") (Some "2.0") (Some (mkInfo "Pets" "1.0"))
      None ∅ in
  validateSpec swagger2 = Ok upgraded /\
  validateSpec upgraded = Ok upgraded.
Proof.
  intros swagger2 upgraded. split; [reflexivity|].
  destruct (validateSpec_normalises_the_version swagger2 upgraded eq_refl)
    as (_ & _ & _ & _ & _ & _ & Hagain).
  exact Hagain.
Defined.

(** A document that names both versions is judged by [swagger]. *)
Example swagger_field_overrides_openapi :
  validateSpec
    (mkOpenAPISpec (Some "3.0.0") (Some "1.2") (Some (mkInfo "Pets" "1.0"))
       None ∅)
  = Throw (Error ("Unsupported Swagger version: 1.2. "
                  +:+ "Only Swagger 2.x and OpenAPI 3.x are supported.")).
Proof. reflexivity. Qed.

(* --------------------------------------------------------------------- *)
(** ** fetchWithRetry: recovery and waiting time *)
(* --------------------------------------------------------------------- *)

Section RetryRecovery.
Context (client : OpenAPIClient).
Context (network : nat -> NetReply).
Context (validateStatus : Z -> bool).
Context (Hrejects : rejects_errors validateStatus).

Local Abbreviation loop := (retry_loop client network validateStatus).
Local Abbreviation n := (retryAttempts client).

Lemma loop_recovers remaining : forall attempt lastError k response,
  (remaining + attempt = n)%nat ->
  (attempt <= k < n)%nat ->
  (forall i, (attempt <= i < k)%nat -> transient_failure (network i)) ->
  network k = Replied response ->
  validateStatus (status response) = true ->
  loop remaining attempt lastError
  = (Ok response, snd (loop remaining attempt lastError)) /\
  requests (snd (loop remaining attempt lastError))
  = seq attempt (S k - attempt) /\
  delays (snd (loop remaining attempt lastError))
  = map (backoff client) (seq attempt (k - attempt)).
Proof.
  induction remaining as [|remaining IH]; intros attempt lastError k response
    Hn Hk Hnet Hreply Hstatus; [lia|]. simpl.
  destruct (decide (attempt = k)) as [->|Hne].
  - rewrite Hreply. simpl. rewrite Hstatus. simpl. rewrite Nat.sub_diag.
    replace (S k - k)%nat with 1%nat by lia. done.
  - destruct (axios_get_transient validateStatus Hrejects (network attempt))
      as [-> ->]; [apply Hnet; lia|].
    destruct (IH (S attempt) (failure_of (network attempt)) k response
                ltac:(lia))
      as (Hres & Hreq & Hdel); [lia|intros i Hi; apply Hnet; lia|done..|].
    destruct (loop remaining (S attempt) (failure_of (network attempt)))
      as [result later] eqn:Hloop.
    cbn [snd] in *. injection Hres as ->.
    rewrite requests_cons_request, delays_cons_request, requests_app,
      delays_app, Hreq, Hdel.
    replace (S attempt <? n)%nat with true
      by (symmetry; apply Nat.ltb_lt; lia).
    assert (E1 : (S k - attempt = S (S k - S attempt))%nat) by lia.
    assert (E2 : (k - attempt = S (k - S attempt))%nat) by lia.
    split; [done|]. split.
    + rewrite E1. reflexivity.
    + rewrite E2. reflexivity.
Qed.

End RetryRecovery.


(** X18.  A request that is answered with an accepted status after [k]
    transient failures, with [k] below [retryAttempts], succeeds with
    that response: attempts [0..k] are made, [k] delays are waited, and
    nothing is requested after the answer. *)
Theorem fetchWithRetry_recovers_after_transient_failures :
  forall (client : OpenAPIClient) (network : nat -> NetReply)
         (validateStatus : Z -> bool) (k : nat) (response : AxiosResponse),
    rejects_errors validateStatus ->
    (k < retryAttempts client)%nat ->
    (forall i, (i < k)%nat -> transient_failure (network i)) ->
    network k = Replied response ->
    validateStatus (status response) = true ->
    let run := fetchWithRetry client network validateStatus in
    fst run = Ok response /\
    requests (snd run) = seq 0 (S k) /\
    delays (snd run) = map (backoff client) (seq 0 k).
Proof.
  intros client network validateStatus k response Hrejects Hk Hnet Hreply
    Hstatus run. unfold run, fetchWithRetry.
  destruct (loop_recovers client network validateStatus Hrejects
              (retryAttempts client) 0 Undefined k response)
    as (Hres & Hreq & Hdel); [lia|lia|intros i Hi; apply Hnet; lia|done..|].
  split; [by rewrite Hres|]. rewrite Hreq, Hdel.
  replace (S k - 0)%nat with (S k) by lia.
  by replace (k - 0)%nat with k by lia.
Qed.

Lemma fetchWithRetry_recovers_after_transient_failures_witness :
  let client := mkClient 30000 3 1000 in
  let answer := mkResponse 200 ∅ (DataObject signup_doc) in
  let network (attempt : nat) :=
    match attempt with
    | 0%nat => NoReply "ECONNRESET"
    | 1%nat => Replied (mkResponse 503 ∅ (DataString "Service Unavailable"))
    | _ => Replied answer
    end in
  let run := fetchWithRetry client network fetchSpec_validateStatus in
  fst run = Ok answer /\
  requests (snd run) = [0; 1; 2]%nat /\
  delays (snd run) = [1000; 2000].
Proof.
  intros client answer network run.
  apply (fetchWithRetry_recovers_after_transient_failures client network
           fetchSpec_validateStatus 2 answer
           fetchSpec_validateStatus_rejects_errors).
  - unfold client. simpl. lia.
  - intros i Hi. destruct i as [|[|i]]; simpl; [exact I|lia|lia].
  - reflexivity.
  - reflexivity.
Defined.



(* --------------------------------------------------------------------- *)
(** ** [fetchSpec]: what is sent, what is stored, what is served *)
(* --------------------------------------------------------------------- *)

Lemma set_memory_same (cm : CacheManager) : set_memory (memoryCache cm) cm = cm.
Proof. by destruct cm. Qed.

Lemma getEtag_absent now u cm :
  List.find (key_is u) (lru_slots (memoryCache cm)) = None ->
  getEtag now u cm = (None, cm).
Proof.
  intros Hfind. unfold getEtag, lru_get, lru_find. rewrite Hfind. simpl.
  by rewrite set_memory_same.
Qed.

Lemma getLastModified_absent now u cm :
  List.find (key_is u) (lru_slots (memoryCache cm)) = None ->
  getLastModified now u cm = (None, cm).
Proof.
  intros Hfind. unfold getLastModified, lru_get, lru_find. rewrite Hfind. simpl.
  by rewrite set_memory_same.
Qed.

Section FetchFacts.
Context (sizeCalculation : CacheEntry -> Z).
Context (sha256_hex : string -> string).
Context (parsers : Parsers).
Context (client : OpenAPIClient).

(** When the cache is not consulted or misses, [fetchSpec] sends a request
    and goes on from a cache that holds nothing new. *)
Lemma fetchSpec_sends_request now0 now1 network written u forceRefresh cm :
  forceRefresh = true \/
  fst (get sizeCalculation sha256_hex now0 u cm) = None ->
  exists request_headers cm3,
    fetchSpec sizeCalculation sha256_hex parsers client now0 now1 network
      written u forceRefresh cm
    = fetchSpec_settled sizeCalculation sha256_hex parsers now1 written u
        (fst (fetchWithRetry client (network request_headers)
                fetchSpec_validateStatus)) cm3 /\
    entries_within sha256_hex cm3 cm /\
    (forceRefresh = true -> files cm3 = files cm).
Proof.
  intros Hmiss. unfold fetchSpec.
  assert (Hlookup : exists cm1,
    (if forceRefresh then (None, cm)
     else get sizeCalculation sha256_hex now0 u cm) = (None, cm1) /\
    entries_within sha256_hex cm1 cm /\
    (forceRefresh = true -> files cm1 = files cm)).
  { destruct forceRefresh.
    - exists cm. split; [done|]. split; [apply entries_within_refl|done].
    - destruct Hmiss as [?|Hmiss]; [done|].
      destruct (get sizeCalculation sha256_hex now0 u cm) as [res cm1] eqn:Hget.
      simpl in Hmiss. subst res. exists cm1. split; [done|].
      apply get_spec in Hget as [Hwithin _]. split; [done|]. done. }
  destruct Hlookup as (cm1 & -> & Hwithin1 & Hfiles1).
  pose proof (getEtag_within sha256_hex now0 u cm1) as Hwithin2.
  pose proof (getEtag_files now0 u cm1) as (Hfiles2 & _).
  destruct (getEtag now0 u cm1) as [tag cm2]. simpl in *.
  pose proof (getLastModified_within sha256_hex now0 u cm2) as Hwithin3.
  pose proof (getLastModified_files now0 u cm2) as (Hfiles3 & _).
  destruct (getLastModified now0 u cm2) as [modified cm3]. simpl in *.
  eexists _, cm3. split; [reflexivity|]. split.
  - eapply entries_within_trans; [exact Hwithin3|].
    eapply entries_within_trans; [exact Hwithin2|exact Hwithin1].
  - intros Hforce. rewrite Hfiles3, Hfiles2. auto.
Qed.

(** An entry written to disk is returned by [get] while it is fresh. *)
Lemma get_after_written_set now later u doc tag modified cm :
  later - now < ttl cm ->
  exists cm',
    get sizeCalculation sha256_hex later u
      (set sizeCalculation sha256_hex now true u doc tag modified cm)
    = (Some (mkCacheEntry doc tag modified now u), cm').
Proof.
  intros Hfresh.
  destruct (get_finds_fresh_file sizeCalculation sha256_hex later u
              (set sizeCalculation sha256_hex now true u doc tag modified cm)
              (mkCacheEntry doc tag modified now u)) as (e' & cm' & Hget).
  - unfold on_disk, set, getDiskCachePath. simpl. apply lookup_insert_eq.
  - done.
  - exists cm'. rewrite Hget. f_equal. f_equal.
    apply get_spec in Hget as [_ Hsome].
    destruct (Hsome e' eq_refl) as (_ & Hstored & _).
    by apply stored_after_set in Hstored.
Qed.

(** X20.  A fetch that is not forced sends no revalidation header: when
    it reaches the network at all, the cache has just missed and dropped
    what it held for the URL, so the request carries the [Accept] header
    alone. *)
Theorem unforced_fetch_sends_no_conditional_headers :
  forall (now0 now1 : Time)
         (network : list (string * string) -> nat -> NetReply)
         (written : bool) (u : string) (cm : CacheManager),
    fetchSpec sizeCalculation sha256_hex parsers client now0 now1 network
      written u false cm
    = fetchSpec sizeCalculation sha256_hex parsers client now0 now1
        (fun _ => network accept_only) written u false cm.
Proof.
  intros now0 now1 network written u cm. unfold fetchSpec.
  destruct (get sizeCalculation sha256_hex now0 u cm) as [[cached|] cm1]
    eqn:Hget; [done|].
  apply get_None_clean in Hget as [Hfind _].
  rewrite (getEtag_absent now0 u cm1 Hfind).
  rewrite (getLastModified_absent now0 u cm1 Hfind).
  reflexivity.
Qed.

(** X21.  A client configured with [retryAttempts = 0] never sends a
    request: a document that is not stored for the URL cannot be loaded,
    and [fetchSpec] fails with the [undefined] that [fetchWithRetry]
    throws, whatever the network would answer. *)
Theorem no_attempts_no_document :
  forall (now0 now1 : Time)
         (network : list (string * string) -> nat -> NetReply)
         (written : bool) (u : string) (forceRefresh : bool)
         (cm : CacheManager),
    retryAttempts client = 0%nat ->
    (forall e, ~ stored sha256_hex cm u e) ->
    fst (fetchSpec sizeCalculation sha256_hex parsers client now0 now1 network
           written u forceRefresh cm)
    = Throw (Error "Failed to fetch OpenAPI spec: undefined") /\
    forall request_headers,
      snd (fetchWithRetry client (network request_headers)
             fetchSpec_validateStatus) = [].
Proof.
  intros now0 now1 network written u forceRefresh cm Hzero Hnone.
  assert (Hrun : forall request_headers,
    fetchWithRetry client (network request_headers) fetchSpec_validateStatus
    = (Throw Undefined, [])).
  { intros request_headers. unfold fetchWithRetry. by rewrite Hzero. }
  split; [|intros request_headers; by rewrite Hrun].
  destruct (fetchSpec_sends_request now0 now1 network written u forceRefresh
              cm) as (request_headers & cm3 & -> & Hwithin & _).
  { right. by apply nothing_stored_get_None. }
  rewrite Hrun. simpl. unfold fetchSpec_catch.
  rewrite (surjective_pairing (get sizeCalculation sha256_hex now1 u cm3)).
  rewrite nothing_stored_get_None; [done|].
  intros e Hstored. apply (Hnone e). by eapply stored_within.
Qed.

(** X22.  A document fetched from the network and written to the cache is
    served from the cache by the next fetch of the same URL within the
    TTL: the same document is returned, whatever the network would
    answer then. *)
Theorem fetched_document_is_served_from_cache :
  forall (now0 now1 now2 now3 : Time)
         (network network' : list (string * string) -> nat -> NetReply)
         (written' : bool) (u : string) (forceRefresh : bool)
         (cm : CacheManager) (response : AxiosResponse) (doc : OpenAPISpec),
    forceRefresh = true \/
    fst (get sizeCalculation sha256_hex now0 u cm) = None ->
    (1 <= retryAttempts client)%nat ->
    (forall request_headers, network request_headers 0%nat = Replied response) ->
    status response < 400 ->
    status response <> 304 ->
    (parsed <- parseResponse parsers response ;;
     validateSpec (resolveReferences parsers parsed u)) = Ok doc ->
    now2 - now1 < ttl cm ->
    let first :=
      fetchSpec sizeCalculation sha256_hex parsers client now0 now1 network
        true u forceRefresh cm in
    fst first = Ok doc /\
    fst (fetchSpec sizeCalculation sha256_hex parsers client now2 now3 network'
           written' u false (snd first)) = Ok doc.
Proof.
  intros now0 now1 now2 now3 network network' written' u forceRefresh cm
    response doc Hmiss Hattempts Hreply Hok Hnot304 Hdoc Hfresh first.
  destruct (fetchSpec_sends_request now0 now1 network true u forceRefresh cm
              Hmiss) as (request_headers & cm3 & Hfirst & Hwithin & _).
  assert (Hrun :
    fst (fetchWithRetry client (network request_headers)
           fetchSpec_validateStatus) = Ok response).
  { unfold fetchWithRetry.
    destruct (retryAttempts client) as [|remaining]; [lia|]. simpl.
    rewrite Hreply. simpl. unfold fetchSpec_validateStatus.
    replace (status response <? 400) with true
      by (symmetry; by apply Z.ltb_lt).
    done. }
  unfold first. rewrite Hfirst, Hrun. unfold fetchSpec_settled.
  replace (status response =? 304) with false
    by (symmetry; by apply Z.eqb_neq).
  unfold fetchSpec_store. rewrite Hdoc. cbn [fst snd]. split; [done|].
  unfold fetchSpec.
  destruct (get_after_written_set now1 now2 u doc
              (headers response !! "etag")
              (headers response !! "last-modified") cm3) as [cm' ->]; [|done].
  destruct Hwithin as (-> & _). done.
Qed.

(** X23.  When a forced refresh is answered [304 Not Modified] and a
    fresh entry is on disk, [fetchSpec] returns the document of an entry
    that was stored for the URL and is fresh, and writes nothing to the
    cache. *)
Theorem not_modified_serves_the_stored_document :
  forall (now0 now1 : Time)
         (network : list (string * string) -> nat -> NetReply)
         (written : bool) (u : string) (cm : CacheManager)
         (response : AxiosResponse) (e : CacheEntry),
    (1 <= retryAttempts client)%nat ->
    (forall request_headers, network request_headers 0%nat = Replied response) ->
    status response = 304 ->
    on_disk sha256_hex cm u e ->
    now1 - timestamp e < ttl cm ->
    let result :=
      fetchSpec sizeCalculation sha256_hex parsers client now0 now1 network
        written u true cm in
    (exists served,
       fst result = Ok (spec served) /\
       stored sha256_hex cm u served /\
       now1 - timestamp served < ttl cm) /\
    entries_within sha256_hex (snd result) cm.
Proof.
  intros now0 now1 network written u cm response e Hattempts Hreply H304
    Hdisk Hfresh result.
  destruct (fetchSpec_sends_request now0 now1 network written u true cm)
    as (request_headers & cm3 & Hresult & Hwithin & Hfiles); [by left|].
  assert (Hrun :
    fst (fetchWithRetry client (network request_headers)
           fetchSpec_validateStatus) = Ok response).
  { unfold fetchWithRetry.
    destruct (retryAttempts client) as [|remaining]; [lia|]. simpl.
    rewrite Hreply. simpl. by rewrite H304. }
  unfold result. rewrite Hresult, Hrun. simpl. rewrite H304. simpl.
  pose proof Hwithin as (Httl & Hdir & _).
  destruct (get_finds_fresh_file sizeCalculation sha256_hex now1 u cm3 e)
    as (served & cm4 & Hget).
  { unfold on_disk, getDiskCachePath in *. rewrite Hfiles, Hdir; done. }
  { by rewrite Httl. }
  rewrite Hget. simpl.
  apply get_spec in Hget as [Hwithin4 Hsome].
  destruct (Hsome served eq_refl) as (Hfresh' & Hstored & _).
  split.
  - exists served. split; [done|]. split.
    + by eapply stored_within.
    + apply fresh_iff in Hfresh'. by rewrite <- Httl.
  - by eapply entries_within_trans.
Qed.

End FetchFacts.

Lemma no_attempts_no_document_witness :
  let client := mkClient 30000 0 1000 in
  let answer := mkResponse 200 ∅ (DataObject signup_doc) in
  fst (fetchSpec (fun _ => 100) (fun u => u) example_parsers client 0 1
         (fun _ _ => Replied answer) true example_url false
         (CacheManager_new "/cache" 3600 100 ∅))
  = Throw (Error "Failed to fetch OpenAPI spec: undefined").
Proof.
  intros client answer.
  apply (no_attempts_no_document (fun _ => 100) (fun u => u) example_parsers
           client 0 1 (fun _ _ => Replied answer) true example_url false
           (CacheManager_new "/cache" 3600 100 ∅) eq_refl).
  intros e [(s & [] & _)|Hdisk].
  unfold on_disk in Hdisk. simpl in Hdisk. by rewrite lookup_empty in Hdisk.
Defined.

Lemma fetched_document_is_served_from_cache_witness :
  let client := mkClient 30000 3 1000 in
  let answer := mkResponse 200 ∅ (DataObject signup_doc) in
  let first :=
    fetchSpec (fun _ => 100) (fun u => u) example_parsers client
      1000000 1000200 (fun _ _ => Replied answer) true example_url true
      example_cache in
  fst first = Ok signup_doc /\
  fst (fetchSpec (fun _ => 100) (fun u => u) example_parsers client
         2000000 2000000 unreachable true example_url false (snd first))
  = Ok signup_doc.
Proof.
  intros client answer first.
  apply (fetched_document_is_served_from_cache (fun _ => 100) (fun u => u)
           example_parsers client 1000000 1000200 2000000 2000000
           (fun _ _ => Replied answer) unreachable true example_url true
           example_cache answer signup_doc).
  - by left.
  - unfold client. simpl. lia.
  - reflexivity.
  - simpl. lia.
  - simpl. lia.
  - reflexivity.
  - unfold example_cache. simpl. lia.
Defined.

Lemma not_modified_serves_the_stored_document_witness :
  let client := mkClient 30000 3 1000 in
  let answer := mkResponse 304 ∅ (DataString EmptyString) in
  let result :=
    fetchSpec (fun _ => 100) (fun u => u) example_parsers client
      1000000 1000200 (fun _ _ => Replied answer) true example_url true
      example_cache in
  (exists served,
     fst result = Ok (spec served) /\
     stored (fun u => u) example_cache example_url served /\
     1000200 - timestamp served < ttl example_cache) /\
  entries_within (fun u => u) (snd result) example_cache.
Proof.
  intros client answer result.
  apply (not_modified_serves_the_stored_document (fun _ => 100) (fun u => u)
           example_parsers client 1000000 1000200
           (fun _ _ => Replied answer) true example_url example_cache answer
           example_entry).
  - unfold client. simpl. lia.
  - reflexivity.
  - reflexivity.
  - reflexivity.
  - unfold example_cache. simpl. lia.
Defined.

(* --------------------------------------------------------------------- *)
(** ** The tool dispatcher *)
(* --------------------------------------------------------------------- *)

Lemma kept_or_assigned_refl st : kept_or_assigned st st.
Proof. by left. Qed.

Lemma kept_or_assigned_trans st1 st2 st3 :
  kept_or_assigned st1 st2 -> kept_or_assigned st2 st3 ->
  kept_or_assigned st1 st3.
Proof.
  intros [[H1 H2]|H12] [[H3 H4]|H23]; [left|by right|right|by right].
  - split; congruence.
  - by rewrite H3, H4.
Qed.

Lemma kept_or_assigned_loaded st st' :
  kept_or_assigned st st' -> loaded_with_url st ->
  loaded_with_url st' /\
  (is_Some (currentSpec st) -> is_Some (currentSpec st')).
Proof.
  unfold loaded_with_url. intros [[-> ->]|[Hdoc Hurl]] Hloaded;
    [done|]. split; [done|]. done.
Qed.

Lemma assign_spec_kept fetched u st :
  match assign_spec fetched u st with
  | inl st' => is_Some (currentSpec st') /\ currentUrl st' = Some u
  | inr (_, st') =>
      currentSpec st' = currentSpec st /\ currentUrl st' = currentUrl st
  end.
Proof. destruct fetched as [[doc|error] cm]; simpl; eauto. Qed.

Section Dispatcher.
Context (sizeCalculation : CacheEntry -> Z).
Context (sha256_hex : string -> string).
Context (parsers : Parsers).
Context (client : OpenAPIClient).
Context (openApiUrl : option string).

Lemma ensureSpec_spec w name args st :
  match ensureSpec sizeCalculation sha256_hex parsers client openApiUrl
          w name args st with
  | inl (_, st') =>
      currentSpec st' = currentSpec st /\ currentUrl st' = currentUrl st
  | inr st' =>
      kept_or_assigned st st' /\
      (includes_name toolsRequiringSpec name = true ->
       is_Some (currentSpec st'))
  end.
Proof.
  unfold ensureSpec.
  destruct (includes_name toolsRequiringSpec name) eqn:Hname; simpl;
    [|split; [apply kept_or_assigned_refl|done]].
  destruct (bool_decide (is_Some (currentSpec st))) eqn:Hloaded; simpl.
  { apply bool_decide_eq_true in Hloaded.
    split; [apply kept_or_assigned_refl|done]. }
  destruct (args_url args) as [u|].
  - match goal with
    | |- context [assign_spec ?f ?u ?st] =>
        pose proof (assign_spec_kept f u st) as Hassign;
        destruct (assign_spec f u st) as [st'|[error st']]
    end.
    + destruct Hassign as [Hdoc Hurl]. split; [|done].
      right. split; [done|]. rewrite Hurl. eauto.
    + done.
  - destruct openApiUrl as [[|c u]|]; simpl; [done| |done].
    match goal with
    | |- context [assign_spec ?f ?u ?st] =>
        pose proof (assign_spec_kept f u st) as Hassign;
        destruct (assign_spec f u st) as [st'|[error st']]
    end.
    + destruct Hassign as [Hdoc Hurl]. split; [|done].
      right. split; [done|]. rewrite Hurl. eauto.
    + done.
Qed.

Lemma refreshTool_kept w args st :
  kept_or_assigned st
    (snd (refreshTool sizeCalculation sha256_hex parsers client openApiUrl
            w args st)).
Proof.
  unfold refreshTool.
  destruct (truthy_string _); [|apply kept_or_assigned_refl].
  destruct (match args_url args with
            | Some u => Some u
            | None => or_else (currentUrl st) openApiUrl
            end) as [u|]; [|apply kept_or_assigned_refl].
  match goal with
  | |- context [assign_spec ?f ?u ?st] =>
      pose proof (assign_spec_kept f u st) as Hassign;
      destruct (assign_spec f u st) as [st'|[error st']]
  end; simpl.
  - destruct Hassign as [Hdoc Hurl]. right. split; [done|]. rewrite Hurl. eauto.
  - by left.
Qed.

Lemma executeTool_state run name args st :
  snd (executeTool run name args st) = st.
Proof.
  unfold executeTool. destruct (includes_name registeredTools name); [|done].
  by destruct (run name args (currentSpec st) (currentUrl st)).
Qed.

Lemma callTool_kept run w name args st :
  kept_or_assigned st
    (snd (callTool sizeCalculation sha256_hex parsers client openApiUrl run
            w name args st)).
Proof.
  unfold callTool.
  pose proof (ensureSpec_spec w name args st) as Hensure.
  destruct (ensureSpec sizeCalculation sha256_hex parsers client openApiUrl
              w name args st) as [[text st']|st1].
  - by left.
  - destruct Hensure as [Hkept _].
    eapply kept_or_assigned_trans; [exact Hkept|].
    destruct (String.eqb name "refresh_spec").
    + apply refreshTool_kept.
    + rewrite executeTool_state. apply kept_or_assigned_refl.
Qed.

(** X24.  The server holds a document exactly when it holds the URL the
    document came from: every tool call and every [loadSpec] keeps this,
    whether the fetch succeeds or fails, and none of them unloads a
    document that is loaded. *)
Theorem document_and_url_go_together :
  forall (run : string -> ToolArgs -> option OpenAPISpec -> option string ->
                Outcome string)
         (w : World) (name : string) (args : ToolArgs) (u : string)
         (st : ServerState),
    loaded_with_url st ->
    let called :=
      snd (callTool sizeCalculation sha256_hex parsers client openApiUrl run
             w name args st) in
    let loaded :=
      snd (loadSpec sizeCalculation sha256_hex parsers client w u st) in
    (loaded_with_url called /\
     (is_Some (currentSpec st) -> is_Some (currentSpec called))) /\
    (loaded_with_url loaded /\
     (is_Some (currentSpec st) -> is_Some (currentSpec loaded))).
Proof.
  intros run w name args u st Hloaded called loaded. split.
  - eapply kept_or_assigned_loaded; [apply callTool_kept|done].
  - eapply kept_or_assigned_loaded; [|done]. unfold loaded, loadSpec.
    match goal with
    | |- context [assign_spec ?f ?u ?st] =>
        pose proof (assign_spec_kept f u st) as Hassign;
        destruct (assign_spec f u st) as [st'|[error st']]
    end; simpl.
    + destruct Hassign as [Hdoc Hurl]. right. split; [done|].
      rewrite Hurl. eauto.
    + by left.
Qed.

(** X25.  Once a document is loaded, a call of any tool but
    [refresh_spec] neither fetches nor touches the cache: its answer does
    not depend on the clock or the network, and the state of the server
    is left as it was. *)
Theorem loaded_server_answers_without_fetching :
  forall (run : string -> ToolArgs -> option OpenAPISpec -> option string ->
                Outcome string)
         (w w' : World) (name : string) (args : ToolArgs) (st : ServerState),
    is_Some (currentSpec st) ->
    name <> "refresh_spec" ->
    callTool sizeCalculation sha256_hex parsers client openApiUrl run
      w name args st
    = callTool sizeCalculation sha256_hex parsers client openApiUrl run
        w' name args st /\
    snd (callTool sizeCalculation sha256_hex parsers client openApiUrl run
           w name args st) = st.
Proof.
  intros run w w' name args st Hloaded Hname.
  assert (Hcall : forall w0,
    callTool sizeCalculation sha256_hex parsers client openApiUrl run
      w0 name args st = executeTool run name args st).
  { intros w0. unfold callTool, ensureSpec.
    rewrite (bool_decide_eq_true_2 _ Hloaded), andb_false_r.
    apply String.eqb_neq in Hname. by rewrite Hname. }
  rewrite !Hcall. split; [done|]. apply executeTool_state.
Qed.

(** X26.  A tool that requires a document is only ever executed with one:
    through the dispatcher its [execute] is never called with a [null]
    specification, so what it would do then has no effect on the
    answer. *)
Theorem tools_requiring_spec_get_one :
  forall (run run' : string -> ToolArgs -> option OpenAPISpec ->
                     option string -> Outcome string)
         (w : World) (name : string) (args : ToolArgs) (st : ServerState),
    In name toolsRequiringSpec ->
    (forall doc url, run name args (Some doc) url
                     = run' name args (Some doc) url) ->
    callTool sizeCalculation sha256_hex parsers client openApiUrl run
      w name args st
    = callTool sizeCalculation sha256_hex parsers client openApiUrl run'
        w name args st.
Proof.
  intros run run' w name args st Hin Hsame.
  assert (Hname : includes_name toolsRequiringSpec name = true).
  { unfold includes_name. apply existsb_exists. exists name.
    split; [done|]. apply String.eqb_refl. }
  unfold callTool.
  pose proof (ensureSpec_spec w name args st) as Hensure.
  destruct (ensureSpec sizeCalculation sha256_hex parsers client openApiUrl
              w name args st) as [[text st']|st1]; [done|].
  destruct Hensure as [_ Hdoc]. destruct (Hdoc Hname) as [doc Hsome].
  destruct (String.eqb name "refresh_spec"); [done|].
  unfold executeTool. by rewrite Hsome, Hsame.
Qed.

(** X27.  A name under which no tool is registered is answered with
    [Unknown tool], without loading a document and without changing the
    state, whatever the arguments are. *)
Theorem unknown_tool_is_reported_without_loading :
  forall (run : string -> ToolArgs -> option OpenAPISpec -> option string ->
                Outcome string)
         (w : World) (name : string) (args : ToolArgs) (st : ServerState),
    ~ In name registeredTools ->
    callTool sizeCalculation sha256_hex parsers client openApiUrl run
      w name args st
    = ("Unknown tool: " +:+ name, st).
Proof.
  intros run w name args st Hunknown.
  assert (Hnot : forall names,
    (forall x, In x names -> In x registeredTools) ->
    includes_name names name = false).
  { intros names Hsub. unfold includes_name.
    destruct (existsb (String.eqb name) names) eqn:Hex; [|done].
    apply existsb_exists in Hex as (x & Hx & Heq).
    apply String.eqb_eq in Heq as <-. by apply Hsub in Hx. }
  unfold callTool, ensureSpec, executeTool.
  rewrite (Hnot toolsRequiringSpec), (Hnot registeredTools); simpl.
  - destruct (String.eqb name "refresh_spec") eqn:Heq; [|done].
    apply String.eqb_eq in Heq as ->. exfalso. apply Hunknown.
    unfold registeredTools. simpl. tauto.
  - done.
  - intros x Hx. unfold toolsRequiringSpec, registeredTools in *.
    simpl in *. tauto.
Qed.

End Dispatcher.

Lemma document_and_url_go_together_witness :
  let client := mkClient 30000 3 1000 in
  let args : ToolArgs := Some {[ "url" := JStr example_url ]} in
  let called :=
    snd (callTool (fun _ => 100) (fun u => u) example_parsers client None
           example_run example_world "list_endpoints" args example_server) in
  loaded_with_url example_server /\
  loaded_with_url called /\
  currentUrl called = Some example_url.
Proof.
  intros client args called.
  assert (Hstart : loaded_with_url example_server).
  { split; intros [x Hx]; discriminate. }
  split; [exact Hstart|]. split; [|reflexivity].
  apply (document_and_url_go_together (fun _ => 100) (fun u => u)
           example_parsers client None example_run example_world
           "list_endpoints" args example_url example_server Hstart).
Defined.

Lemma loaded_server_answers_without_fetching_witness :
  let client := mkClient 30000 3 1000 in
  let st := mkServerState (Some signup_doc) (Some example_url) example_cache in
  snd (callTool (fun _ => 100) (fun u => u) example_parsers client None
         example_run example_world "get_api_info" None st) = st.
Proof.
  intros client st.
  apply (loaded_server_answers_without_fetching (fun _ => 100) (fun u => u)
           example_parsers client None example_run example_world example_world
           "get_api_info" None st).
  - by exists signup_doc.
  - discriminate.
Defined.

Lemma tools_requiring_spec_get_one_witness :
  let client := mkClient 30000 3 1000 in
  let args : ToolArgs := Some {[ "url" := JStr example_url ]} in
  callTool (fun _ => 100) (fun u => u) example_parsers client None
    example_run example_world "get_api_info" args example_server
  = callTool (fun _ => 100) (fun u => u) example_parsers client None
      (fun name _ _ _ => Ok ("ran " +:+ name)) example_world "get_api_info"
      args example_server.
Proof.
  intros client args.
  apply (tools_requiring_spec_get_one (fun _ => 100) (fun u => u)
           example_parsers client None example_run
           (fun name _ _ _ => Ok ("ran " +:+ name)) example_world
           "get_api_info" args example_server).
  - unfold toolsRequiringSpec. simpl. tauto.
  - reflexivity.
Defined.

Lemma unknown_tool_is_reported_without_loading_witness :
  let client := mkClient 30000 3 1000 in
  let args : ToolArgs := Some {[ "url" := JStr example_url ]} in
  callTool (fun _ => 100) (fun u => u) example_parsers client
    (Some example_url) example_run example_world "delete_endpoint" args
    example_server
  = ("Unknown tool: delete_endpoint", example_server).
Proof.
  intros client args.
  apply (unknown_tool_is_reported_without_loading (fun _ => 100) (fun u => u)
           example_parsers client (Some example_url) example_run example_world
           "delete_endpoint" args example_server).
  unfold registeredTools. simpl. intros H.
  repeat (destruct H as [H|H]; [discriminate|]). exact H.
Defined.

(* --------------------------------------------------------------------- *)
(** ** Required parameters and header names, own and inherited *)
(* --------------------------------------------------------------------- *)

Section OwnAndInherited.
Context (host : Host).

(** X28.  A declared path parameter is required unless its [required]
    field is explicitly [false]; a declared query parameter is required
    only when its [required] field is [true].  The error that reports a
    parameter as missing is added exactly when a declared parameter of
    that name is required in this sense, the provided parameters have no
    entry under the name, and the name is not one that every object
    inherits from [Object.prototype]. *)
Theorem missing_parameter_reported_unless_inherited :
  forall (pathParams queryParams : list ParameterObject)
         (providedParams : gmap string JsValue) (path : string)
         (result0 result1 result2 : ValidationResult) (name : string),
    validatePathParameters host pathParams providedParams path result0
      = Ok result1 ->
    validateQueryParameters host queryParams providedParams result1
      = Ok result2 ->
    (In (missing_path_error name) (errors result1) <->
       In (missing_path_error name) (errors result0) \/
       exists p, In p pathParams /\ p_name p = name /\
                 p_required p <> Some false /\
                 providedParams !! name = None /\ inherited name = false)
    /\
    (In (missing_query_error name) (errors result2) <->
       In (missing_query_error name) (errors result1) \/
       exists p, In p queryParams /\ p_name p = name /\
                 p_required p = Some true /\
                 providedParams !! name = None /\ inherited name = false).
Proof.
  intros pathParams queryParams providedParams path result0 result1 result2
    name Hpath Hquery.
  destruct (missing_parameter_reported host _ _ _ _ _ _ _ name Hpath Hquery)
    as [Hp Hq].
  rewrite Hp, Hq.
  split; (split; (intros [?|(p & ? & ? & ? & Hin)]; [by left|right]);
          exists p; repeat split; try done;
          first [by apply in_params_own_or_inherited in Hin as [? ?]
                |by apply in_params_own_or_inherited]).
Qed.

(** X29.  A declared header parameter whose lower-cased name is not one
    that every object inherits, checked against provided headers none of
    which is named [__proto__] in any case, counts as provided exactly
    when some provided key equals its name up to letter case.  When none
    does, the only error added is the missing-header report of a required
    parameter; when one does, the errors added are the messages of the
    parameter's schema for the value under such a key. *)
Theorem header_matched_without_regard_to_case :
  forall (providedHeaders : list (string * JsValue)) (param : ParameterObject)
         (result result' : ValidationResult),
    let N := p_name param in
    let matches k :=
      has_key k providedHeaders = true /\ toLowerCase k = toLowerCase N in
    plain_headers providedHeaders ->
    inherited (toLowerCase N) = false ->
    validateHeaderParameter host providedHeaders param result = Ok result' ->
    (object_has host (toLowerCase N) (providedHeadersLower providedHeaders)
     = true <-> exists k, matches k)
    /\
    ((forall k, ~ matches k) ->
       errors result'
       = errors result
         ++ (if truthy_bool (p_required param)
             then [missing_header_error N] else []))
    /\
    ((exists k, matches k) ->
       exists k value,
         matches k /\ get_key k providedHeaders = Some value /\
         errors result'
         = errors result ++ schema_errors host "header" param value).
Proof.
  intros providedHeaders param result result' N matches Hplain Hinherited
    Hresult.
  change matches with (same_header providedHeaders N).
  pose proof (lowered_present providedHeaders N) as Hpresent.
  pose proof (lowered_absent providedHeaders N) as Habsent.
  apply validateHeaderParameter_violations in Hresult.
  unfold header_violations in Hresult. fold N in Hresult.
  rewrite (providedHeadersLower_plain _ Hplain) in *.
  rewrite object_has_plain, object_get_plain in *.
  unfold in_params, get_param, inherited_value, Object_prototype_get in *.
  rewrite Hinherited in *.
  replace (String.eqb (toLowerCase N) "__proto__") with false in *.
  2:{ symmetry. apply String.eqb_neq. intros Heq.
      rewrite Heq in Hinherited. discriminate Hinherited. }
  destruct (own_lowered providedHeaders !! toLowerCase N) as [value|].
  - destruct (Hpresent _ eq_refl) as (k & Hk & Hget).
    rewrite bool_decide_eq_true_2 in * by eauto.
    rewrite andb_false_r in Hresult. simpl in Hresult.
    split; [|split].
    + split; eauto.
    + intros Hnone. by apply Hnone in Hk.
    + intros _. exists k, value. auto.
  - specialize (Habsent eq_refl).
    rewrite bool_decide_eq_false_2 in * by (intros [? ?]; done).
    rewrite andb_true_r, app_nil_r in Hresult. simpl in Hresult.
    split; [|split].
    + split; [done|]. intros (k & Hk). by apply Habsent in Hk.
    + done.
    + intros (k & Hk). by apply Habsent in Hk.
Qed.

End OwnAndInherited.

Lemma missing_parameter_reported_unless_inherited_witness :
  let pathParams := [mkParameter "id" InPath None None None None] in
  let queryParams :=
    [mkParameter "limit" InQuery None None None None;
     mkParameter "q" InQuery (Some true) None None None] in
  let result0 := mkResult true [] [] in
  let result1 := mkResult true [missing_path_error "id"] [] in
  let result2 :=
    mkResult true [missing_path_error "id"; missing_query_error "q"] [] in
  validatePathParameters exampleHost pathParams ∅ "/users/{id}" result0
    = Ok result1 /\
  validateQueryParameters exampleHost queryParams ∅ result1 = Ok result2 /\
  (In (missing_query_error "q") (errors result2) <->
     In (missing_query_error "q") (errors result1) \/
     exists p, In p queryParams /\ p_name p = "q" /\
               p_required p = Some true /\
               (∅ : gmap string JsValue) !! "q" = None /\
               inherited "q" = false).
Proof.
  intros pathParams queryParams result0 result1 result2.
  split; [reflexivity|]. split; [reflexivity|].
  apply (missing_parameter_reported_unless_inherited exampleHost pathParams
           queryParams ∅ "/users/{id}" result0 result1 result2 "q");
    reflexivity.
Defined.

Lemma header_matched_without_regard_to_case_witness :
  let providedHeaders := [("X-Api-Key", JStr "secret")] in
  let param := mkParameter "x-api-key" InHeader (Some true) None None None in
  exists k value,
    (has_key k providedHeaders = true /\
     toLowerCase k = toLowerCase (p_name param)) /\
    get_key k providedHeaders = Some value /\
    errors (mkResult true [] [])
    = errors (mkResult true [] [])
      ++ schema_errors exampleHost "header" param value.
Proof.
  intros providedHeaders param.
  apply (header_matched_without_regard_to_case exampleHost providedHeaders
           param (mkResult true [] []) (mkResult true [] [])).
  - intros k [<-|[]]. discriminate.
  - reflexivity.
  - reflexivity.
  - exists "X-Api-Key". split; reflexivity.
Defined.
